(** * ExpenseFlow: the rule-based expense parser and the receipt interpreter

    A shallow embedding of the module imported as [@/lib/expenseParser]
    ([src/unnamed/part_000]: amount extraction, category classification,
    description extraction, [parseExpenses]) and of the text-interpretation
    half of [@/lib/receiptOcr] ([src/unnamed/part_002]: total, merchant and
    date locators and the assembly of the receipt expense), followed by the
    properties the specification states about them.

    Modelling conventions.
    - A JavaScript string is a Rocq [string]; its code units are the 8-bit
      characters of [ascii], read as ASCII.  Case mapping, white space and
      the regular-expression classes follow ECMAScript on the ASCII range;
      codes above 127 are caseless, non-space, non-word symbols.  A
      statement that depends on the letter case or on the white space of
      the characters of a text is made for ASCII text
      ([TextFacts.asciiText]).
    - Regular expressions are values of [regex], run by a backtracking
      matcher that follows the ECMAScript matcher (ordered alternation,
      greedy and lazy bounded repetition with the empty-iteration check,
      capture groups, lookahead, word boundaries).  Each pattern of the
      source is transcribed next to its literal.
    - A number that counts (an offset, a length, a score) is a [nat]; the
      confidences are IEEE binary64 values ([float]), computed with the same
      operations as the source; a parsed amount is the exact decimal value
      of its numeral, a [Q] in lowest terms.  The source holds the binary64
      nearest to that decimal; since rounding is monotone and the bounds
      [0] and [100000] are themselves binary64 values, the comparisons of
      the source and of the model agree.
    - A property access through [undefined] raises a [TypeError] in the
      source; the model returns [Throw TypeError].  A [while] loop runs on
      fuel and yields [Throw Diverges] if it runs out.
    - Clock readings and random draws come from an explicit [World]. *)

From Stdlib Require Import Bool Arith Lia List String Ascii ZArith NArith QArith.
From Stdlib Require Import DecimalString Sorted.
From Stdlib Require Import Floats.PrimFloat.
From Stdlib Require Uint63.
Import ListNotations.

Local Open Scope string_scope.
Local Open Scope nat_scope.

Set Warnings "-inexact-float".

(* ================================================================== *)
(** ** Outcomes of fallible code *)

Inductive exn : Type :=
| TypeError   (* property access through undefined or null *)
| Diverges.   (* a loop that did not finish within its fuel *)

Inductive result (A : Type) : Type :=
| Ok (a : A)
| Throw (e : exn).

Arguments Ok {A} a.
Arguments Throw {A} e.

Definition rbind {A B : Type} (m : result A) (f : A -> result B) : result B :=
  match m with
  | Ok a => f a
  | Throw e => Throw e
  end.

(** [x!] on a possibly-undefined value that is then dereferenced. *)
Definition deref {A : Type} (o : option A) : result A :=
  match o with
  | Some a => Ok a
  | None => Throw TypeError
  end.

(* ================================================================== *)
(** ** Characters and the string primitives of ECMAScript *)

Module JS.

Definition code (c : ascii) : nat := nat_of_ascii c.

Definition between (lo hi : nat) (c : ascii) : bool :=
  (lo <=? code c) && (code c <=? hi).

Definition isDigit (c : ascii) : bool := between 48 57 c.
Definition isUpper (c : ascii) : bool := between 65 90 c.
Definition isLower (c : ascii) : bool := between 97 122 c.

(** WhiteSpace and LineTerminator on the ASCII range: TAB, LF, VT, FF, CR, SP. *)
Definition isSpace (c : ascii) : bool := between 9 13 c || (code c =? 32).

(** The class [\w]. *)
Definition isWord (c : ascii) : bool :=
  isDigit c || isUpper c || isLower c || (code c =? 95).

(** [toLowerCase] and [toUpperCase], one character at a time.  On a string
    of ASCII characters they are ECMAScript's own: only the letters [A-Z]
    and [a-z] change, one for one.  ECMAScript's mappings are those of
    Unicode, under which a character beyond ASCII can change, and can become
    several characters; such text is outside these definitions, and
    a statement that compares a text with its upper-case or lower-case form
    is made for ASCII text ([TextFacts.asciiText]). *)
Definition lowerChar (c : ascii) : ascii :=
  if isUpper c then ascii_of_nat (code c + 32) else c.

Definition upperChar (c : ascii) : ascii :=
  if isLower c then ascii_of_nat (code c - 32) else c.

Fixpoint toLowerCase (s : string) : string :=
  match s with
  | EmptyString => EmptyString
  | String c t => String (lowerChar c) (toLowerCase t)
  end.

Fixpoint toUpperCase (s : string) : string :=
  match s with
  | EmptyString => EmptyString
  | String c t => String (upperChar c) (toUpperCase t)
  end.

(** [s.slice(n)] / [s.substring(n)] for [0 <= n]. *)
Fixpoint drop (n : nat) (s : string) : string :=
  match n, s with
  | 0, _ => s
  | S _, EmptyString => EmptyString
  | S n', String _ t => drop n' t
  end.

(** [s.substring(0, n)]. *)
Fixpoint take (n : nat) (s : string) : string :=
  match n, s with
  | 0, _ => EmptyString
  | S _, EmptyString => EmptyString
  | S n', String c t => String c (take n' t)
  end.

Definition substring (from to : nat) (s : string) : string :=
  take (to - from) (drop from s).

(** [s.charAt(0)]: the empty string when [s] is empty. *)
Definition charAt0 (s : string) : string := take 1 s.

Fixpoint startsWith (p s : string) : bool :=
  match p, s with
  | EmptyString, _ => true
  | String _ _, EmptyString => false
  | String a p', String b s' => Ascii.eqb a b && startsWith p' s'
  end.

(** [s.includes(k)]. *)
Fixpoint includes (s k : string) : bool :=
  startsWith k s ||
  match s with
  | EmptyString => false
  | String _ t => includes t k
  end.

Fixpoint trimStart (s : string) : string :=
  match s with
  | EmptyString => EmptyString
  | String c t => if isSpace c then trimStart t else s
  end.

(** [trimEnd] keeps a character when it is not a space or something
    that is kept follows it. *)
Fixpoint trimEnd (s : string) : string :=
  match s with
  | EmptyString => EmptyString
  | String c t =>
      match trimEnd t with
      | EmptyString => if isSpace c then EmptyString else String c EmptyString
      | t' => String c t'
      end
  end.

Definition trim (s : string) : string := trimEnd (trimStart s).

(** Truthiness of a string: [!s] is [isEmpty s]. *)
Definition isEmpty (s : string) : bool :=
  match s with
  | EmptyString => true
  | String _ _ => false
  end.

(** [a || b] on strings. *)
Definition orElse (a b : string) : string := if isEmpty a then b else a.

(** [parts.join(sep)]. *)
Fixpoint join (sep : string) (parts : list string) : string :=
  match parts with
  | [] => EmptyString
  | [p] => p
  | p :: ps => p ++ sep ++ join sep ps
  end.

(** [arr.slice(-n)]: the last [n] elements. *)
Definition lastN {A : Type} (n : nat) (l : list A) : list A :=
  skipn (List.length l - n) l.

(** [arr[arr.length - 1]], [undefined] on the empty array. *)
Definition lastElem {A : Type} (l : list A) : option A :=
  nth_error l (List.length l - 1).

End JS.

(* ================================================================== *)
(** ** Regular expressions: syntax and the backtracking matcher *)

Module Regex.

(** Members of a character class. *)
Inductive citem : Type :=
| One (c : ascii)            (* a single character *)
| Range (lo hi : ascii)      (* [lo-hi] *)
| Digit                      (* \d *)
| Space.                     (* \s *)

Inductive regex : Type :=
| Eps                                                  (* the empty pattern *)
| Chr (c : ascii)                                      (* a literal character *)
| Cls (negated : bool) (items : list citem)            (* [...] and [^...] *)
| Seq (r1 r2 : regex)                                  (* r1 r2 *)
| Alt (r1 r2 : regex)                                  (* r1|r2 *)
| Rep (r : regex) (min : nat) (max : option nat) (greedy : bool)
                                                       (* r{min,max} and r{min,max}? *)
| Group (i : nat) (r : regex)                          (* the i-th capturing (r) *)
| Ahead (r : regex)                                    (* (?=r) *)
| WordB                                                (* \b *)
| Bol                                                  (* ^ without the m flag *)
| Eol.                                                 (* $ without the m flag *)

(** The usual abbreviations. *)
Definition star (r : regex) : regex := Rep r 0 None true.
Definition plus (r : regex) : regex := Rep r 1 None true.
Definition lazyplus (r : regex) : regex := Rep r 1 None false.
Definition opt (r : regex) : regex := Rep r 0 (Some 1) true.
Definition times (n : nat) (r : regex) : regex := Rep r n (Some n) true.
Definition upto (lo hi : nat) (r : regex) : regex := Rep r lo (Some hi) true.
Definition atleast (n : nat) (r : regex) : regex := Rep r n None true.
Definition d : regex := Cls false [Digit].
Definition s : regex := Cls false [Space].

(** A literal word, character by character. *)
Fixpoint lit (w : string) : regex :=
  match w with
  | EmptyString => Eps
  | String c EmptyString => Chr c
  | String c t => Seq (Chr c) (lit t)
  end.

(** Concatenation and alternation of several patterns, left to right. *)
Fixpoint cat (rs : list regex) : regex :=
  match rs with
  | [] => Eps
  | [r] => r
  | r :: rs' => Seq r (cat rs')
  end.

Fixpoint alt (rs : list regex) : regex :=
  match rs with
  | [] => Eps
  | [r] => r
  | r :: rs' => Alt r (alt rs')
  end.

(** The state of a match: the character before the current position (for
    [\b]), the text still ahead, the current offset and the captures. *)
Record mstate : Type := MS {
  prev : option ascii;
  rest : string;
  idx : nat;
  caps : list (nat * string)
}.

Definition advance (a : ascii) (t : string) (x : mstate) : mstate :=
  MS (Some a) t (S (idx x)) (caps x).

Definition set_cap (i : nat) (v : string) (x : mstate) : mstate :=
  MS (prev x) (rest x) (idx x)
     ((i, v) :: filter (fun p => negb (fst p =? i)) (caps x)).

Definition clear_caps (gs : list nat) (x : mstate) : mstate :=
  MS (prev x) (rest x) (idx x)
     (filter (fun p => negb (existsb (Nat.eqb (fst p)) gs)) (caps x)).

Definition with_caps (x : mstate) (c : list (nat * string)) : mstate :=
  MS (prev x) (rest x) (idx x) c.

Fixpoint get_cap (i : nat) (c : list (nat * string)) : option string :=
  match c with
  | [] => None
  | (j, v) :: c' => if j =? i then Some v else get_cap i c'
  end.

(** Canonicalize of the i flag: upper-casing of a single code unit. *)
Definition canon (ic : bool) (c : ascii) : ascii :=
  if ic then JS.upperChar c else c.

Definition in_range (lo hi c : ascii) : bool :=
  (JS.code lo <=? JS.code c) && (JS.code c <=? JS.code hi).

(** Membership of [a] in a class item: under the i flag, some member of the
    item has the same canonical form as [a]. *)
Definition in_item (ic : bool) (it : citem) (a : ascii) : bool :=
  match it with
  | One c => Ascii.eqb (canon ic c) (canon ic a)
  | Range lo hi =>
      in_range lo hi a ||
      (ic && (in_range lo hi (JS.upperChar a) || in_range lo hi (JS.lowerChar a)))
  | Digit => JS.isDigit a
  | Space => JS.isSpace a
  end.

Definition is_word_opt (o : option ascii) : bool :=
  match o with
  | Some c => JS.isWord c
  | None => false
  end.

Definition head (t : string) : option ascii :=
  match t with
  | EmptyString => None
  | String c _ => Some c
  end.

(** The capture groups inside a pattern (reset at each iteration of a
    repetition that contains them). *)
Fixpoint groups (r : regex) : list nat :=
  match r with
  | Seq r1 r2 | Alt r1 r2 => groups r1 ++ groups r2
  | Rep r1 _ _ _ | Ahead r1 => groups r1
  | Group i r1 => i :: groups r1
  | _ => []
  end.

Definition cont : Type := mstate -> option mstate.

(** RepeatMatcher of ECMAScript for a body matcher [m] whose capture groups
    are [gs]: at most [max] and at least [min] rounds of [m], then [k].  A
    round of an optional repetition that consumes nothing is rejected.  The
    fuel bounds the rounds; with [min + length (rest x)] it is never the
    limit, because a round either uses up one of the [min] compulsory ones
    or consumes a character ([rmatch_fuel] below). *)
Fixpoint repeat (m : cont -> cont) (gs : list nat) (greedy : bool) (k : cont)
  (fuel min : nat) (max : option nat) (x : mstate) {struct fuel} : option mstate :=
  match max with
  | Some 0 => k x
  | _ =>
      match fuel with
      | 0 => if min =? 0 then k x else None
      | S fuel' =>
          let dk := fun y =>
            if (min =? 0) && (idx y =? idx x) then None
            else repeat m gs greedy k fuel' (pred min) (option_map pred max) y in
          let xr := clear_caps gs x in
          if negb (min =? 0) then m dk xr
          else if greedy then
            match m dk xr with
            | Some z => Some z
            | None => k x
            end
          else
            match k x with
            | Some z => Some z
            | None => m dk xr
            end
      end
  end.

(** The matcher, in continuation-passing style as in ECMAScript: [rmatch ic r
    k x] matches [r] at [x] and hands every way of doing so, in priority
    order, to [k] until [k] accepts. *)
Fixpoint rmatch (ic : bool) (r : regex) (k : cont) (x : mstate) {struct r}
  : option mstate :=
  match r with
  | Eps => k x
  | Chr c =>
      match rest x with
      | String a t =>
          if Ascii.eqb (canon ic a) (canon ic c) then k (advance a t x) else None
      | EmptyString => None
      end
  | Cls negated items =>
      match rest x with
      | String a t =>
          if xorb negated (existsb (fun it => in_item ic it a) items)
          then k (advance a t x) else None
      | EmptyString => None
      end
  | Seq r1 r2 => rmatch ic r1 (rmatch ic r2 k) x
  | Alt r1 r2 =>
      match rmatch ic r1 k x with
      | Some z => Some z
      | None => rmatch ic r2 k x
      end
  | Rep r1 min max greedy =>
      repeat (rmatch ic r1) (groups r1) greedy k
        (min + String.length (rest x)) min max x
  | Group i r1 =>
      rmatch ic r1
        (fun y => k (set_cap i (JS.take (idx y - idx x) (rest x)) y)) x
  | Ahead r1 =>
      match rmatch ic r1 Some x with
      | Some y => k (with_caps x (caps y))
      | None => None
      end
  | WordB =>
      if xorb (is_word_opt (prev x)) (is_word_opt (head (rest x)))
      then k x else None
  | Bol => if idx x =? 0 then k x else None
  | Eol =>
      match rest x with
      | EmptyString => k x
      | String _ _ => None
      end
  end.

(** A RegExp object: its pattern and the flags [i] and [g]. *)
Record RegExp : Type := {
  source : regex;
  ignoreCase : bool;
  global : bool
}.

(** The match array returned by [exec]. *)
Record MatchResult : Type := {
  index : nat;                    (* match.index *)
  matched : string;               (* match[0] *)
  captures : list (nat * string); (* match[i], i >= 1; absent = undefined *)
  endIndex : nat
}.

Definition group (i : nat) (m : MatchResult) : option string :=
  get_cap i (captures m).

(** One attempt at the position of [x]. *)
Definition match_here (re : RegExp) (p : option ascii) (t : string) (i : nat)
  : option MatchResult :=
  match rmatch (ignoreCase re) (source re) Some (MS p t i []) with
  | Some y => Some {| index := i; matched := JS.take (idx y - i) t;
                      captures := caps y; endIndex := idx y |}
  | None => None
  end.

(** The first position from the current one at which the pattern matches. *)
Fixpoint search (re : RegExp) (p : option ascii) (t : string) (i : nat)
  : option MatchResult :=
  match match_here re p t i with
  | Some m => Some m
  | None =>
      match t with
      | EmptyString => None
      | String a t' => search re (Some a) t' (S i)
      end
  end.

(** RegExpBuiltinExec from [lastIndex]: [None] when [lastIndex] is beyond
    the end of the text or nothing matches from there on. *)
Fixpoint exec_from (re : RegExp) (p : option ascii) (t : string) (i : nat)
  (lastIndex : nat) {struct lastIndex} : option MatchResult :=
  match lastIndex with
  | 0 => search re p t i
  | S n =>
      match t with
      | EmptyString => None
      | String a t' => exec_from re (Some a) t' (S i) n
      end
  end.

(** [re.exec(text)] on a regex whose [lastIndex] is [lastIndex]: the match
    and the new [lastIndex].  Without the g flag [lastIndex] is ignored and
    left alone. *)
Definition exec (re : RegExp) (text : string) (lastIndex : nat)
  : option MatchResult * nat :=
  if global re then
    match exec_from re None text 0 lastIndex with
    | Some m => (Some m, endIndex m)
    | None => (None, 0)
    end
  else (search re None text 0, lastIndex).

(** [regex.test(text)] and [text.match(regex)] for a regex without g. *)
Definition test (re : RegExp) (text : string) : bool :=
  match search re None text 0 with
  | Some _ => true
  | None => false
  end.

Definition match1 (re : RegExp) (text : string) : option MatchResult :=
  search re None text 0.

(** All the matches of a global regex, as [String.prototype.match] and
    [replace] enumerate them: after an empty match the scan moves one
    character on.  Every round moves [lastIndex] forward, so the
    [length text + 1] rounds of [matchAll] are never the limit
    ([all_from_fuel] below). *)
Fixpoint all_from (fuel : nat) (re : RegExp) (text : string) (lastIndex : nat)
  : list MatchResult :=
  match fuel with
  | 0 => []
  | S fuel' =>
      match exec_from re None text 0 lastIndex with
      | None => []
      | Some m =>
          let next := if endIndex m =? index m then S (endIndex m)
                      else endIndex m in
          m :: all_from fuel' re text next
      end
  end.

Definition matchAll (re : RegExp) (text : string) : list MatchResult :=
  all_from (S (String.length text)) re text 0.

(** [text.match(regex)] for a global regex: the matched strings
    ([null], read as the empty list by [|| []], when there is none). *)
Definition matchG (re : RegExp) (text : string) : list string :=
  map matched (matchAll re text).

(** Replacement by a fixed string without [$] patterns. *)
Fixpoint splice (text : string) (pos : nat) (ms : list MatchResult) (by_ : string)
  : string :=
  match ms with
  | [] => JS.drop pos text
  | m :: ms' =>
      JS.substring pos (index m) text ++ by_ ++ splice text (endIndex m) ms' by_
  end.

Definition replace (re : RegExp) (by_ : string) (text : string) : string :=
  if global re then splice text 0 (matchAll re text) by_
  else match search re None text 0 with
       | Some m => splice text 0 [m] by_
       | None => text
       end.

(** [text.split(regex)] for a regex without capture groups: [p] is the end
    of the last cut and [q] the position under scan.  Positions inside the
    last delimiter are passed over; elsewhere the pattern is tried at [q]
    only, and a match that ends at [p] is skipped. *)
Fixpoint split_from (re : RegExp) (text : string) (pv : option ascii)
  (t : string) (q p : nat) : list string :=
  match t with
  | EmptyString => [JS.drop p text]
  | String a t' =>
      if q <? p then split_from re text (Some a) t' (S q) p
      else
        match match_here re pv t q with
        | Some m =>
            if endIndex m =? p then split_from re text (Some a) t' (S q) p
            else JS.substring p q text ::
                 split_from re text (Some a) t' (S q) (endIndex m)
        | None => split_from re text (Some a) t' (S q) p
        end
  end.

Definition split (re : RegExp) (text : string) : list string :=
  match text with
  | EmptyString =>
      match match_here re None EmptyString 0 with
      | Some _ => []
      | None => [EmptyString]
      end
  | _ => split_from re text None text 0 0
  end.

End Regex.

(* ================================================================== *)
(** ** Numbers *)

Module Num.

Definition digitValue (c : ascii) : N := N.of_nat (JS.code c - 48).

(** The value of a run of decimal digits. *)
Definition digitsValue (ds : string) : N :=
  fold_left (fun acc c => (10 * acc + digitValue c)%N) (list_ascii_of_string ds) 0%N.

(** The longest prefix of digits and what follows it. *)
Fixpoint spanDigits (t : string) : string * string :=
  match t with
  | String c t' =>
      if JS.isDigit c then let (ds, r) := spanDigits t' in (String c ds, r)
      else (EmptyString, t)
  | EmptyString => (EmptyString, EmptyString)
  end.

Fixpoint pow10 (n : nat) : positive :=
  match n with
  | 0 => 1%positive
  | S n' => (10 * pow10 n')%positive
  end.

(** [parseFloat] on text without sign or exponent (its arguments in this
    program are made of digits and dots): leading white space is skipped,
    then the longest prefix [digits], [digits.digits], [digits.] or
    [.digits] is read; [None] is NaN. *)
Definition parseFloat (t : string) : option Q :=
  let (ip, r) := spanDigits (JS.trimStart t) in
  let fp := match r with
            | String "." r' => fst (spanDigits r')
            | _ => EmptyString
            end in
  if JS.isEmpty ip && JS.isEmpty fp then None
  else Some (Qred (Z.of_N (digitsValue (ip ++ fp)) # pow10 (String.length fp))).

(** [parseFloat(undefined)] reads the text "undefined": NaN. *)
Definition parseFloatOpt (o : option string) : option Q :=
  match o with
  | Some t => parseFloat t
  | None => None
  end.

(** [parseInt(t, 10)] on a run of digits. *)
Definition parseInt (t : string) : Z := Z.of_N (digitsValue (fst (spanDigits t))).

Definition Qltb (a b : Q) : bool := (Qnum a * QDen b <? Qnum b * QDen a)%Z.

(** [a > b] and [a < b] where [a] may be NaN: false on NaN. *)
Definition gt (a : option Q) (b : Q) : bool :=
  match a with
  | Some v => Qltb b v
  | None => false
  end.

Definition lt (a : option Q) (b : Q) : bool :=
  match a with
  | Some v => Qltb v b
  | None => false
  end.

(** An offset, length or score as a binary64 (exact below 2^53). *)
Definition ofNat (n : nat) : float := of_uint63 (Uint63.of_Z (Z.of_nat n)).

(** [Math.min] on two binary64 values. *)
Definition Math_min (a b : float) : float :=
  if is_nan a || is_nan b then nan
  else if PrimFloat.ltb b a then b else a.

End Num.

(* ================================================================== *)
(** ** The world: clocks and the random source *)

(** A [Date] is kept as the arguments of its constructor. *)
Inductive JSDate : Type :=
| DateAt (ms : Z)                         (* new Date(): the current moment *)
| DateOf (year monthIndex day : Z).       (* new Date(year, monthIndex, day) *)

Record World : Type := {
  wallClock : nat -> Z;          (* the n-th observation, as Date.now() *)
  perfClock : nat -> float;      (* the n-th observation, as performance.now() *)
  randomDraw : nat -> string;    (* Math.random().toString(36).substr(2, 9) *)
  observations : nat             (* how many observations were made so far *)
}.

Definition tick (w : World) : World :=
  {| wallClock := wallClock w; perfClock := perfClock w;
     randomDraw := randomDraw w; observations := S (observations w) |}.

(** Computations that observe the world and may throw. *)
Definition M (A : Type) : Type := World -> result (A * World).

Definition ret {A : Type} (a : A) : M A := fun w => Ok (a, w).

Definition bind {A B : Type} (m : M A) (f : A -> M B) : M B :=
  fun w =>
    match m w with
    | Ok (a, w') => f a w'
    | Throw e => Throw e
    end.

Definition lift {A : Type} (r : result A) : M A :=
  fun w =>
    match r with
    | Ok a => Ok (a, w)
    | Throw e => Throw e
    end.

Declare Scope monad_scope.
Delimit Scope monad_scope with monad.
Notation "x <- m ;; k" := (bind m (fun x => k))
  (at level 100, m at next level, right associativity) : monad_scope.
Notation "x <-! r ;; k" := (rbind r (fun x => k))
  (at level 100, r at next level, right associativity) : monad_scope.

Definition Date_now : M Z :=
  fun w => Ok (wallClock w (observations w), tick w).

Definition performance_now : M float :=
  fun w => Ok (perfClock w (observations w), tick w).

Definition Math_random_suffix : M string :=
  fun w => Ok (randomDraw w (observations w), tick w).

Definition new_Date : M JSDate :=
  fun w => Ok (DateAt (wallClock w (observations w)), tick w).

(** [arr.map(f)] for an effectful callback [f(item, index)]. *)
Fixpoint mapM_from {A B : Type} (f : A -> nat -> M B) (i : nat) (l : list A)
  : M (list B) :=
  match l with
  | [] => ret []
  | a :: l' =>
      (b <- f a i ;;
       bs <- mapM_from f (S i) l' ;;
       ret (b :: bs))%monad
  end.

Definition mapM {A B : Type} (f : A -> nat -> M B) (l : list A) : M (list B) :=
  mapM_from f 0 l.

(** Decimal rendering of an integer, as a template literal does. *)
Definition showZ (z : Z) : string := DecimalString.NilZero.string_of_int (Z.to_int z).

(* ================================================================== *)
(** ** Data model ([src/src/types/expense.ts]) *)

Inductive Category : Type :=
| food | transport | shopping | entertainment | utilities | health | travel | other.

Definition Category_eqb (a b : Category) : bool :=
  match a, b with
  | food, food | transport, transport | shopping, shopping
  | entertainment, entertainment | utilities, utilities | health, health
  | travel, travel | other, other => true
  | _, _ => false
  end.

Module ParsedExpense.
Record t : Type := {
  id : string;
  amount : Q;
  description : string;
  category : Category;
  confidence : float;
  needsReview : bool;
  date : JSDate
}.
End ParsedExpense.

Module ParsingResult.
Record t : Type := {
  success : bool;
  expenses : list ParsedExpense.t;
  rawInput : string;
  processingTime : float
}.
End ParsingResult.

(** An amount candidate: an element of the array built by [extractAmounts]. *)
Module Candidate.
Record t : Type := {
  amount : Q;
  index : nat;
  matchText : string   (* the field [match] of the source *)
}.
End Candidate.

(* ================================================================== *)
(** ** The rule-based parser ([@/lib/expenseParser]) *)

Module ExpenseParser.

Import Regex.

Definition re (r : regex) (i g : bool) : RegExp :=
  {| source := r; ignoreCase := i; global := g |}.

(** [\d+(?:\.\d{2})?] *)
Definition numeral : regex := cat [plus d; opt (cat [Chr "."; times 2 d])].

Definition AMOUNT_PATTERNS : list RegExp := [
  (* /\$(\d+(?:\.\d{2})?)/g *)
  re (cat [Chr "$"; Group 1 numeral]) false true;
  (* /(\d+(?:\.\d{2})?)\s*dollars?/gi *)
  re (cat [Group 1 numeral; star s; lit "dollar"; opt (Chr "s")]) true true;
  (* /(\d+(?:\.\d{2})?)\s*(?:USD|usd)/g *)
  re (cat [Group 1 numeral; star s; alt [lit "USD"; lit "usd"]]) false true
].

(** [Object.entries(CATEGORY_KEYWORDS)], in insertion order. *)
Definition CATEGORY_KEYWORDS : list (Category * list string) := [
  (food, ["lunch"; "dinner"; "breakfast"; "coffee"; "food"; "restaurant"; "meal";
          "snack"; "pizza"; "burger"; "groceries"; "grocery"; "eat"; "eating"]);
  (transport, ["uber"; "lyft"; "taxi"; "fuel"; "gas"; "petrol"; "parking"; "bus";
               "train"; "metro"; "subway"; "transport"; "toll"]);
  (shopping, ["amazon"; "shopping"; "clothes"; "shoes"; "store"; "mall"; "bought";
              "purchase"]);
  (entertainment, ["movie"; "netflix"; "spotify"; "concert"; "game"; "theater";
                   "entertainment"; "music"; "streaming"]);
  (utilities, ["electricity"; "water"; "internet"; "phone"; "bill"; "utility";
               "utilities"; "rent"; "insurance"]);
  (health, ["doctor"; "medicine"; "pharmacy"; "hospital"; "health"; "gym";
            "fitness"; "medical"; "dentist"]);
  (travel, ["flight"; "hotel"; "airbnb"; "vacation"; "trip"; "travel"; "booking"]);
  (other, [])
].

Definition generateId : M string :=
  (now <- Date_now ;;
   suffix <- Math_random_suffix ;;
   ret ("exp_" ++ showZ now ++ "_" ++ suffix))%monad.

(** The sanity check [amount > 0 && amount < 100000]. *)
Definition sane (amount : option Q) : bool :=
  Num.gt amount 0 && Num.lt amount 100000.

(** The body of [while ((match = regex.exec(text)) !== null)] for one
    pattern; [lastIndex] is the regex's own. *)
Fixpoint scanPattern (fuel : nat) (regex : RegExp) (text : string)
  (lastIndex : nat) (results : list Candidate.t) : result (list Candidate.t) :=
  match fuel with
  | 0 => Throw Diverges
  | S fuel' =>
      match exec regex text lastIndex with
      | (None, _) => Ok results
      | (Some m, lastIndex') =>
          let amount := Num.parseFloatOpt (group 1 m) in
          scanPattern fuel' regex text lastIndex'
            (match amount with
             | Some v =>
                 if sane amount
                 then results ++ [{| Candidate.amount := v;
                                     Candidate.index := index m;
                                     Candidate.matchText := matched m |}]
                 else results
             | None => results
             end)
      end
  end.

(** [for (const pattern of AMOUNT_PATTERNS)]: each pattern is copied into a
    fresh regex (so [lastIndex] starts at 0) and scanned. *)
Fixpoint scanPatterns (fuel : nat) (patterns : list RegExp) (text : string)
  (results : list Candidate.t) : result (list Candidate.t) :=
  match patterns with
  | [] => Ok results
  | pattern :: patterns' =>
      (results' <-! scanPattern fuel pattern text 0 results ;;
       scanPatterns fuel patterns' text results')%monad
  end.

(** [results.sort((a, b) => a.index - b.index)]: the sort is stable, so its
    result is the one of the stable insertion sort, which puts each element,
    from the last to the first, in front of the elements already placed
    whose offset is not smaller. *)
Fixpoint insertByIndex (x : Candidate.t) (l : list Candidate.t) : list Candidate.t :=
  match l with
  | [] => [x]
  | y :: l' =>
      if Candidate.index x <=? Candidate.index y then x :: l
      else y :: insertByIndex x l'
  end.

Definition sortByIndex (l : list Candidate.t) : list Candidate.t :=
  fold_right insertByIndex [] l.

(** [.filter((item, index, arr) => index === 0 || item.index !== arr[index - 1].index)];
    [before] is [arr[index - 1]], absent at [index === 0]. *)
Fixpoint dropRepeated (before : option Candidate.t) (arr : list Candidate.t)
  : list Candidate.t :=
  match arr with
  | [] => []
  | item :: arr' =>
      let keep := match before with
                  | None => true
                  | Some b => negb (Candidate.index item =? Candidate.index b)
                  end in
      (if keep then [item] else []) ++ dropRepeated (Some item) arr'
  end.

Definition extractAmountsWith (fuel : nat) (text : string) : result (list Candidate.t) :=
  (results <-! scanPatterns fuel AMOUNT_PATTERNS text [] ;;
   Ok (dropRepeated None (sortByIndex results)))%monad.

(** The loops get more rounds than the text has positions. *)
Definition extractAmounts (text : string) : result (list Candidate.t) :=
  extractAmountsWith (String.length text + 2) text.

(** [Math.min(0.95, 0.6 + highestScore * 0.05)], or [0.4]. *)
Definition confidenceOf (highestScore : nat) : float :=
  if 0 <? highestScore
  then Num.Math_min 0.95 (0.6 + Num.ofNat highestScore * 0.05)%float
  else 0.4%float.

(** The inner loop: [score += keyword.length] for each keyword included. *)
Definition scoreOf (lowerText : string) (keywords : list string) : nat :=
  fold_left (fun score keyword =>
               if JS.includes lowerText keyword then score + String.length keyword
               else score) keywords 0.

(** One round of the outer loop on [(bestMatch, highestScore)]. *)
Definition considerCategory (lowerText : string) (st : Category * nat)
  (entry : Category * list string) : Category * nat :=
  let (category, keywords) := entry in
  if Category_eqb category other then st
  else
    let score := scoreOf lowerText keywords in
    if snd st <? score then (category, score) else st.

Definition detectCategory (text : string) : Category * float :=
  let lowerText := JS.toLowerCase text in
  let (bestMatch, highestScore) :=
    fold_left (considerCategory lowerText) CATEGORY_KEYWORDS (other, 0) in
  (bestMatch, confidenceOf highestScore).

(** /(?:,|\band\b|\+|;)/i *)
Definition delimiters : RegExp :=
  re (alt [Chr ","; cat [WordB; lit "and"; WordB]; Chr "+"; Chr ";"]) true false.

(** /^\s*(?:for|on|at)?\s*([^,;+]+?)(?=\s*(?:and|,|\+|$|\$|\d+\s*(?:dollars?|USD)))/i *)
Definition afterPattern : RegExp :=
  re (cat [Bol; star s; opt (alt [lit "for"; lit "on"; lit "at"]); star s;
           Group 1 (lazyplus (Cls true [One ","; One ";"; One "+"]));
           Ahead (cat [star s;
                       alt [lit "and"; Chr ","; Chr "+"; Eol; Chr "$";
                            cat [plus d; star s;
                                 alt [cat [lit "dollar"; opt (Chr "s")];
                                      lit "USD"]]]])])
     true false.

(** /^\s*(?:spent|paid|for|on|at)\s*/i *)
Definition leadingFiller : RegExp :=
  re (cat [Bol; star s;
           alt [lit "spent"; lit "paid"; lit "for"; lit "on"; lit "at"]; star s])
     true false.

(** /\s+/g and /\s+/ *)
Definition spacesG : RegExp := re (plus s) false true.
Definition spaces : RegExp := re (plus s) false false.

Definition extractDescription (text : string) (amount : Candidate.t)
  (nextAmount : option Candidate.t) : result string :=
  let beforeAmount := JS.substring 0 (Candidate.index amount) text in
  let afterAmount :=
    JS.drop (Candidate.index amount + String.length (Candidate.matchText amount)) text in
  let afterMatch := match1 afterPattern afterAmount in
  (segment <-!
     match afterMatch with
     | Some m =>
         (g1 <-! deref (group 1 m) ;;
          if negb (JS.isEmpty (JS.trim g1)) then Ok (JS.trim g1)
          else
            (lastPart <-! deref (JS.lastElem (split delimiters beforeAmount)) ;;
             Ok (JS.trim lastPart)))
     | None =>
         (lastPart <-! deref (JS.lastElem (split delimiters beforeAmount)) ;;
          Ok (JS.trim lastPart))
     end ;;
   let segment :=
     JS.trim (replace spacesG " " (replace leadingFiller "" segment)) in
   let segment :=
     if JS.isEmpty segment || (String.length segment <? 2) then
       let fullContext :=
         JS.trim (replace (nth 0 AMOUNT_PATTERNS (re Eps false false)) "" text) in
       let words :=
         filter (fun w => 2 <? String.length w) (split spaces fullContext) in
       JS.orElse (JS.join " " (firstn 3 words)) "Expense"
     else segment in
   Ok (JS.toUpperCase (JS.charAt0 segment) ++ JS.drop 1 segment))%monad.

(** The callback of [amounts.map]. *)
Definition buildExpense (trimmedInput : string) (amounts : list Candidate.t)
  (amountInfo : Candidate.t) (index : nat) : M ParsedExpense.t :=
  (description <-
     lift (extractDescription trimmedInput amountInfo (nth_error amounts (index + 1))) ;;
   let (category, confidence) := detectCategory description in
   id <- generateId ;;
   date <- new_Date ;;
   ret {| ParsedExpense.id := id;
          ParsedExpense.amount := Candidate.amount amountInfo;
          ParsedExpense.description := description;
          ParsedExpense.category := category;
          ParsedExpense.confidence := confidence;
          ParsedExpense.needsReview := PrimFloat.ltb confidence 0.7;
          ParsedExpense.date := date |})%monad.

Definition failed (input : string) (startTime : float) : M ParsingResult.t :=
  (endTime <- performance_now ;;
   ret {| ParsingResult.success := false;
          ParsingResult.expenses := [];
          ParsingResult.rawInput := input;
          ParsingResult.processingTime := (endTime - startTime)%float |})%monad.

Definition parseExpenses (input : string) : M ParsingResult.t :=
  (startTime <- performance_now ;;
   let trimmedInput := JS.trim input in
   if JS.isEmpty trimmedInput then failed input startTime
   else
     amounts <- lift (extractAmounts trimmedInput) ;;
     if List.length amounts =? 0 then failed input startTime
     else
       expenses <- mapM (buildExpense trimmedInput amounts) amounts ;;
       endTime <- performance_now ;;
       ret {| ParsingResult.success := true;
              ParsingResult.expenses := expenses;
              ParsingResult.rawInput := input;
              ParsingResult.processingTime := (endTime - startTime)%float |})%monad.

End ExpenseParser.

(* ================================================================== *)
(** ** The receipt interpreter ([@/lib/receiptOcr]) *)

Module ReceiptOcr.

Import Regex.

Definition re (r : regex) (i g : bool) : RegExp :=
  {| source := r; ignoreCase := i; global := g |}.

Definition TOTAL_KEYWORDS : list string := [
  "total"; "grand total"; "amount due"; "balance due"; "total due";
  "amount received"; "card payment"; "net amount"; "payable"; "bill amount";
  "amount"
].

Definition IGNORE_MERCHANT_LINES : list string := [
  "thank you"; "thanks"; "receipt"; "invoice"; "total"; "subtotal"; "tax";
  "gst"; "cgst"; "sgst"; "cess"; "visa"; "mastercard"; "amex"; "cash";
  "change"; "balance"; "due"; "payment"; "debit"; "credit"; "tip"; "gratuity";
  "rounding"; "discount"
].

Definition generateId : M string :=
  (now <- Date_now ;;
   suffix <- Math_random_suffix ;;
   ret ("exp_" ++ showZ now ++ "_" ++ suffix))%monad.

(** /[^0-9.,]/g and /,/g *)
Definition notMoneyChar : RegExp :=
  re (Cls true [Range "0" "9"; One "."; One ","]) false true.
Definition comma : RegExp := re (Chr ",") false true.

Definition parseMoney (value : string) : option Q :=
  let cleaned := replace comma "" (replace notMoneyChar "" value) in
  Num.parseFloat cleaned.

(** /\d{1,3}(?:,\d{3})*(?:\.\d{2})?/g *)
Definition moneyToken : RegExp :=
  re (cat [upto 1 3 d; star (cat [Chr ","; times 3 d]);
           opt (cat [Chr "."; times 2 d])]) false true.

(** [.filter(amount => typeof amount === 'number' && amount > 0)] on the
    parsed matches, [null] being [None]. *)
Fixpoint positiveNumbers (l : list (option Q)) : list Q :=
  match l with
  | [] => []
  | Some v :: l' => if Num.Qltb 0 v then v :: positiveNumbers l' else positiveNumbers l'
  | None :: l' => positiveNumbers l'
  end.

Definition extractMoneyValues (text : string) : list Q :=
  positiveNumbers (map parseMoney (matchG moneyToken text)).

(** /\r?\n/ *)
Definition newline : RegExp :=
  re (cat [opt (Chr "013"); Chr "010"]) false false.

(** [text.split(/\r?\n/).map((line) => line.trim()).filter(Boolean)] *)
Definition linesOf (text : string) : list string :=
  filter (fun line => negb (JS.isEmpty line)) (map JS.trim (split newline text)).

Definition isTotalLine (line : string) : bool :=
  let lower := JS.toLowerCase line in
  if negb (existsb (fun keyword => JS.includes lower keyword) TOTAL_KEYWORDS) then false
  else if JS.includes lower "subtotal" then false
  else if JS.includes lower "taxable" then false
  else true.

(** [lines.map((line, index) => ({ line, index }))] *)
Fixpoint indexed (i : nat) (lines : list string) : list (string * nat) :=
  match lines with
  | [] => []
  | line :: lines' => (line, i) :: indexed (S i) lines'
  end.

(** A loop [for (let i = n - 1; i >= 0; i -= 1)] over [arr], returning from
    the function at the first element whose line yields a money value. *)
Fixpoint scanUp {A : Type} (lineOf : A -> string) (arr : list A) (n : nat)
  (confidence : float) : result (option (option Q * float)) :=
  match n with
  | 0 => Ok None
  | S i =>
      (entry <-! deref (nth_error arr i) ;;
       let values := extractMoneyValues (lineOf entry) in
       if 0 <? List.length values
       then Ok (Some (JS.lastElem values, confidence))
       else scanUp lineOf arr i confidence)%monad
  end.

Definition Qmaxb (a b : Q) : Q := if Num.Qltb a b then b else a.

(** [Math.max(...values)] on a non-empty array. *)
Definition Math_max (values : list Q) : option Q :=
  match values with
  | [] => None
  | v :: vs => Some (fold_left Qmaxb vs v)
  end.

Definition findTotalAmount (text : string) : result (option Q * float) :=
  let lines := linesOf text in
  let prioritized := filter (fun e => isTotalLine (fst e)) (indexed 0 lines) in
  (r1 <-! scanUp fst prioritized (List.length prioritized) 0.85%float ;;
   match r1 with
   | Some r => Ok r
   | None =>
       let bottomLines := JS.lastN 10 lines in
       (r2 <-! scanUp (fun l => l) bottomLines (List.length bottomLines) 0.6%float ;;
        match r2 with
        | Some r => Ok r
        | None =>
            let allValues := extractMoneyValues text in
            if List.length allValues =? 0 then Ok (None, 0.4%float)
            else Ok (Math_max allValues, 0.55%float)
        end)
   end)%monad.

(** *** Dates *)

(** Days from 1970-01-01 to the first day of month [m] (0-based, already
    reduced to 0..11) of year [y], in the proleptic Gregorian calendar. *)
Definition daysToMonth (y m : Z) : Z :=
  let y' := (if m <? 2 then y - 1 else y)%Z in
  let era := (y' / 400)%Z in
  let yoe := (y' - era * 400)%Z in
  let mp := ((m + 10) mod 12)%Z in
  let doy := ((153 * mp + 2) / 5)%Z in
  let doe := (yoe * 365 + yoe / 4 - yoe / 100 + doy)%Z in
  (era * 146097 + doe - 719468)%Z.

(** The time value of [new Date(year, monthIndex, day)] in milliseconds, up
    to the offset of the local time zone; years 0..99 mean 1900..1999. *)
Definition timeValue (year monthIndex day : Z) : Z :=
  let full := (if (0 <=? year) && (year <=? 99) then 1900 + year else year)%Z in
  let ym := (full + monthIndex / 12)%Z in
  let mn := (monthIndex mod 12)%Z in
  ((daysToMonth ym mn + day - 1) * 86400000)%Z.

(** NaN-aware integers: [None] is NaN. *)
Definition num : Type := option Z.

Definition parseIntOpt (o : option string) : num :=
  match o with
  | Some t => if JS.isEmpty (fst (Num.spanDigits t)) then None else Some (Num.parseInt t)
  | None => None
  end.

Definition nlt (a : num) (b : Z) : bool :=
  match a with Some v => (v <? b)%Z | None => false end.
Definition ngt (a : num) (b : Z) : bool :=
  match a with Some v => (b <? v)%Z | None => false end.
Definition nle (a : num) (b : Z) : bool :=
  match a with Some v => (v <=? b)%Z | None => false end.
Definition nadd (a : num) (b : Z) : num := option_map (fun v => (v + b)%Z) a.

(** [new Date(year, monthIndex, day)] followed by the guard
    [!Number.isNaN(date.getTime())]: [None] when the time value is NaN,
    that is when an argument is NaN or the time is beyond 8.64e15 ms. *)
Definition validDate (year monthIndex day : num) : option JSDate :=
  match year, monthIndex, day with
  | Some y, Some m, Some dd =>
      if (Z.abs (timeValue y m dd) <=? 8640000000000000)%Z
      then Some (DateOf y m dd) else None
  | _, _, _ => None
  end.

(** /\s+/g *)
Definition spacesG : RegExp := re (plus s) false true.

(** [\/\-\.] as a class. *)
Definition sep : regex := Cls false [One "/"; One "-"; One "."].

(** /\b(\d{4})[\/\-\.](\d{1,2})[\/\-\.](\d{1,2})\b/ *)
Definition ymdPattern : RegExp :=
  re (cat [WordB; Group 1 (times 4 d); sep; Group 2 (upto 1 2 d); sep;
           Group 3 (upto 1 2 d); WordB]) false false.

(** /\b(\d{1,2})[\/\-\.](\d{1,2})[\/\-\.](\d{2,4})\b/ *)
Definition mdyPattern : RegExp :=
  re (cat [WordB; Group 1 (upto 1 2 d); sep; Group 2 (upto 1 2 d); sep;
           Group 3 (upto 2 4 d); WordB]) false false.

(** /\b([A-Za-z]{3,9})\s+(\d{1,2}),?\s*(\d{2,4})\b/ *)
Definition monthNamePattern : RegExp :=
  re (cat [WordB; Group 1 (upto 3 9 (Cls false [Range "A" "Z"; Range "a" "z"]));
           plus s; Group 2 (upto 1 2 d); opt (Chr ","); star s;
           Group 3 (upto 2 4 d); WordB]) false false.

Definition MONTH_NAMES : list string := [
  "january"; "february"; "march"; "april"; "may"; "june";
  "july"; "august"; "september"; "october"; "november"; "december"
].

(** [names.findIndex(p)]: [None] is -1. *)
Fixpoint findIndex (p : string -> bool) (names : list string) (i : nat) : option nat :=
  match names with
  | [] => None
  | n :: names' => if p n then Some i else findIndex p names' (S i)
  end.

(** The month and day handed to the Date constructor by the month-first
    branch, from its first and second numeric components. *)
Definition arrangeMonthDay (month day : num) : num * num :=
  if ngt day 12 && nle month 12 then (day, month) else (month, day).

Definition tryYmd (normalized : string) : option JSDate :=
  match match1 ymdPattern normalized with
  | Some ymd =>
      let year := parseIntOpt (group 1 ymd) in
      let month := nadd (parseIntOpt (group 2 ymd)) (-1) in
      let day := parseIntOpt (group 3 ymd) in
      validDate year month day
  | None => None
  end.

Definition tryMdy (normalized : string) : option JSDate :=
  match match1 mdyPattern normalized with
  | Some mdy =>
      let month := parseIntOpt (group 1 mdy) in
      let day := parseIntOpt (group 2 mdy) in
      let year := parseIntOpt (group 3 mdy) in
      let year := if nlt year 100 then nadd year 2000 else year in
      let (month, day) := arrangeMonthDay month day in
      validDate year (nadd month (-1)) day
  | None => None
  end.

Definition tryMonthName (normalized : string) : result (option JSDate) :=
  match match1 monthNamePattern normalized with
  | Some monthName =>
      (g1 <-! deref (group 1 monthName) ;;
       let monthStr := JS.toLowerCase g1 in
       match findIndex (fun name => JS.startsWith monthStr name) MONTH_NAMES 0 with
       | Some monthIndex =>
           let year := parseIntOpt (group 3 monthName) in
           let year := if nlt year 100 then nadd year 2000 else year in
           let day := parseIntOpt (group 2 monthName) in
           Ok (validDate year (Some (Z.of_nat monthIndex)) day)
       | None => Ok None
       end)%monad
  | None => Ok None
  end.

Definition findReceiptDate (text : string) : result (option JSDate) :=
  let normalized := replace spacesG " " text in
  match tryYmd normalized with
  | Some date => Ok (Some date)
  | None =>
      match tryMdy normalized with
      | Some date => Ok (Some date)
      | None => tryMonthName normalized
      end
  end.

(** *** Merchant *)

(** /[a-zA-Z]/, /\d+/g, /[^A-Za-z\s&.-]/g, /\s{2,}/g *)
Definition letter : RegExp :=
  re (Cls false [Range "a" "z"; Range "A" "Z"]) false false.
Definition digitsG : RegExp := re (plus d) false true.
Definition notNameChar : RegExp :=
  re (Cls true [Range "A" "Z"; Range "a" "z"; Space; One "&"; One "."; One "-"])
     false true.
Definition wideSpace : RegExp := re (atleast 2 s) false true.

Definition merchantScore (line : string) : string * nat :=
  let lower := JS.toLowerCase line in
  let normalized := JS.trim (replace notNameChar "" (replace digitsG "" line)) in
  let score := String.length line in
  let score := if JS.includes lower "mart" then score + 10 else score in
  let score := if JS.includes lower "super" then score + 8 else score in
  let score := if JS.includes lower "store" then score + 8 else score in
  let score := if JS.includes lower "market" then score + 6 else score in
  (JS.orElse normalized line, score).

(** [.sort((a, b) => b.score - a.score)]: stable, by descending score. *)
Fixpoint insertByScore (x : string * nat) (l : list (string * nat)) : list (string * nat) :=
  match l with
  | [] => [x]
  | y :: l' => if snd y <=? snd x then x :: l else y :: insertByScore x l'
  end.

Definition sortByScore (l : list (string * nat)) : list (string * nat) :=
  fold_right insertByScore [] l.

(** [null] is [None]. *)
Definition findMerchant (text : string) : result (option string) :=
  let lines := linesOf text in
  let head := firstn 8 lines in
  let candidates :=
    filter (fun line =>
              negb (existsb (fun ignore => JS.includes (JS.toLowerCase line) ignore)
                            IGNORE_MERCHANT_LINES))
      (filter (test letter)
         (filter (fun line => 3 <=? String.length line) head)) in
  if List.length candidates =? 0 then Ok None
  else
    let weighted := sortByScore (map merchantScore candidates) in
    (first <-! deref (nth_error weighted 0) ;;
     Ok (Some (JS.trim (replace wideSpace " " (fst first)))))%monad.

Definition normalizeDescription (value : string) : string :=
  let trimmed := JS.trim value in
  if JS.isEmpty trimmed then "Receipt"
  else JS.toUpperCase (JS.charAt0 trimmed) ++ JS.drop 1 trimmed.

(** [Object.entries(MERCHANT_CATEGORY_HINTS)], in insertion order. *)
Definition MERCHANT_CATEGORY_HINTS : list (Category * list string) := [
  (food, ["restaurant"; "cafe"; "coffee"; "bakery"; "pizza"; "burger"; "kitchen";
          "diner"; "bar"; "grill"; "bistro"]);
  (transport, ["gas"; "fuel"; "petrol"; "station"; "uber"; "lyft"; "taxi"; "parking"]);
  (shopping, ["walmart"; "target"; "costco"; "ikea"; "best buy"; "amazon"; "mall";
              "mart"; "store"; "shop"; "market"]);
  (entertainment, ["cinema"; "theatre"; "theater"; "netflix"; "spotify"; "arcade"]);
  (utilities, ["utility"; "electric"; "power"; "water"; "internet"; "telecom"]);
  (health, ["pharmacy"; "clinic"; "hospital"; "health"; "dental"; "optical"]);
  (travel, ["airlines"; "hotel"; "resort"; "airbnb"; "motel"; "inn"]);
  (other, [])
].

(** One round of the loop of [pickCategoryFromMerchant] on [(best, score)]. *)
Definition considerHints (lower : string) (st : Category * nat)
  (entry : Category * list string) : Category * nat :=
  let (category, hints) := entry in
  let localScore := ExpenseParser.scoreOf lower hints in
  if snd st <? localScore then (category, localScore) else st.

Definition pickCategoryFromMerchant (merchant : option string) : Category * float :=
  match merchant with
  | None => (other, 0.4%float)
  | Some m =>
      if JS.isEmpty m then (other, 0.4%float)
      else
        let lower := JS.toLowerCase m in
        let (best, score) :=
          fold_left (considerHints lower) MERCHANT_CATEGORY_HINTS (other, 0) in
        if negb (Category_eqb best other)
        then (best, Num.Math_min 0.9 (0.6 + Num.ofNat score * 0.05)%float)
        else ExpenseParser.detectCategory m
  end.

Definition pickCategory (parsedCategory : option Category) : Category :=
  match parsedCategory with
  | Some c => c
  | None => other
  end.

(** [a ?? b] *)
Definition coalesce {A : Type} (a : option A) (b : A) : A :=
  match a with
  | Some v => v
  | None => b
  end.

(** [a || b] where [a] may be null and [b] is a string. *)
Definition orString (a : option string) (b : string) : string :=
  match a with
  | Some v => JS.orElse v b
  | None => b
  end.

(** The body of [parseReceiptImage] from the recognised text on (the part
    the specification calls [parseReceiptText]). *)
Definition parseReceiptText (text : string) : M (ParsedExpense.t * string) :=
  (parsed <- ExpenseParser.parseExpenses text ;;
   let ruleExpense := nth_error (ParsingResult.expenses parsed) 0 in
   total <- lift (findTotalAmount text) ;;
   let (keywordAmount, amountConfidence) := total in
   merchant <- lift (findMerchant text) ;;
   found <- lift (findReceiptDate text) ;;
   date <- match found with
           | Some dt => ret dt
           | None => new_Date
           end ;;
   let amount :=
     coalesce keywordAmount (coalesce (option_map ParsedExpense.amount ruleExpense) 0%Q) in
   let description :=
     normalizeDescription
       (orString merchant
          (orString (option_map ParsedExpense.description ruleExpense) "Receipt")) in
   let merchantCategory := pickCategoryFromMerchant merchant in
   let category :=
     if negb (Category_eqb (fst merchantCategory) other) then fst merchantCategory
     else pickCategory (option_map ParsedExpense.category ruleExpense) in
   let confidence :=
     if negb (Category_eqb (fst merchantCategory) other) then snd merchantCategory
     else coalesce (option_map ParsedExpense.confidence ruleExpense) amountConfidence in
   id <- generateId ;;
   ret ({| ParsedExpense.id := id;
           ParsedExpense.amount := amount;
           ParsedExpense.description := description;
           ParsedExpense.category := category;
           ParsedExpense.confidence := confidence;
           ParsedExpense.needsReview := true;
           ParsedExpense.date := date |}, text))%monad.

End ReceiptOcr.

(* ================================================================== *)
(** ** Static measures of a pattern, used to reason about the matcher *)

Module RegexFacts.

Import Regex.

(** The rounds a repetition is sure to make. *)
Definition rounds (min : nat) (max : option nat) : nat :=
  match max with
  | Some m => Nat.min min m
  | None => min
  end.

(** A lower bound on the number of characters a match consumes. *)
Fixpoint minlen (r : regex) : nat :=
  match r with
  | Chr _ | Cls _ _ => 1
  | Seq r1 r2 => minlen r1 + minlen r2
  | Alt r1 r2 => Nat.min (minlen r1) (minlen r2)
  | Rep r1 min max _ => rounds min max * minlen r1
  | Group _ r1 => minlen r1
  | _ => 0
  end.

(** Every match of [r] passes through group [i]. *)
Fixpoint sets (i : nat) (r : regex) : bool :=
  match r with
  | Seq r1 r2 => sets i r1 || sets i r2
  | Alt r1 r2 => sets i r1 && sets i r2
  | Group j r1 => (j =? i) || sets i r1
  | _ => false
  end.

(** No repetition of [r] resets group [i]. *)
Fixpoint keeps (i : nat) (r : regex) : bool :=
  match r with
  | Seq r1 r2 | Alt r1 r2 => keeps i r1 && keeps i r2
  | Rep r1 _ _ _ => negb (existsb (Nat.eqb i) (groups r1)) && keeps i r1
  | Group _ r1 | Ahead r1 => keeps i r1
  | _ => true
  end.

Definition has (i : nat) (x : mstate) : bool :=
  match get_cap i (caps x) with
  | Some _ => true
  | None => false
  end.

(** What a successful run of [r] from [x] to [y] guarantees. *)
Definition run_ok (i : nat) (r : regex) (x y : mstate) : Prop :=
  idx x + minlen r <= idx y /\
  (keeps i r = true -> has i x || sets i r = true -> has i y = true).

(** A match found by a pattern from position [from] on: where it lies and
    that it captured group [g] when the pattern is sure to. *)
Definition match_ok (g : nat) (re : RegExp) (from : nat) (m : MatchResult) : Prop :=
  from <= index m /\
  index m + minlen (source re) <= endIndex m /\
  (keeps g (source re) = true -> sets g (source re) = true ->
   group g m <> None).

(** A pattern fit for a [while (regex.exec(text))] loop: it is global and
    never matches the empty string. *)
Definition loopable (re : RegExp) : bool :=
  global re && (1 <=? minlen (source re)).

End RegexFacts.

(* ================================================================== *)
(** ** Vocabulary of the properties *)

(** A world to run examples in. *)
Definition sampleWorld : World :=
  {| wallClock := fun n => (1700000000000 + Z.of_nat n)%Z;
     perfClock := fun n => Num.ofNat n;
     randomDraw := fun _ => "k3j9x0q2a";
     observations := 0 |}.

(** What the scenarios of the specification look at in an expense. *)
Definition summary (e : ParsedExpense.t) : Q * string * Category :=
  (ParsedExpense.amount e, ParsedExpense.description e, ParsedExpense.category e).

Definition summaries (r : result (ParsingResult.t * World))
  : option (list (Q * string * Category)) :=
  match r with
  | Ok (p, _) => Some (map summary (ParsingResult.expenses p))
  | Throw _ => None
  end.

Module FuelFacts.
Import Regex.

(** [y] lies ahead of [x] in the same text. *)
Definition reach (x y : mstate) : Prop :=
  idx x <= idx y /\
  idx y + String.length (rest y) = idx x + String.length (rest x).

(** Two continuations that cannot be told apart from [x] on. *)
Definition agree (x : mstate) (k1 k2 : cont) : Prop :=
  forall y, reach x y -> k1 y = k2 y.

(** A matcher that looks at its continuation only ahead of its start, and
    succeeds only through it. *)
Definition natural (m : cont -> cont) : Prop :=
  (forall k1 k2 x, agree x k1 k2 -> m k1 x = m k2 x) /\
  (forall x, m (fun _ => None) x = None).

End FuelFacts.

Module AmountFacts.
Import Regex RegexFacts ExpenseParser.

(** The first element of [raw] found at offset [i]. *)
Definition firstAt (i : nat) (raw : list Candidate.t) : option Candidate.t :=
  find (fun c => Candidate.index c =? i) raw.

Definition offsets (cs : list Candidate.t) : list nat := map Candidate.index cs.

Definition inBounds (c : Candidate.t) : Prop :=
  (0 < Candidate.amount c)%Q /\ (Candidate.amount c < 100000)%Q.

(** What the scan of one pattern collects. *)
Definition scanned (fuel : nat) (text : string) (p : RegExp) (r : list Candidate.t) : Prop :=
  scanPattern fuel p text 0 [] = Ok r.

(** Side conditions of the removal of repeated offsets. *)
Definition keptAfter (before : option Candidate.t) (c : Candidate.t) : Prop :=
  match before with
  | None => True
  | Some b => Candidate.index c <> Candidate.index b
  end.

Definition below (before : option Candidate.t) (l : list Candidate.t) : Prop :=
  match before with
  | None => True
  | Some b => Forall (fun n => Candidate.index b <= n) (offsets l)
  end.

End AmountFacts.

Module ParserFacts.
Import Regex RegexFacts ExpenseParser AmountFacts.

(** What [parseExpenses] builds from one candidate. *)
Definition builtFrom (c : Candidate.t) (e : ParsedExpense.t) : Prop :=
  ParsedExpense.amount e = Candidate.amount c /\
  detectCategory (ParsedExpense.description e) =
    (ParsedExpense.category e, ParsedExpense.confidence e) /\
  ParsedExpense.needsReview e = PrimFloat.ltb (ParsedExpense.confidence e) 0.7.

End ParserFacts.

Module ClassifierFacts.
Import ExpenseParser.

(** The score of a category as the specification words it: the sum of the
    lengths of the keywords of its table that occur in the text. *)
Definition keywordScore (lowerText : string) (keywords : list string) : nat :=
  list_sum (map String.length (filter (JS.includes lowerText) keywords)).

(** The categories other than [other], in table order, with their scores. *)
Definition scoredTable (text : string) : list (Category * nat) :=
  map (fun e => (fst e, keywordScore (JS.toLowerCase text) (snd e)))
      (filter (fun e => negb (Category_eqb (fst e) other)) CATEGORY_KEYWORDS).

(** The largest score a table can give. *)
Definition tableBound (table : list (Category * list string)) : nat :=
  fold_right Nat.max 0 (map (fun e => list_sum (map String.length (snd e))) table).

(** One round of a first-maximum search for scores [sc]. *)
Definition improve {E : Type} (cat : E -> Category) (sc : E -> nat)
  (st : Category * nat) (e : E) : Category * nat :=
  if snd st <? sc e then (cat e, sc e) else st.

Definition nonOther (e : Category * list string) : bool :=
  negb (Category_eqb (fst e) other).

End ClassifierFacts.

Module ReceiptFacts.
Import Regex ReceiptOcr.



Definition yields (values : string -> list Q) (line : string) : bool :=
  0 <? List.length (values line).

(** The total locator as the specification words it, for a given reading
    [values] of "the money values of a piece of text". *)
Definition locateTotal (values : string -> list Q) (text : string) : option Q * float :=
  let lines := linesOf text in
  match find (yields values) (rev (filter isTotalLine lines)) with
  | Some line => (JS.lastElem (values line), 0.85%float)
  | None =>
      match find (yields values) (rev (JS.lastN 10 lines)) with
      | Some line => (JS.lastElem (values line), 0.6%float)
      | None =>
          match values text with
          | [] => (None, 0.4%float)
          | vs => (Math_max vs, 0.55%float)
          end
      end
  end.

(** A confidence within [0, 1]. *)
Definition inUnit (c : float) : Prop :=
  PrimFloat.leb 0 c = true /\ PrimFloat.leb c 1 = true.

(** A receipt to run examples on. *)
Definition nl : string := String "010" EmptyString.

Definition sampleReceipt : string :=
  "CORNER CAFE" ++ nl ++ "Latte 4.50" ++ nl ++ "Bagel 19.00" ++ nl ++
  "TOTAL: $23.50" ++ nl ++ "Thank you" ++ nl ++ "Table 7".


(** The confidence of a category found from the merchant's name. *)
Definition merchantConfidence (score : nat) : float :=
  Num.Math_min 0.9 (0.6 + Num.ofNat score * 0.05)%float.

End ReceiptFacts.

(* ================================================================== *)
(** ** The strings a pattern can consume *)

Module RegexLang.

Import Regex RegexFacts.

Definition flatten (ws : list string) : string := fold_right append EmptyString ws.

(** [lang ic r w]: [w] is a string that [r] can consume, assertions being
    read as the empty string. *)
Fixpoint lang (ic : bool) (r : regex) (w : string) {struct r} : Prop :=
  match r with
  | Chr c =>
      exists a, w = String a EmptyString /\ canon ic a = canon ic c
  | Cls negated items =>
      exists a, w = String a EmptyString /\
                xorb negated (existsb (fun it => in_item ic it a) items) = true
  | Seq r1 r2 =>
      exists w1 w2, w = w1 ++ w2 /\ lang ic r1 w1 /\ lang ic r2 w2
  | Alt r1 r2 => lang ic r1 w \/ lang ic r2 w
  | Rep r1 min max _ =>
      exists ws, w = flatten ws /\ Forall (lang ic r1) ws /\
                 rounds min max <= List.length ws /\
                 (forall m, max = Some m -> List.length ws <= m)
  | Group _ r1 => lang ic r1 w
  | _ => w = EmptyString
  end.

(** Every group [i] of [r] captures a string that satisfies [P]. *)
Fixpoint captures_in (ic : bool) (i : nat) (P : string -> Prop) (r : regex) : Prop :=
  match r with
  | Seq r1 r2 | Alt r1 r2 => captures_in ic i P r1 /\ captures_in ic i P r2
  | Rep r1 _ _ _ | Ahead r1 => captures_in ic i P r1
  | Group j r1 =>
      (j = i -> forall w, lang ic r1 w -> P w) /\ captures_in ic i P r1
  | _ => True
  end.

Definition cap_ok (i : nat) (P : string -> Prop) (x : mstate) : Prop :=
  forall v, In (i, v) (caps x) -> P v.

(** From [x] to [y] the matcher consumed [w]. *)
Definition consumed (x y : mstate) (w : string) : Prop :=
  rest x = w ++ rest y /\ idx y = idx x + String.length w.

(** A match found in [t], whose first character is at offset [from]: where
    it lies, what it consumed and what its group [g] holds. *)
Definition found_in (g : nat) (P : string -> Prop) (re : RegExp) (t : string)
  (from : nat) (m : MatchResult) : Prop :=
  exists before after,
    t = before ++ matched m ++ after /\
    index m = from + String.length before /\
    endIndex m = index m + String.length (matched m) /\
    lang (ignoreCase re) (source re) (matched m) /\
    (forall v, group g m = Some v -> P v).

End RegexLang.

(* ================================================================== *)
(** ** The callers: the preview's edits and the receipt upload *)

(** [Partial<ParsedExpense>]: each key is present with a value or absent. *)
Module Updates.
Record t : Type := {
  id : option string;
  amount : option Q;
  description : option string;
  category : option Category;
  confidence : option float;
  needsReview : option bool;
  date : option JSDate
}.
End Updates.

(** The state updates of the component [ExpensePreview]
    ([src/unnamed/part_004]). *)
Module ExpensePreview.

(** A key of a spread [{ ...exp, ...updates }]. *)
Definition spread {A : Type} (update : option A) (current : A) : A :=
  match update with
  | Some v => v
  | None => current
  end.

(** [{ ...exp, ...updates, needsReview: false }] *)
Definition applyUpdates (exp : ParsedExpense.t) (updates : Updates.t) : ParsedExpense.t :=
  {| ParsedExpense.id := spread (Updates.id updates) (ParsedExpense.id exp);
     ParsedExpense.amount := spread (Updates.amount updates) (ParsedExpense.amount exp);
     ParsedExpense.description :=
       spread (Updates.description updates) (ParsedExpense.description exp);
     ParsedExpense.category := spread (Updates.category updates) (ParsedExpense.category exp);
     ParsedExpense.confidence :=
       spread (Updates.confidence updates) (ParsedExpense.confidence exp);
     ParsedExpense.needsReview := false;
     ParsedExpense.date := spread (Updates.date updates) (ParsedExpense.date exp) |}.

(** The updater passed to [setEditedExpenses] by [handleUpdateExpense]. *)
Definition handleUpdateExpense (id : string) (updates : Updates.t)
  (prev : list ParsedExpense.t) : list ParsedExpense.t :=
  map (fun exp => if String.eqb (ParsedExpense.id exp) id
                  then applyUpdates exp updates else exp) prev.

(** The updater passed to [setEditedExpenses] by [handleRemoveExpense]. *)
Definition handleRemoveExpense (id : string) (prev : list ParsedExpense.t)
  : list ParsedExpense.t :=
  filter (fun exp => negb (String.eqb (ParsedExpense.id exp) id)) prev.

End ExpensePreview.

(** The decision of [handleReceiptUpload] in the component [ExpenseInput]
    ([src/src/components/ExpenseInput.tsx]), from the recognised text on. *)
Module ExpenseInput.

Inductive UploadOutcome : Type :=
| NoTotalFound                                   (* 'Could not find a total...' *)
| ReceiptParsed (expense : ParsedExpense.t) (rawText : string)
                                                 (* onReceiptParsed(expense, ...) *)
| ReadFailed.                                    (* the catch branch *)

(** [expense.amount <= 0] *)
Definition nonPositive (amount : Q) : bool := Qle_bool amount 0.

Definition receiptOutcome (text : string) (w : World) : UploadOutcome :=
  match ReceiptOcr.parseReceiptText text w with
  | Ok ((expense, rawText), _) =>
      if nonPositive (ParsedExpense.amount expense) then NoTotalFound
      else ReceiptParsed expense rawText
  | Throw _ => ReadFailed
  end.

End ExpenseInput.

(* ================================================================== *)
(** ** Vocabulary of the further properties *)

Module TextFacts.

(** Every character of the text is an ASCII character (a code below 128):
    the texts on which [JS.toLowerCase] and [JS.toUpperCase] are the case
    mappings of ECMAScript. *)
Definition asciiText (t : string) : bool :=
  forallb (fun c => JS.code c <? 128) (list_ascii_of_string t).

(** The first character of a string is not a lower-case letter. *)
Definition notLowerFirst (t : string) : Prop :=
  match t with
  | EmptyString => True
  | String c _ => JS.isLower c = false
  end.

End TextFacts.

(** A keyword of the category table matched: the test
    [lowerText.includes(keyword)] of [detectCategory] holds of the
    lower-cased text for some keyword of some row of the table. *)
Module KeywordFacts.
Import ExpenseParser.

Definition keywordMatched (text : string) : bool :=
  existsb (fun e => existsb (JS.includes (JS.toLowerCase text)) (snd e))
          CATEGORY_KEYWORDS.

End KeywordFacts.

(** What [parseExpenses] builds from one candidate, with the description
    it extracts. *)
Module DescriptionFacts.
Import ExpenseParser ParserFacts.

Definition described (trimmedInput : string) (c : Candidate.t) (e : ParsedExpense.t)
  : Prop :=
  builtFrom c e /\
  exists nextAmount,
    extractDescription trimmedInput c nextAmount = Ok (ParsedExpense.description e).

End DescriptionFacts.

Module PreviewFacts.

(** The identifiers of a list of expenses, in order. *)
Definition ids (l : list ParsedExpense.t) : list string := map ParsedExpense.id l.

End PreviewFacts.

(* ================================================================== *)
(** ** Vocabulary: numerals *)

Module NumeralFacts.

Definition allDigits (t : string) : Prop :=
  Forall (fun c => JS.isDigit c = true) (list_ascii_of_string t).

(** A numeral of the amount patterns: digits, then nothing or a dot and
    two digits. *)
Definition isNumeral (n : string) : Prop :=
  exists ds fr,
    n = ds ++ fr /\ allDigits ds /\ 1 <= String.length ds /\
    (fr = EmptyString \/
     exists d2, fr = String "."%char d2 /\ allDigits d2 /\ String.length d2 = 2).

(** A run of one to [n] digits. *)
Definition shortDigits (n : nat) (w : string) : Prop :=
  allDigits w /\ 1 <= String.length w <= n.

(** A whole number of hundredths. *)
Definition wholeCents (a : Q) : Prop := exists cents : Z, (a == cents # 100)%Q.

(** A candidate lies in the text where it says, and its amount is a whole
    number of hundredths. *)
Definition wellPlaced (text : string) (c : Candidate.t) : Prop :=
  JS.substring (Candidate.index c)
    (Candidate.index c + String.length (Candidate.matchText c)) text =
    Candidate.matchText c /\
  1 <= String.length (Candidate.matchText c) /\
  Candidate.index c + String.length (Candidate.matchText c) <= String.length text /\
  wholeCents (Candidate.amount c).

(** A pattern whose first group holds a numeral and that never matches the
    empty string. *)
Definition numeralGroup (re : Regex.RegExp) : Prop :=
  RegexLang.captures_in (Regex.ignoreCase re) 1 isNumeral (Regex.source re) /\
  1 <= RegexFacts.minlen (Regex.source re).

End NumeralFacts.

(* ================================================================== *)
(** ** Vocabulary: patterns that scan by tokens *)

Module ScanFacts.
Import Regex.

(** The test of a character class. *)
Definition classTest (ic negated : bool) (items : list citem) (a : ascii) : bool :=
  xorb negated (existsb (fun it => in_item ic it a) items).

(** The longest prefix of characters that pass [C], and what follows it. *)
Fixpoint spanOf (C : ascii -> bool) (t : string) : string * string :=
  match t with
  | String a t' =>
      if C a then let (run, r) := spanOf C t' in (String a run, r)
      else (EmptyString, t)
  | EmptyString => (EmptyString, EmptyString)
  end.

(** The characters of [t] that pass [C], in order. *)
Fixpoint keep (C : ascii -> bool) (t : string) : string :=
  match t with
  | String a t' => if C a then String a (keep C t') else keep C t'
  | EmptyString => EmptyString
  end.

Definition chars (t : string) : list ascii := list_ascii_of_string t.

(** A pattern whose match at a position depends on the text ahead alone and
    captures nothing: [f t] is the length of its match at the head of [t]. *)
Definition scans (re : RegExp) (f : string -> option nat) : Prop :=
  forall p t i,
    match_here re p t i =
    option_map (fun n => {| index := i; matched := JS.take n t;
                            captures := []; endIndex := i + n |}) (f t).

(** Tokens are never empty and lie within the text. *)
Definition proper (f : string -> option nat) : Prop :=
  forall t n, f t = Some n -> 1 <= n <= String.length t.

(** Tokens made of characters of the class [C]. *)
Definition within (C : ascii -> bool) (f : string -> option nat) : Prop :=
  forall t n, f t = Some n -> Forall (fun a => C a = true) (chars (JS.take n t)).

(** One character of a class, and a run of at least [mn] of them. *)
Definition oneOf (C : ascii -> bool) (t : string) : option nat :=
  match t with
  | String a _ => if C a then Some 1 else None
  | EmptyString => None
  end.

Definition runOf (C : ascii -> bool) (mn : nat) (t : string) : option nat :=
  let n := String.length (fst (spanOf C t)) in
  if mn <=? n then Some n else None.

(** The text with every token replaced, left to right. *)
Fixpoint substitute (f : string -> option nat) (by_ : string) (fuel : nat)
  (t : string) : string :=
  match fuel with
  | 0 => t
  | S fuel' =>
      match t with
      | EmptyString => EmptyString
      | String a t' =>
          match f t with
          | Some n => by_ ++ substitute f by_ fuel' (JS.drop n t)
          | None => String a (substitute f by_ fuel' t')
          end
      end
  end.

End ScanFacts.

Module MerchantFacts.
Import Regex ScanFacts.

(** [[a-zA-Z]] and [[A-Za-z\s&.-]] as tests. *)
Definition isLetter (a : ascii) : bool :=
  classTest false false [Range "a" "z"; Range "A" "Z"] a.

Definition nameChar (a : ascii) : bool :=
  negb (classTest false true
          [Range "A" "Z"; Range "a" "z"; Space; One "&"; One "."; One "-"] a).

(** A merchant name as [findMerchant] returns it. *)
Definition merchantName (name : string) : Prop :=
  (exists a, In a (chars name) /\ isLetter a = true) /\
  Forall (fun a => nameChar a = true) (chars name) /\
  JS.trim name = name.

End MerchantFacts.

Module MoneyFacts.
Import Regex ScanFacts.

(** [[0-9.,]] and [,] as tests. *)
Definition moneyChar (a : ascii) : bool :=
  negb (classTest false true [Range "0" "9"; One "."; One ","] a).

Definition isComma (a : ascii) : bool :=
  Ascii.eqb (canon false a) (canon false ",").

End MoneyFacts.

(* ================================================================== *)
(** ** Vocabulary: the dollar amounts of a text *)

Module DollarFacts.
Import Regex ExpenseParser ScanFacts.

(** The first of the amount patterns, [/\$(\d+(?:\.\d{2})?)/g]. *)
Definition dollar : RegExp := nth 0 AMOUNT_PATTERNS (re Eps false false).

(** The state of the matcher after the longest run of characters of a
    class. *)
Fixpoint skipRun (C : ascii -> bool) (t : string) (p : option ascii) (i : nat)
  (c : list (nat * string)) : mstate :=
  match t with
  | String a t' => if C a then skipRun C t' (Some a) (S i) c else MS p t i c
  | EmptyString => MS p t i c
  end.

(** The length of a fraction [.dd] at the head of [r], or 0. *)
Definition fractionLen (r : string) : nat :=
  match r with
  | String a (String d1 (String d2 _)) =>
      if Ascii.eqb a "." && JS.isDigit d1 && JS.isDigit d2 then 3 else 0
  | _ => 0
  end.

(** The length of the dollar amount at the head of [t]: a dollar sign, the
    longest run of digits, which is not empty, and a fraction if there is
    one. *)
Definition dollarLen (t : string) : option nat :=
  match t with
  | String a t1 =>
      let n := String.length (fst (spanOf JS.isDigit t1)) in
      if Ascii.eqb a "$" && (1 <=? n)
      then Some (1 + n + fractionLen (JS.drop n t1)) else None
  | EmptyString => None
  end.

(** The match of the pattern at offset [i], where [t] lies ahead. *)
Definition dollarMatch (t : string) (i : nat) : option MatchResult :=
  option_map (fun n => {| index := i; matched := JS.take n t;
                          captures := [(1, JS.take (n - 1) (JS.drop 1 t))];
                          endIndex := i + n |}) (dollarLen t).

(** A candidate made from the match found at its offset, [at_] giving the
    match of the pattern at each position. *)
Definition fromMatch (at_ : string -> nat -> option MatchResult) (text : string)
  (c : Candidate.t) : Prop :=
  exists m, at_ (JS.drop (Candidate.index c) text) (Candidate.index c) = Some m /\
            Candidate.matchText c = matched m /\
            Num.parseFloatOpt (group 1 m) = Some (Candidate.amount c).

End DollarFacts.

(* ================================================================== *)
(** ** Vocabulary: the amount-shaped tokens of a text *)

Module TokenFacts.
Import Regex ExpenseParser ScanFacts DollarFacts.












End TokenFacts.

(* ================================================================== *)
(** ** Proofs *)

Module RegexProofs.
Import Regex RegexFacts.

Lemma has_clear i gs x :
  existsb (Nat.eqb i) gs = false -> has i (clear_caps gs x) = has i x.
Proof.
  intros Hi. unfold has, clear_caps. simpl.
  induction (caps x) as [|[j v] c IH]; simpl; auto.
  destruct (Nat.eqb_spec j i) as [->|Hne].
  - simpl. rewrite Hi. simpl. now rewrite Nat.eqb_refl.
  - destruct (existsb (Nat.eqb j) gs); simpl; auto.
    destruct (Nat.eqb_spec j i); [contradiction|auto].
Qed.

Lemma has_set_same i v x : has i (set_cap i v x) = true.
Proof. unfold has, set_cap. simpl. now rewrite Nat.eqb_refl. Qed.

Lemma has_set_other i j v x : j <> i -> has i (set_cap j v x) = has i x.
Proof.
  intros Hne. unfold has, set_cap. simpl.
  destruct (Nat.eqb_spec j i); [contradiction|].
  induction (caps x) as [|[j' v'] c IH]; simpl; auto.
  destruct (Nat.eqb_spec j' j) as [->|Hne']; simpl; auto.
  - destruct (Nat.eqb_spec j i); [contradiction|auto].
  - destruct (Nat.eqb_spec j' i); auto.
Qed.

Lemma rounds_step mn mx :
  mx <> Some 0 -> mn <> 0 ->
  rounds mn mx = S (rounds (pred mn) (option_map pred mx)).
Proof.
  destruct mx as [m|]; simpl; intros; [|lia].
  destruct m; [congruence|]. destruct mn; [congruence|]. simpl. lia.
Qed.

Section Repeat.
Variable i : nat.
Variable m : cont -> cont.
Variable gs : list nat.
Variable greedy : bool.
Variable ml : nat.
Variable kp : bool.
Hypothesis m_ok : forall k x z, m k x = Some z ->
  exists y, k y = Some z /\ idx x + ml <= idx y /\
            (kp = true -> has i x = true -> has i y = true).

Lemma repeat_ok : forall fuel k mn mx x z,
  repeat m gs greedy k fuel mn mx x = Some z ->
  exists y, k y = Some z /\ idx x + rounds mn mx * ml <= idx y /\
    (kp = true -> existsb (Nat.eqb i) gs = false ->
     has i x = true -> has i y = true).
Proof.
  induction fuel as [|fuel IH]; intros k mn mx x z H.
  - simpl in H. destruct mx as [[|mx']|].
    + exists x. simpl. rewrite Nat.min_0_r. simpl. repeat split; auto; lia.
    + destruct (Nat.eqb_spec mn 0); [|discriminate]. subst.
      exists x. simpl. repeat split; auto; lia.
    + destruct (Nat.eqb_spec mn 0); [|discriminate]. subst.
      exists x. simpl. repeat split; auto; lia.
  - assert (Hstep : forall mx', mx' <> Some 0 -> mx = mx' ->
      (if negb (mn =? 0) then
         m (fun y => if (mn =? 0) && (idx y =? idx x) then None
                     else repeat m gs greedy k fuel (pred mn) (option_map pred mx) y)
           (clear_caps gs x)
       else if greedy then
         match m (fun y => if (mn =? 0) && (idx y =? idx x) then None
                     else repeat m gs greedy k fuel (pred mn) (option_map pred mx) y)
                 (clear_caps gs x) with
         | Some z => Some z | None => k x end
       else match k x with
         | Some z => Some z
         | None => m (fun y => if (mn =? 0) && (idx y =? idx x) then None
                     else repeat m gs greedy k fuel (pred mn) (option_map pred mx) y)
                 (clear_caps gs x) end) = Some z ->
      exists y, k y = Some z /\ idx x + rounds mn mx * ml <= idx y /\
        (kp = true -> existsb (Nat.eqb i) gs = false ->
         has i x = true -> has i y = true)).
    { intros mx' Hmx' -> Hrun.
      assert (Hbody : m (fun y => if (mn =? 0) && (idx y =? idx x) then None
                     else repeat m gs greedy k fuel (pred mn) (option_map pred mx') y)
                 (clear_caps gs x) = Some z ->
               exists y, k y = Some z /\ idx x + rounds mn mx' * ml <= idx y /\
        (kp = true -> existsb (Nat.eqb i) gs = false ->
         has i x = true -> has i y = true)).
      { intros Hm. apply m_ok in Hm. destruct Hm as (y1 & Hk & Hidx & Hcap).
        destruct ((mn =? 0) && (idx y1 =? idx x)) eqn:E; [discriminate|].
        apply IH in Hk. destruct Hk as (y & Hky & Hidx2 & Hcap2).
        exists y. split; [exact Hky|]. split.
        - simpl in Hidx. destruct (Nat.eq_dec mn 0) as [->|Hmn].
          + assert (Hr0 : rounds 0 mx' = 0) by (destruct mx'; simpl; auto). rewrite Hr0.
            simpl in *. lia.
          + rewrite (rounds_step mn mx' Hmx' Hmn). simpl. lia.
        - intros Hkp Hgs Hx. apply Hcap2; auto. apply Hcap; auto.
          now rewrite has_clear. }
      destruct (mn =? 0) eqn:Emn; simpl in Hrun.
      - apply Nat.eqb_eq in Emn. subst mn.
        assert (Hzero : k x = Some z ->
           exists y, k y = Some z /\ idx x + rounds 0 mx' * ml <= idx y /\
        (kp = true -> existsb (Nat.eqb i) gs = false ->
         has i x = true -> has i y = true)).
        { intros Hk. exists x. split; auto.
          assert (Hr0 : rounds 0 mx' = 0) by (destruct mx'; simpl; auto). rewrite Hr0.
          split; [simpl; lia|auto]. }
        destruct greedy.
        + destruct (m _ (clear_caps gs x)) eqn:Em.
          * injection Hrun as ->. apply Hbody. reflexivity.
          * auto.
        + destruct (k x) eqn:Ek.
          * injection Hrun as ->. apply Hzero. reflexivity.
          * apply Hbody. exact Hrun.
      - apply Hbody. exact Hrun. }
    simpl in H. destruct mx as [[|mx']|].
    + exists x. simpl. rewrite Nat.min_0_r. simpl. repeat split; auto; lia.
    + eapply Hstep; [|reflexivity|exact H]. discriminate.
    + eapply Hstep; [|reflexivity|exact H]. discriminate.
Qed.
End Repeat.

Lemma rmatch_ok i ic : forall r k x z,
  rmatch ic r k x = Some z -> exists y, k y = Some z /\ run_ok i r x y.
Proof.
  unfold run_ok.
  induction r as [ |c|neg items|r1 IH1 r2 IH2|r1 IH1 r2 IH2|r1 IH1 mn mx g
                 |j r1 IH1|r1 IH1| | | ]; intros k x z H; simpl in H.
  - exists x. simpl. split; auto. split; [lia|]. rewrite orb_false_r. auto.
  - destruct (rest x) as [|a t] eqn:Er; [discriminate|].
    destruct (Ascii.eqb _ _); [|discriminate].
    exists (advance a t x). simpl. split; auto. split; [lia|].
    rewrite orb_false_r. auto.
  - destruct (rest x) as [|a t] eqn:Er; [discriminate|].
    destruct (xorb _ _); [|discriminate].
    exists (advance a t x). simpl. split; auto. split; [lia|].
    rewrite orb_false_r. auto.
  - apply IH1 in H. destruct H as (y1 & H & Hi1 & Hc1).
    apply IH2 in H. destruct H as (y & H & Hi2 & Hc2).
    exists y. split; auto. simpl. split; [lia|].
    intros Hk Hs. apply andb_true_iff in Hk. destruct Hk as [Hk1 Hk2].
    apply Hc2; auto.
    destruct (sets i r2); [now rewrite orb_true_r|]. rewrite orb_false_r.
    apply Hc1; auto. now rewrite orb_false_r in Hs.
  - destruct (rmatch ic r1 k x) eqn:E1.
    + injection H as ->. apply IH1 in E1. destruct E1 as (y & H & Hi & Hc).
      exists y. split; auto. simpl. split; [lia|].
      intros Hk Hs. apply andb_true_iff in Hk. destruct Hk as [Hk1 Hk2].
      apply Hc; auto. destruct (has i x); simpl in *; auto.
      apply andb_true_iff in Hs. tauto.
    + apply IH2 in H. destruct H as (y & H & Hi & Hc).
      exists y. split; auto. simpl. split; [lia|].
      intros Hk Hs. apply andb_true_iff in Hk. destruct Hk as [Hk1 Hk2].
      apply Hc; auto. destruct (has i x); simpl in *; auto.
      apply andb_true_iff in Hs. tauto.
  - apply (repeat_ok i (rmatch ic r1) (groups r1) g (minlen r1) (keeps i r1)) in H.
    + destruct H as (y & H & Hi & Hc). exists y. split; auto. simpl.
      split; [lia|]. intros Hk Hs. apply andb_true_iff in Hk.
      destruct Hk as [Hk1 Hk2]. rewrite orb_false_r in Hs.
      apply Hc; auto. now apply negb_true_iff in Hk1.
    + intros k' x' z' H'. apply IH1 in H'. destruct H' as (y & H' & Hi & Hc).
      exists y. split; auto. split; auto. intros Hk Hx. apply Hc; auto.
      now rewrite Hx.
  - apply IH1 in H. destruct H as (y1 & H & Hi & Hc).
    eexists. split; [exact H|]. simpl. split; [lia|].
    intros Hk Hs. destruct (Nat.eqb_spec j i) as [->|Hne].
    + apply has_set_same.
    + rewrite has_set_other by auto. apply Hc; auto.
  - destruct (rmatch ic r1 Some x) as [y1|] eqn:E1; [|discriminate].
    apply IH1 in E1. destruct E1 as (y' & E & Hi & Hc). injection E as ->.
    eexists. split; [exact H|]. simpl. split; [lia|].
    intros Hk Hs. rewrite orb_false_r in Hs. unfold has, with_caps. simpl.
    apply Hc; auto. now rewrite Hs.
  - destruct (xorb _ _); [|discriminate]. exists x. simpl. split; auto.
    split; [lia|]. rewrite orb_false_r. auto.
  - destruct (idx x =? 0); [|discriminate]. exists x. simpl. split; auto.
    split; [lia|]. rewrite orb_false_r. auto.
  - destruct (rest x); [|discriminate]. exists x. simpl. split; auto.
    split; [lia|]. rewrite orb_false_r. auto.
Qed.

Lemma match_here_ok g re p t i m :
  match_here re p t i = Some m -> index m = i /\ match_ok g re i m.
Proof.
  unfold match_here, match_ok.
  destruct (rmatch _ _ _ _) as [y|] eqn:E; [|discriminate].
  intros H. injection H as <-. simpl.
  apply (rmatch_ok g) in E. destruct E as (y' & E & Hi & Hc).
  injection E as ->. simpl in Hi. repeat split; auto.
  intros Hk Hs. assert (Hy : has g y = true).
  { apply Hc; auto. }
  unfold has in Hy. unfold group. simpl.
  destruct (get_cap g (caps y)); [discriminate|discriminate].
Qed.

Lemma search_ok g re : forall t p i m,
  search re p t i = Some m -> match_ok g re i m.
Proof.
  induction t as [|a t IH]; intros p i m H; simpl in H.
  - destruct (match_here re p "" i) eqn:E; [|discriminate].
    injection H as ->. apply (match_here_ok g) in E. tauto.
  - destruct (match_here re p (String a t) i) eqn:E.
    + injection H as ->. apply (match_here_ok g) in E. tauto.
    + apply IH in H. unfold match_ok in *. intuition lia.
Qed.

Lemma exec_from_ok g re : forall lastIndex t p i m,
  exec_from re p t i lastIndex = Some m -> match_ok g re (i + lastIndex) m.
Proof.
  induction lastIndex as [|n IH]; intros t p i m H; simpl in H.
  - rewrite Nat.add_0_r. exact (search_ok g re t p i m H).
  - destruct t as [|a t]; [discriminate|].
    apply IH in H. replace (i + S n) with (S i + n) by lia. exact H.
Qed.

Lemma exec_from_beyond re : forall lastIndex t p i,
  String.length t < lastIndex -> exec_from re p t i lastIndex = None.
Proof.
  induction lastIndex as [|n IH]; intros t p i H; [lia|].
  destruct t as [|a t]; simpl; auto. apply IH. simpl in H. lia.
Qed.

(** [exec] on a loopable pattern moves [lastIndex] forward. *)
Lemma exec_advances re text lastIndex m lastIndex' :
  loopable re = true ->
  exec re text lastIndex = (Some m, lastIndex') ->
  lastIndex <= index m /\ lastIndex < lastIndex' /\ lastIndex <= String.length text.
Proof.
  unfold loopable, exec. intros Hl H. apply andb_true_iff in Hl.
  destruct Hl as [Hg Hm]. rewrite Hg in H. apply Nat.leb_le in Hm.
  destruct (exec_from re None text 0 lastIndex) as [m'|] eqn:E; [|discriminate].
  injection H as -> <-.
  assert (Hin : lastIndex <= String.length text).
  { destruct (le_lt_dec lastIndex (String.length text)); auto.
    rewrite exec_from_beyond in E by auto. discriminate. }
  apply (exec_from_ok 0) in E. destruct E as (Hi & He & _). simpl in Hi. lia.
Qed.

End RegexProofs.

Module FuelProofs.
Import Regex RegexFacts RegexProofs FuelFacts.

Lemma reach_refl x : reach x x.
Proof. unfold reach. lia. Qed.

Lemma reach_trans x y z : reach x y -> reach y z -> reach x z.
Proof. unfold reach. lia. Qed.

Lemma reach_clear gs x y : reach (clear_caps gs x) y <-> reach x y.
Proof. unfold reach. simpl. tauto. Qed.

Lemma agree_ahead x y k1 k2 : reach x y -> agree x k1 k2 -> agree y k1 k2.
Proof. intros Hxy H z Hz. apply H. eapply reach_trans; eauto. Qed.

Section RepeatFuel.
Variable m : cont -> cont.
Variable gs : list nat.
Variable greedy : bool.
Hypothesis m_natural : natural m.

Lemma repeat_agree : forall fuel k1 k2 mn mx x,
  agree x k1 k2 ->
  repeat m gs greedy k1 fuel mn mx x = repeat m gs greedy k2 fuel mn mx x.
Proof.
  destruct m_natural as [Hcongr _].
  induction fuel as [|fuel IH]; intros k1 k2 mn mx x Hk.
  - simpl. rewrite (Hk x (reach_refl x)). reflexivity.
  - simpl. rewrite (Hk x (reach_refl x)).
    assert (Hm : m (fun y => if (mn =? 0) && (idx y =? idx x) then None
                  else repeat m gs greedy k1 fuel (pred mn) (option_map pred mx) y)
                   (clear_caps gs x) =
                 m (fun y => if (mn =? 0) && (idx y =? idx x) then None
                  else repeat m gs greedy k2 fuel (pred mn) (option_map pred mx) y)
                   (clear_caps gs x)).
    { apply Hcongr. intros y Hy. apply reach_clear in Hy.
      destruct ((mn =? 0) && (idx y =? idx x)); auto.
      apply IH. eapply agree_ahead; eauto. }
    rewrite Hm. reflexivity.
Qed.

(** With nothing left to consume and no compulsory round left, a
    repetition can only stop. *)
Lemma repeat_exhausted k fuel mx x :
  String.length (rest x) = 0 ->
  repeat m gs greedy k fuel 0 mx x = k x.
Proof.
  destruct m_natural as [Hcongr Hfail]. intros Hx.
  destruct fuel as [|fuel]; simpl.
  - destruct mx as [[|n]|]; reflexivity.
  - assert (Hm : m (fun y => if idx y =? idx x then None
                   else repeat m gs greedy k fuel 0 (option_map pred mx) y)
                   (clear_caps gs x) = None).
    { rewrite <- (Hfail (clear_caps gs x)). apply Hcongr.
      intros y Hy. apply reach_clear in Hy. destruct Hy as [Hle Hsum].
      destruct (Nat.eqb_spec (idx y) (idx x)); auto. lia. }
    rewrite Hm. destruct mx as [[|n]|]; auto; destruct greedy; auto;
      destruct (k x); auto.
Qed.

(** Fuel beyond [min + length (rest x)] changes nothing. *)
Lemma repeat_fuel k : forall fuel1 fuel2 mn mx x,
  mn + String.length (rest x) <= fuel1 ->
  mn + String.length (rest x) <= fuel2 ->
  repeat m gs greedy k fuel1 mn mx x = repeat m gs greedy k fuel2 mn mx x.
Proof.
  destruct m_natural as [Hcongr _].
  induction fuel1 as [|fuel1 IH]; intros fuel2 mn mx x H1 H2.
  - assert (mn = 0) by lia. subst mn.
    rewrite !repeat_exhausted by lia. reflexivity.
  - destruct fuel2 as [|fuel2].
    + assert (mn = 0) by lia. subst mn.
      rewrite !repeat_exhausted by lia. reflexivity.
    + simpl.
      assert (Hm : m (fun y => if (mn =? 0) && (idx y =? idx x) then None
                    else repeat m gs greedy k fuel1 (pred mn) (option_map pred mx) y)
                     (clear_caps gs x) =
                   m (fun y => if (mn =? 0) && (idx y =? idx x) then None
                    else repeat m gs greedy k fuel2 (pred mn) (option_map pred mx) y)
                     (clear_caps gs x)).
      { apply Hcongr. intros y Hy. apply reach_clear in Hy.
        destruct Hy as [Hle Hsum].
        destruct (Nat.eqb_spec mn 0) as [->|Hmn]; simpl.
        - destruct (Nat.eqb_spec (idx y) (idx x)); auto. apply IH; simpl; lia.
        - apply IH; lia. }
      rewrite Hm. reflexivity.
Qed.

End RepeatFuel.

Lemma rmatch_natural ic : forall r, natural (rmatch ic r).
Proof.
  intros r. split.
  - induction r as [ |c|neg items|r1 IH1 r2 IH2|r1 IH1 r2 IH2|r1 IH1 mn mx g
                   |j r1 IH1|r1 IH1| | | ]; intros k1 k2 x Hk; simpl.
    + apply Hk, reach_refl.
    + destruct (rest x) as [|a t] eqn:Er; auto.
      destruct (Ascii.eqb _ _); auto. apply Hk.
      unfold reach. simpl. rewrite Er. simpl. lia.
    + destruct (rest x) as [|a t] eqn:Er; auto.
      destruct (xorb _ _); auto. apply Hk.
      unfold reach. simpl. rewrite Er. simpl. lia.
    + apply IH1. intros y Hy. apply IH2. eapply agree_ahead; eauto.
    + rewrite (IH1 k1 k2 x Hk), (IH2 k1 k2 x Hk). reflexivity.
    + apply repeat_agree; auto. split; [exact IH1|].
      intros x'. destruct (rmatch ic r1 (fun _ => None) x') eqn:E; auto.
      apply (rmatch_ok 0) in E. destruct E as (y & E & _). discriminate.
    + apply IH1. intros y Hy. apply Hk. unfold reach in *. simpl. exact Hy.
    + destruct (rmatch ic r1 Some x); auto. apply Hk. unfold reach. simpl. lia.
    + destruct (xorb _ _); auto. apply Hk, reach_refl.
    + destruct (idx x =? 0); auto. apply Hk, reach_refl.
    + destruct (rest x); auto. apply Hk, reach_refl.
  - intros x. destruct (rmatch ic r (fun _ => None) x) eqn:E; auto.
    apply (rmatch_ok 0) in E. destruct E as (y & E & _). discriminate.
Qed.

(** The fuel of a repetition inside [rmatch] is never the limit. *)
Lemma rmatch_fuel ic r mn mx greedy k x fuel :
  mn + String.length (rest x) <= fuel ->
  repeat (rmatch ic r) (groups r) greedy k fuel mn mx x =
  rmatch ic (Rep r mn mx greedy) k x.
Proof.
  intros H. simpl. apply repeat_fuel; auto. apply rmatch_natural.
Qed.

(** Nor are the rounds of [matchAll]. *)
Lemma all_from_fuel re text : forall fuel1 fuel2 lastIndex,
  S (String.length text) <= fuel1 + lastIndex ->
  S (String.length text) <= fuel2 + lastIndex ->
  all_from fuel1 re text lastIndex = all_from fuel2 re text lastIndex.
Proof.
  assert (Hend : forall fuel lastIndex, String.length text < lastIndex ->
                   all_from fuel re text lastIndex = []).
  { intros [|fuel] lastIndex H; simpl; auto.
    now rewrite exec_from_beyond. }
  induction fuel1 as [|fuel1 IH]; intros fuel2 lastIndex H1 H2.
  - rewrite !Hend by lia. reflexivity.
  - destruct fuel2 as [|fuel2]; [rewrite !Hend by lia; reflexivity|].
    simpl. destruct (exec_from re None text 0 lastIndex) as [m|] eqn:E; auto.
    apply (exec_from_ok 0) in E. destruct E as (Hi & He & _). simpl in Hi.
    f_equal. apply IH; destruct (Nat.eqb_spec (endIndex m) (index m)); lia.
Qed.

End FuelProofs.

Module AmountProofs.
Import Regex RegexFacts RegexProofs ExpenseParser AmountFacts.
Local Open Scope list_scope.

Lemma Qltb_lt a b : Num.Qltb a b = true <-> (a < b)%Q.
Proof. unfold Num.Qltb, Qlt. apply Z.ltb_lt. Qed.

Lemma sane_inBounds v : sane (Some v) = true -> (0 < v)%Q /\ (v < 100000)%Q.
Proof.
  unfold sane. simpl. intros H. apply andb_true_iff in H.
  destruct H as [H1 H2]. split; now apply Qltb_lt.
Qed.

(** The accumulator of the scan is only ever extended. *)
Lemma scanPattern_acc re text : forall fuel lastIndex acc,
  scanPattern fuel re text lastIndex acc =
  rbind (scanPattern fuel re text lastIndex []) (fun new => Ok (acc ++ new)).
Proof.
  induction fuel as [|fuel IH]; intros lastIndex acc; simpl; auto.
  destruct (exec re text lastIndex) as [[m|] lastIndex'].
  - destruct (Num.parseFloatOpt (group 1 m)) as [v|] eqn:Ev.
    + destruct (sane (Some v)).
      * rewrite (IH lastIndex' (acc ++ _)), (IH lastIndex' [_]).
        destruct (scanPattern fuel re text lastIndex' []); simpl; auto.
        now rewrite <- app_assoc.
      * apply IH.
    + apply IH.
  - simpl. now rewrite app_nil_r.
Qed.

(** The scan of a loopable pattern ends, and what it collects passed the
    sanity check. *)
Lemma scanPattern_ends re text : loopable re = true ->
  forall fuel lastIndex acc,
  1 <= fuel -> String.length text + 2 <= fuel + lastIndex ->
  exists new, scanPattern fuel re text lastIndex acc = Ok (acc ++ new) /\
              Forall inBounds new.
Proof.
  intros Hl. induction fuel as [|fuel IH]; intros lastIndex acc Hf Hlen; [lia|].
  simpl. destruct (exec re text lastIndex) as [[m|] lastIndex'] eqn:E.
  - apply exec_advances in E; auto. destruct E as (_ & Hadv & Hin).
    assert (Hf' : 1 <= fuel) by lia.
    assert (Hlen' : String.length text + 2 <= fuel + lastIndex') by lia.
    destruct (Num.parseFloatOpt (group 1 m)) as [v|] eqn:Ev.
    + destruct (sane (Some v)) eqn:Es.
      * destruct (IH lastIndex' (acc ++ [{| Candidate.amount := v;
                    Candidate.index := index m;
                    Candidate.matchText := matched m |}]) Hf' Hlen')
          as (new & Hn & Hb).
        eexists. rewrite Hn, <- app_assoc. split; [reflexivity|].
        constructor; auto. apply sane_inBounds in Es. exact Es.
      * apply IH; auto.
    + apply IH; auto.
  - exists []. rewrite app_nil_r. auto.
Qed.

Lemma scanPattern_none re text fuel lastIndex acc :
  1 <= fuel -> fst (exec re text lastIndex) = None ->
  scanPattern fuel re text lastIndex acc = Ok acc.
Proof.
  intros Hf H. destruct fuel; [lia|]. simpl.
  destruct (exec re text lastIndex) as [[m|] l]; simpl in H; [discriminate|auto].
Qed.

Lemma scanPatterns_concat text fuel :
  String.length text + 2 <= fuel ->
  forall patterns acc, forallb loopable patterns = true ->
  exists raws, Forall2 (scanned fuel text) patterns raws /\
    scanPatterns fuel patterns text acc = Ok (acc ++ List.concat raws) /\
    Forall inBounds (List.concat raws).
Proof.
  intros Hf. induction patterns as [|p ps IH]; intros acc Hl; simpl in *.
  - exists []. simpl. rewrite app_nil_r. repeat split; constructor.
  - apply andb_true_iff in Hl. destruct Hl as [Hp Hps].
    destruct (scanPattern_ends p text Hp fuel 0 []) as (r & Hr & Hb); try lia.
    simpl in Hr. rewrite scanPattern_acc, Hr. simpl.
    destruct (IH (acc ++ r) Hps) as (raws & Hall & Hrest & Hbs).
    exists (r :: raws). simpl. rewrite Hrest, <- app_assoc.
    split; [constructor; auto|]. split; [reflexivity|].
    apply Forall_app. auto.
Qed.

Lemma scanPatterns_none text fuel : 1 <= fuel ->
  forall patterns acc,
  (forall p, In p patterns -> fst (exec p text 0) = None) ->
  scanPatterns fuel patterns text acc = Ok acc.
Proof.
  intros Hf. induction patterns as [|p ps IH]; intros acc H; simpl; auto.
  rewrite scanPattern_none; simpl; auto.
  - apply IH. intros q Hq. apply H. now right.
  - apply H. now left.
Qed.

(** More fuel does not change what a scan returns. *)
Lemma scanPattern_more_fuel re text : forall fuel lastIndex acc r,
  scanPattern fuel re text lastIndex acc = Ok r ->
  forall fuel', fuel <= fuel' -> scanPattern fuel' re text lastIndex acc = Ok r.
Proof.
  induction fuel as [|fuel IH]; intros lastIndex acc r H fuel' Hle;
    [discriminate|].
  destruct fuel' as [|fuel']; [lia|]. simpl in *.
  destruct (exec re text lastIndex) as [[m|] lastIndex']; auto.
  eapply IH; eauto. lia.
Qed.

Lemma scanPatterns_more_fuel text fuel fuel' : fuel <= fuel' ->
  forall patterns acc r,
  scanPatterns fuel patterns text acc = Ok r ->
  scanPatterns fuel' patterns text acc = Ok r.
Proof.
  intros Hle. induction patterns as [|p ps IH]; intros acc r H; simpl in *; auto.
  destruct (scanPattern fuel p text 0 acc) as [r1|] eqn:E; [|discriminate].
  rewrite (scanPattern_more_fuel p text fuel 0 acc r1 E fuel' Hle). simpl in *.
  now apply IH.
Qed.

(** The fuel of [extractAmounts] is never the limit. *)
Lemma extractAmountsWith_fuel text fuel :
  String.length text + 2 <= fuel ->
  extractAmountsWith fuel text = extractAmounts text.
Proof.
  intros Hle. unfold extractAmounts, extractAmountsWith.
  destruct (scanPatterns_concat text (String.length text + 2) (le_n _)
              AMOUNT_PATTERNS [] eq_refl) as (raws & _ & Hscan & _).
  rewrite (scanPatterns_more_fuel text _ fuel Hle _ _ _ Hscan), Hscan.
  reflexivity.
Qed.

(** *** Sorting by offset and dropping repeated offsets *)

Lemma insertByIndex_In x c : forall l,
  In c (insertByIndex x l) <-> c = x \/ In c l.
Proof.
  induction l as [|y l IH]; simpl.
  - intuition.
  - destruct (Candidate.index x <=? Candidate.index y); simpl; [intuition|].
    rewrite IH. intuition.
Qed.

Lemma sortByIndex_In c : forall l, In c (sortByIndex l) <-> In c l.
Proof.
  induction l as [|x l IH]; simpl; [tauto|].
  unfold sortByIndex in *. simpl. rewrite insertByIndex_In, IH. intuition.
Qed.

Lemma insertByIndex_sorted x : forall l,
  StronglySorted le (offsets l) -> StronglySorted le (offsets (insertByIndex x l)).
Proof.
  induction l as [|y l IH]; simpl; intros H.
  - repeat constructor.
  - inversion H as [|? ? Hs Hall]; subst.
    destruct (Nat.leb_spec (Candidate.index x) (Candidate.index y)); simpl.
    + constructor; auto. constructor; [lia|].
      eapply Forall_impl; [|exact Hall]. simpl. intros; lia.
    + constructor; auto. apply Forall_forall. intros n Hn.
      apply in_map_iff in Hn. destruct Hn as (c & <- & Hc).
      apply insertByIndex_In in Hc. destruct Hc as [->|Hc]; [lia|].
      rewrite Forall_forall in Hall. apply Hall. apply in_map. exact Hc.
Qed.

Lemma sortByIndex_sorted : forall l, StronglySorted le (offsets (sortByIndex l)).
Proof.
  induction l as [|x l IH]; simpl; [constructor|].
  apply insertByIndex_sorted. exact IH.
Qed.

(** The sort is stable: the first candidate at each offset stays the first. *)
Lemma firstAt_insert i x : forall l,
  firstAt i (insertByIndex x l) = firstAt i (x :: l).
Proof.
  unfold firstAt. induction l as [|y l IH]; simpl; auto.
  destruct (Nat.leb_spec (Candidate.index x) (Candidate.index y)); simpl; auto.
  rewrite IH. simpl.
  destruct (Nat.eqb_spec (Candidate.index y) i), (Nat.eqb_spec (Candidate.index x) i);
    auto; lia.
Qed.

Lemma firstAt_sort i : forall l, firstAt i (sortByIndex l) = firstAt i l.
Proof.
  induction l as [|x l IH]; simpl; auto.
  unfold sortByIndex in *. simpl. rewrite firstAt_insert. simpl.
  unfold firstAt in *. simpl. now rewrite IH.
Qed.

Lemma firstAt_In i c l : firstAt i l = Some c -> In c l /\ Candidate.index c = i.
Proof.
  unfold firstAt. intros H. apply find_some in H.
  destruct H as [H1 H2]. apply Nat.eqb_eq in H2. auto.
Qed.

Lemma dropRepeated_In c : forall l before,
  StronglySorted le (offsets l) -> below before l ->
  (In c (dropRepeated before l) <->
   keptAfter before c /\ firstAt (Candidate.index c) l = Some c).
Proof.
  induction l as [|item l IH]; intros before Hs Hb; simpl.
  - unfold firstAt. simpl. intuition discriminate.
  - inversion Hs as [|? ? Hs' Hall]; subst.
    assert (Hb' : below (Some item) l) by exact Hall.
    rewrite in_app_iff, (IH (Some item) Hs' Hb'). simpl.
    unfold firstAt at 2. simpl. fold (firstAt (Candidate.index c) l).
    destruct (Nat.eqb_spec (Candidate.index item) (Candidate.index c)) as [E|E].
    + split.
      * intros [H|[H _]]; [|congruence].
        destruct before as [b|]; simpl in *.
        -- destruct (Nat.eqb_spec (Candidate.index item) (Candidate.index b));
             simpl in H; [tauto|]. destruct H as [<-|[]]. auto.
        -- destruct H as [<-|[]]. auto.
      * intros [Hk H]. injection H as ->. left.
        destruct before as [b|]; simpl in *; auto.
        destruct (Nat.eqb_spec (Candidate.index c) (Candidate.index b));
          simpl; [contradiction|auto].
    + split.
      * intros [H|[H1 H2]].
        -- destruct before as [b|]; simpl in *.
           ++ destruct (negb _); simpl in H; [|tauto].
              destruct H as [<-|[]]. congruence.
           ++ destruct H as [<-|[]]. congruence.
        -- split; auto. destruct before as [b|]; simpl in *; auto.
           apply firstAt_In in H2. destruct H2 as [Hin _].
           inversion Hb as [|? ? Hbi Hbl]; subst.
           rewrite Forall_forall in Hall.
           assert (Candidate.index item <= Candidate.index c).
           { apply Hall. apply in_map. exact Hin. }
           lia.
      * intros [Hk H]. right. split; auto.
Qed.

Lemma dropRepeated_sorted : forall l before,
  StronglySorted le (offsets l) -> below before l ->
  StronglySorted lt (offsets (dropRepeated before l)) /\
  match before with
  | None => True
  | Some b => Forall (fun c => Candidate.index b < Candidate.index c)
                     (dropRepeated before l)
  end.
Proof.
  induction l as [|item l IH]; intros before Hs Hb; simpl.
  - split; [constructor|]. destruct before; auto.
  - inversion Hs as [|? ? Hs' Hall]; subst.
    destruct (IH (Some item) Hs' Hall) as [IHs IHb].
    assert (Hitem : StronglySorted lt (offsets (item :: dropRepeated (Some item) l))).
    { simpl. constructor; auto. apply Forall_forall. intros n Hn.
      apply in_map_iff in Hn. destruct Hn as (c & <- & Hc).
      rewrite Forall_forall in IHb. now apply IHb. }
    destruct before as [b|]; simpl.
    + inversion Hb as [|? ? Hbi Hbl]; subst.
      assert (Hrest : Forall (fun c => Candidate.index b < Candidate.index c)
                (dropRepeated (Some item) l)).
      { eapply Forall_impl; [|exact IHb]. simpl. intros; lia. }
      destruct (Nat.eqb_spec (Candidate.index item) (Candidate.index b)); simpl.
      * split; auto.
      * split; auto. constructor; auto. lia.
    + split; auto.
Qed.

End AmountProofs.

Module ParserProofs.
Import Regex RegexFacts RegexProofs ExpenseParser AmountFacts AmountProofs ParserFacts.
Local Open Scope list_scope.

Lemma StronglySorted_lt_NoDup : forall l, StronglySorted lt l -> NoDup l.
Proof.
  induction l as [|n l IH]; intros H; [constructor|].
  inversion H as [|? ? Hs Hall]; subst. constructor; auto.
  intros Hin. rewrite Forall_forall in Hall. apply Hall in Hin. lia.
Qed.

Lemma exec_at_start re text :
  Regex.search re None text 0 = None -> fst (exec re text 0) = None.
Proof.
  unfold exec. simpl. intros ->. destruct (global re); reflexivity.
Qed.

(** The whole of what [extractAmounts] does, for every text. *)
Lemma extractAmounts_run (text : string) :
  exists raws cs,
    Forall2 (scanned (String.length text + 2) text) AMOUNT_PATTERNS raws /\
    extractAmounts text = Ok cs /\
    StronglySorted lt (offsets cs) /\
    (forall c, In c cs <-> firstAt (Candidate.index c) (List.concat raws) = Some c) /\
    Forall inBounds cs /\
    ((forall p, In p AMOUNT_PATTERNS -> Regex.search p None text 0 = None) -> cs = []).
Proof.
  destruct (scanPatterns_concat text (String.length text + 2) (le_n _)
              AMOUNT_PATTERNS [] eq_refl) as (raws & Hall & Hscan & Hb).
  change ([] ++ List.concat raws) with (List.concat raws) in Hscan.
  exists raws, (dropRepeated None (sortByIndex (List.concat raws))).
  assert (Hin : forall c, In c (dropRepeated None (sortByIndex (List.concat raws))) <->
                          firstAt (Candidate.index c) (List.concat raws) = Some c).
  { intros c. rewrite dropRepeated_In; simpl; auto using sortByIndex_sorted.
    rewrite firstAt_sort. tauto. }
  split; [exact Hall|]. split.
  { unfold extractAmounts, extractAmountsWith. rewrite Hscan. reflexivity. }
  split.
  { apply (dropRepeated_sorted _ None); simpl; auto using sortByIndex_sorted. }
  split; [exact Hin|]. split.
  - apply Forall_forall. intros c Hc. apply Hin in Hc.
    apply firstAt_In in Hc. destruct Hc as [Hc _].
    rewrite Forall_forall in Hb. now apply Hb.
  - intros Hnone.
    assert (Hs : scanPatterns (String.length text + 2) AMOUNT_PATTERNS text [] = Ok []).
    { apply scanPatterns_none; [lia|]. intros p Hp. apply exec_at_start. auto. }
    rewrite Hscan in Hs. injection Hs as ->. reflexivity.
Qed.

(** *** [split] never returns the empty array on a pattern that does not
    match the empty string *)

Lemma split_from_nonempty re text : forall t pv q p,
  split_from re text pv t q p <> [].
Proof.
  induction t as [|a t IH]; intros pv q p; simpl; [discriminate|].
  destruct (q <? p); auto.
  destruct (match_here re pv (String a t) q); auto.
  destruct (endIndex m =? p); auto. discriminate.
Qed.

Lemma split_nonempty re text :
  match_here re None "" 0 = None -> split re text <> [].
Proof.
  intros H. unfold split. destruct text; [rewrite H; discriminate|].
  apply split_from_nonempty.
Qed.

Lemma lastElem_some {A : Type} (l : list A) : l <> [] -> exists a, JS.lastElem l = Some a.
Proof.
  intros H. unfold JS.lastElem.
  destruct (nth_error l (List.length l - 1)) eqn:E; eauto.
  apply nth_error_None in E. destruct l; [congruence|]. simpl in E. lia.
Qed.

Lemma match1_group1 re text m :
  keeps 1 (source re) = true -> sets 1 (source re) = true ->
  match1 re text = Some m -> exists g1, group 1 m = Some g1.
Proof.
  intros Hk Hs H. apply (search_ok 1) in H. destruct H as (_ & _ & H).
  specialize (H Hk Hs). destruct (group 1 m); [eauto|congruence].
Qed.

(** [extractDescription] never throws. *)
Lemma extractDescription_total text amount nextAmount :
  exists description, extractDescription text amount nextAmount = Ok description.
Proof.
  unfold extractDescription.
  set (before := JS.substring 0 _ text).
  destruct (lastElem_some (split delimiters before)) as (lastPart & Hlast).
  { apply split_nonempty. reflexivity. }
  rewrite Hlast. simpl.
  destruct (match1 afterPattern _) as [m|] eqn:Em.
  - destruct (match1_group1 afterPattern _ m eq_refl eq_refl Em) as (g1 & Hg).
    rewrite Hg. simpl. destruct (negb (JS.isEmpty (JS.trim g1))); simpl; eauto.
  - simpl. eauto.
Qed.

Lemma mapM_from_ok {A B : Type} (f : A -> nat -> M B) (P : A -> B -> Prop) :
  (forall a i w, exists b w', f a i w = Ok (b, w') /\ P a b) ->
  forall l i w, exists bs w', mapM_from f i l w = Ok (bs, w') /\ Forall2 P l bs.
Proof.
  intros Hf. induction l as [|a l IH]; intros i w; simpl.
  - exists [], w. split; [reflexivity|constructor].
  - unfold bind. destruct (Hf a i w) as (b & w1 & Hb & HP). rewrite Hb.
    destruct (IH (S i) w1) as (bs & w2 & Hbs & HPs). rewrite Hbs.
    exists (b :: bs), w2. split; [reflexivity|]. constructor; auto.
Qed.

Lemma buildExpense_ok trimmedInput amounts amountInfo index w :
  exists e w', buildExpense trimmedInput amounts amountInfo index w = Ok (e, w') /\
               builtFrom amountInfo e.
Proof.
  unfold buildExpense, bind, lift.
  destruct (extractDescription_total trimmedInput amountInfo
              (nth_error amounts (index + 1))) as (description & Hd).
  rewrite Hd. destruct (detectCategory description) as [category confidence] eqn:Ec.
  simpl. eexists. eexists. split; [reflexivity|].
  unfold builtFrom. simpl. auto.
Qed.

(** The whole of what [parseExpenses] does, for every input and world. *)
Lemma parseExpenses_run input w :
  exists r w' cs,
    parseExpenses input w = Ok (r, w') /\
    extractAmounts (JS.trim input) = Ok cs /\
    ParsingResult.rawInput r = input /\
    ((JS.trim input = "" \/ cs = []) /\
       ParsingResult.success r = false /\ ParsingResult.expenses r = []
     \/
     (JS.trim input <> "" /\ cs <> []) /\
       ParsingResult.success r = true /\
       Forall2 builtFrom cs (ParsingResult.expenses r)).
Proof.
  destruct (extractAmounts_run (JS.trim input)) as (raws & cs & _ & Hcs & _).
  unfold parseExpenses, bind, performance_now, failed, lift, ret. simpl.
  destruct (JS.trim input) as [|ch t] eqn:Et; simpl.
  - eexists. eexists. exists cs. split; [reflexivity|]. simpl.
    split; [exact Hcs|]. split; auto.
  - rewrite Hcs. destruct cs as [|c cs]; simpl.
    + eexists. eexists. exists []. split; [reflexivity|]. simpl. auto 10.
    + destruct (mapM_from_ok (buildExpense (String ch t) (c :: cs)) builtFrom
                  (buildExpense_ok (String ch t) (c :: cs)) (c :: cs) 0 (tick w))
        as (es & w1 & Hes & Hbuilt).
      unfold mapM. rewrite Hes.
      eexists. eexists. exists (c :: cs). split; [reflexivity|]. simpl.
      split; auto. split; auto. right. repeat split; auto; discriminate.
Qed.

End ParserProofs.

Module ClassifierProofs.
Import ExpenseParser ClassifierFacts.
Local Open Scope list_scope.

Section FirstMaximum.
Context {E : Type} (cat : E -> Category) (sc : E -> nat).

Lemma fold_improve : forall l b h,
  (fold_left (improve cat sc) l (b, h) = (b, h) /\ Forall (fun e => sc e <= h) l) \/
  (exists pre e post,
     l = pre ++ e :: post /\
     fold_left (improve cat sc) l (b, h) = (cat e, sc e) /\
     h < sc e /\
     Forall (fun e' => sc e' < sc e) pre /\
     Forall (fun e' => sc e' <= sc e) post).
Proof.
  induction l as [|e l IH]; intros b h; simpl.
  - left. split; auto.
  - assert (Hstep : improve cat sc (b, h) e =
                    if h <? sc e then (cat e, sc e) else (b, h)) by reflexivity.
    rewrite !Hstep.
    destruct (Nat.ltb_spec h (sc e)) as [Hlt|Hge].
    + right. destruct (IH (cat e) (sc e)) as [[Heq Hall]|(pre & e2 & post & -> & Heq & Hlt2 & Hpre & Hpost)].
      * exists [], e, l. simpl. repeat split; auto.
      * exists (e :: pre), e2, post. simpl. repeat split; auto; try lia.
    + destruct (IH b h) as [[Heq Hall]|(pre & e2 & post & -> & Heq & Hlt2 & Hpre & Hpost)].
      * left. split; auto.
      * right. exists (e :: pre), e2, post. simpl. repeat split; auto; try lia.
        constructor; auto; lia.
Qed.
End FirstMaximum.

Lemma scoreOf_from lowerText : forall keywords a,
  fold_left (fun score keyword =>
               if JS.includes lowerText keyword then score + String.length keyword
               else score) keywords a = a + keywordScore lowerText keywords.
Proof.
  unfold keywordScore.
  induction keywords as [|k ks IH]; intros a; simpl; [lia|].
  rewrite IH. destruct (JS.includes lowerText k); simpl; lia.
Qed.

Lemma scoreOf_keywordScore lowerText keywords :
  scoreOf lowerText keywords = keywordScore lowerText keywords.
Proof. unfold scoreOf. now rewrite scoreOf_from. Qed.

Lemma keywordScore_range lowerText keywords n :
  Forall (fun k => n <= String.length k) keywords ->
  (keywordScore lowerText keywords = 0 \/ n <= keywordScore lowerText keywords) /\
  keywordScore lowerText keywords <= list_sum (map String.length keywords).
Proof.
  unfold keywordScore. induction 1 as [|k ks Hk Hks IH]; simpl.
  - split; auto.
  - destruct IH as [IH1 IH2]. destruct (JS.includes lowerText k); simpl; split; lia.
Qed.

Lemma considerCategory_improve lowerText st e :
  nonOther e = true ->
  considerCategory lowerText st e =
  improve fst (fun e => keywordScore lowerText (snd e)) st e.
Proof.
  unfold nonOther, considerCategory, improve. destruct e as [c kws]. simpl.
  intros H. apply negb_true_iff in H. rewrite H.
  now rewrite scoreOf_keywordScore.
Qed.

Lemma fold_consider_filter lowerText : forall l st,
  fold_left (considerCategory lowerText) l st =
  fold_left (improve fst (fun e => keywordScore lowerText (snd e))) (filter nonOther l) st.
Proof.
  induction l as [|e l IH]; intros st; simpl; auto.
  destruct (nonOther e) eqn:En; simpl.
  - rewrite <- considerCategory_improve by auto. apply IH.
  - rewrite <- IH. f_equal. unfold nonOther in En. apply negb_false_iff in En.
    unfold considerCategory. destruct e. simpl in *. now rewrite En.
Qed.

(** [detectCategory] finds the first maximum of the keyword scores. *)
Lemma detectCategory_first_max text :
  let score := fun e : Category * list string =>
                 keywordScore (JS.toLowerCase text) (snd e) in
  let table := filter nonOther CATEGORY_KEYWORDS in
  (detectCategory text = (other, 0.4%float) /\
   Forall (fun e => score e = 0) table) \/
  (exists pre e post,
     table = pre ++ e :: post /\
     detectCategory text = (fst e, confidenceOf (score e)) /\
     0 < score e /\
     Forall (fun e' => score e' < score e) pre /\
     Forall (fun e' => score e' <= score e) post).
Proof.
  intros score table. unfold detectCategory.
  rewrite fold_consider_filter. fold table. fold score.
  destruct (fold_improve fst score table other 0)
    as [[Heq Hall]|(pre & e & post & Htab & Heq & Hlt & Hpre & Hpost)];
    rewrite Heq.
  - left. split; [reflexivity|].
    eapply Forall_impl; [|exact Hall]. simpl. intros; lia.
  - right. exists pre, e, post. auto.
Qed.

Lemma confidenceOf_positive h : 0 < h ->
  confidenceOf h = Num.Math_min 0.95 (0.6 + Num.ofNat h * 0.05)%float.
Proof.
  intros H. unfold confidenceOf. destruct (Nat.ltb_spec 0 h); [reflexivity|lia].
Qed.

(** The scores [detectCategory] can end with: none, or between the shortest
    keyword and the largest sum of a table row. *)
Lemma detectCategory_score text :
  exists c h, detectCategory text = (c, confidenceOf h) /\
    ((h = 0 /\ c = other) \/
     (3 <= h <= tableBound CATEGORY_KEYWORDS /\ c <> other)).
Proof.
  destruct (detectCategory_first_max text)
    as [[Heq _]|(pre & e & post & Htab & Heq & Hpos & _)].
  - exists other, 0. split; [exact Heq|]. left. auto.
  - exists (fst e), (keywordScore (JS.toLowerCase text) (snd e)).
    split; [exact Heq|]. right.
    assert (Hin : In e (filter nonOther CATEGORY_KEYWORDS)).
    { rewrite Htab. apply in_elt. }
    assert (Hall : Forall (fun e => Forall (fun k => 3 <= String.length k) (snd e) /\
                                    list_sum (map String.length (snd e)) <=
                                      tableBound CATEGORY_KEYWORDS /\
                                    fst e <> other)
                          (filter nonOther CATEGORY_KEYWORDS)).
    { vm_compute. repeat constructor; discriminate. }
    rewrite Forall_forall in Hall. destruct (Hall e Hin) as (Hlen & Hsum & Hne).
    destruct (keywordScore_range (JS.toLowerCase text) (snd e) 3 Hlen) as [[H0|H3] Hle].
    + lia.
    + repeat split; auto. lia.
Qed.

(** The confidences of the scores that can occur, by evaluation of the
    binary64 arithmetic on each of them. *)
Lemma confidenceOf_values h : 3 <= h <= tableBound CATEGORY_KEYWORDS ->
  PrimFloat.leb 0.75 (confidenceOf h) = true /\
  PrimFloat.leb (confidenceOf h) 0.95 = true /\
  PrimFloat.ltb (confidenceOf h) 0.7 = false /\
  PrimFloat.leb 0 (confidenceOf h) = true /\
  PrimFloat.leb (confidenceOf h) 1 = true.
Proof.
  intros Hh.
  assert (Hall : forallb (fun h => PrimFloat.leb 0.75 (confidenceOf h) &&
                                   PrimFloat.leb (confidenceOf h) 0.95 &&
                                   negb (PrimFloat.ltb (confidenceOf h) 0.7) &&
                                   PrimFloat.leb 0 (confidenceOf h) &&
                                   PrimFloat.leb (confidenceOf h) 1)
                         (seq 3 (tableBound CATEGORY_KEYWORDS - 2)) = true)
    by (vm_compute; reflexivity).
  rewrite forallb_forall in Hall. specialize (Hall h).
  assert (Hin : In h (seq 3 (tableBound CATEGORY_KEYWORDS - 2))).
  { apply in_seq. lia. }
  apply Hall in Hin. repeat (apply andb_true_iff in Hin; destruct Hin as [Hin ?]).
  repeat split; auto. now apply negb_true_iff.
Qed.

Lemma detectCategory_inUnit text :
  PrimFloat.leb 0 (snd (detectCategory text)) = true /\
  PrimFloat.leb (snd (detectCategory text)) 1 = true.
Proof.
  destruct (detectCategory_score text) as (c & h & -> & [[-> _]|[Hh _]]); simpl.
  - split; reflexivity.
  - apply confidenceOf_values in Hh. tauto.
Qed.

End ClassifierProofs.

Module ReceiptProofs.
Import Regex RegexFacts RegexProofs ExpenseParser ParserFacts ParserProofs.
Import ClassifierFacts ClassifierProofs ReceiptOcr ReceiptFacts.
Local Open Scope list_scope.

Lemma firstn_succ {A : Type} (l : list A) i a :
  nth_error l i = Some a -> firstn (S i) l = firstn i l ++ [a].
Proof.
  revert i. induction l as [|x l IH]; intros [|i] H; simpl in *; try discriminate.
  - now injection H as ->.
  - f_equal. now apply IH.
Qed.

(** The descending loop is a search from the end. *)
Lemma scanUp_find {A : Type} (lineOf : A -> string) (arr : list A) confidence :
  forall n, n <= List.length arr ->
  scanUp lineOf arr n confidence =
  Ok (option_map (fun e => (JS.lastElem (extractMoneyValues (lineOf e)), confidence))
        (find (fun e => yields extractMoneyValues (lineOf e)) (rev (firstn n arr)))).
Proof.
  induction n as [|i IH]; intros Hn; [reflexivity|].
  cbn [scanUp]. destruct (nth_error arr i) as [entry|] eqn:E.
  - rewrite (firstn_succ arr i entry E), rev_app_distr.
    cbn [rbind deref rev app find]. unfold yields at 1.
    destruct (0 <? List.length (extractMoneyValues (lineOf entry))); auto.
    apply IH. lia.
  - apply nth_error_None in E. lia.
Qed.

Lemma find_map {A B : Type} (f : A -> B) (p : B -> bool) : forall l,
  find p (map f l) = option_map f (find (fun a => p (f a)) l).
Proof.
  induction l as [|a l IH]; simpl; auto. destruct (p (f a)); auto.
Qed.

Lemma indexed_fst : forall lines i, map fst (indexed i lines) = lines.
Proof.
  induction lines as [|l ls IH]; intros i; simpl; auto. now rewrite IH.
Qed.

Lemma filter_map_fst {B : Type} (p : string -> bool) : forall (l : list (string * B)),
  map fst (filter (fun e => p (fst e)) l) = filter p (map fst l).
Proof.
  induction l as [|e l IH]; simpl; auto.
  destruct (p (fst e)); simpl; now rewrite IH.
Qed.

(** [findTotalAmount] never throws and is the locator of the specification
    read over the positive money values. *)
Lemma findTotalAmount_locate text :
  findTotalAmount text = Ok (locateTotal extractMoneyValues text).
Proof.
  unfold findTotalAmount, locateTotal.
  set (lines := linesOf text).
  set (prioritized := filter (fun e => isTotalLine (fst e)) (indexed 0 lines)).
  assert (Hp : filter isTotalLine lines = map fst prioritized).
  { unfold prioritized. now rewrite filter_map_fst, indexed_fst. }
  rewrite Hp, <- map_rev, find_map.
  rewrite scanUp_find by auto. rewrite firstn_all. simpl.
  destruct (find _ (rev prioritized)) as [e|]; simpl; auto.
  rewrite scanUp_find by auto. rewrite firstn_all. simpl.
  destruct (find _ (rev (JS.lastN 10 lines))) as [l|]; simpl; auto.
  destruct (extractMoneyValues text); reflexivity.
Qed.

(** *** The amounts the locator returns are positive *)

Lemma positiveNumbers_pos : forall l, Forall (fun v => 0 < v)%Q (positiveNumbers l).
Proof.
  induction l as [|[v|] l IH]; simpl; auto.
  destruct (Num.Qltb 0 v) eqn:E; auto. constructor; auto.
  unfold Num.Qltb in E. unfold Qlt. now apply Z.ltb_lt.
Qed.

Lemma extractMoneyValues_pos text : Forall (fun v => 0 < v)%Q (extractMoneyValues text).
Proof. apply positiveNumbers_pos. Qed.

Lemma lastElem_In {A : Type} (l : list A) a : JS.lastElem l = Some a -> In a l.
Proof. unfold JS.lastElem. apply nth_error_In. Qed.

Lemma Qmaxb_fold : forall vs a,
  In (fold_left Qmaxb vs a) (a :: vs) /\
  (a <= fold_left Qmaxb vs a)%Q /\
  Forall (fun x => x <= fold_left Qmaxb vs a)%Q vs.
Proof.
  induction vs as [|v vs IH]; intros a; simpl.
  - split; auto. split; [apply Qle_refl|constructor].
  - destruct (IH (Qmaxb a v)) as (Hin & Hle & Hall).
    assert (Ha : (a <= Qmaxb a v)%Q /\ (v <= Qmaxb a v)%Q).
    { unfold Qmaxb, Num.Qltb. destruct (Z.ltb_spec (Qnum a * QDen v) (Qnum v * QDen a)).
      - split; [apply Qlt_le_weak; exact H|apply Qle_refl].
      - split; [apply Qle_refl|exact H]. }
    destruct Ha as [Ha Hv]. split.
    + destruct Hin as [Hin|Hin]; [|simpl; auto].
      rewrite <- Hin. unfold Qmaxb. destruct (Num.Qltb a v); simpl; auto.
    + split; [eapply Qle_trans; eauto|].
      constructor; auto. eapply Qle_trans; eauto.
Qed.

(** [Math.max] returns an element that bounds all the others. *)
Lemma Math_max_greatest vs v : Math_max vs = Some v ->
  In v vs /\ Forall (fun x => x <= v)%Q vs.
Proof.
  destruct vs as [|a vs]; simpl; [discriminate|]. intros H. injection H as <-.
  destruct (Qmaxb_fold vs a) as (Hin & Hle & Hall). split; auto.
Qed.

Lemma locateTotal_positive text :
  match fst (locateTotal extractMoneyValues text) with
  | Some a => (0 < a)%Q
  | None => True
  end.
Proof.
  assert (Hlast : forall line, match JS.lastElem (extractMoneyValues line) with
                               | Some a => (0 < a)%Q | None => True end).
  { intros line. destruct (JS.lastElem _) as [a|] eqn:E; auto.
    apply lastElem_In in E. pose proof (extractMoneyValues_pos line) as H.
    rewrite Forall_forall in H. auto. }
  unfold locateTotal.
  destruct (find _ (rev (filter isTotalLine _))) as [line|]; simpl; [apply Hlast|].
  destruct (find _ (rev (JS.lastN 10 _))) as [line|]; simpl; [apply Hlast|].
  destruct (extractMoneyValues text) as [|v vs] eqn:E; simpl; auto.
  destruct (Qmaxb_fold vs v) as (Hin & _).
  pose proof (extractMoneyValues_pos text) as H. rewrite E, Forall_forall in H.
  auto.
Qed.

Lemma locateTotal_confidence values text :
  In (snd (locateTotal values text)) [0.85; 0.6; 0.55; 0.4]%float.
Proof.
  unfold locateTotal.
  destruct (find _ (rev (filter isTotalLine _))); simpl; auto.
  destruct (find _ (rev (JS.lastN 10 _))); simpl; auto.
  destruct (values text); simpl; auto.
Qed.

(** *** The other locators never throw *)

Lemma insertByScore_nonempty x l : insertByScore x l <> [].
Proof. destruct l; simpl; [discriminate|]. destruct (_ <=? _); discriminate. Qed.

Lemma findMerchant_total text : exists merchant, findMerchant text = Ok merchant.
Proof.
  unfold findMerchant.
  set (candidates := filter _ (filter _ (filter _ _))).
  destruct candidates as [|c cs]; [simpl; eauto|].
  change (List.length (c :: cs) =? 0) with false. cbv iota.
  destruct (sortByScore (map merchantScore (c :: cs))) as [|first rest] eqn:E.
  - unfold sortByScore in E. simpl in E. now apply insertByScore_nonempty in E.
  - simpl. eauto.
Qed.

Lemma findReceiptDate_total text : exists date, findReceiptDate text = Ok date.
Proof.
  unfold findReceiptDate.
  destruct (tryYmd _); [eauto|]. destruct (tryMdy _); [eauto|].
  unfold tryMonthName.
  destruct (match1 monthNamePattern _) as [m|] eqn:Em; [|eauto].
  destruct (match1_group1 monthNamePattern _ m eq_refl eq_refl Em) as (g1 & Hg).
  rewrite Hg. cbn [rbind deref]. destruct (findIndex _ MONTH_NAMES 0); eauto.
Qed.

(** *** Confidence of the merchant-based category *)

Lemma considerHints_improve lower st e :
  considerHints lower st e =
  improve fst (fun e => keywordScore lower (snd e)) st e.
Proof.
  unfold considerHints, improve. destruct e as [c hints]. simpl.
  now rewrite scoreOf_keywordScore.
Qed.

Lemma fold_hints lower : forall l st,
  fold_left (considerHints lower) l st =
  fold_left (improve fst (fun e => keywordScore lower (snd e))) l st.
Proof.
  induction l as [|e l IH]; intros st; simpl; auto.
  now rewrite considerHints_improve, IH.
Qed.

Lemma merchantConfidence_inUnit score :
  score <= tableBound MERCHANT_CATEGORY_HINTS -> inUnit (merchantConfidence score).
Proof.
  intros Hs.
  assert (Hall : forallb (fun n => PrimFloat.leb 0 (merchantConfidence n) &&
                                   PrimFloat.leb (merchantConfidence n) 1)
                         (seq 0 (S (tableBound MERCHANT_CATEGORY_HINTS))) = true)
    by (vm_compute; reflexivity).
  rewrite forallb_forall in Hall. specialize (Hall score).
  assert (Hin : In score (seq 0 (S (tableBound MERCHANT_CATEGORY_HINTS)))).
  { apply in_seq. lia. }
  apply Hall in Hin. apply andb_true_iff in Hin. exact Hin.
Qed.

Lemma pickCategoryFromMerchant_inUnit merchant :
  inUnit (snd (pickCategoryFromMerchant merchant)).
Proof.
  unfold pickCategoryFromMerchant.
  destruct merchant as [m|]; [|split; reflexivity].
  destruct (JS.isEmpty m); [split; reflexivity|].
  rewrite fold_hints.
  destruct (fold_improve fst (fun e => keywordScore (JS.toLowerCase m) (snd e))
              MERCHANT_CATEGORY_HINTS other 0)
    as [[Heq _]|(pre & e & post & Htab & Heq & _)]; rewrite Heq.
  - simpl. apply detectCategory_inUnit.
  - destruct (negb (Category_eqb (fst e) other)); simpl.
    + apply merchantConfidence_inUnit.
      assert (Hin : In e MERCHANT_CATEGORY_HINTS) by (rewrite Htab; apply in_elt).
      assert (Hall : Forall (fun e => list_sum (map String.length (snd e)) <=
                                      tableBound MERCHANT_CATEGORY_HINTS)
                            MERCHANT_CATEGORY_HINTS).
      { vm_compute. repeat constructor. }
      rewrite Forall_forall in Hall. specialize (Hall e Hin).
      destruct (keywordScore_range (JS.toLowerCase m) (snd e) 0) as [_ Hle].
      { apply Forall_forall. intros; lia. }
      lia.
    + apply detectCategory_inUnit.
Qed.

(** The whole of what the receipt assembly does, for every text and world. *)
Lemma parseReceiptText_run text w :
  exists e w',
    parseReceiptText text w = Ok ((e, text), w') /\
    ParsedExpense.needsReview e = true /\
    inUnit (ParsedExpense.confidence e).
Proof.
  unfold parseReceiptText, bind, lift.
  destruct (parseExpenses_run text w) as (r & w1 & cs & Hr & _ & _ & Hcases).
  rewrite Hr. rewrite findTotalAmount_locate.
  destruct (locateTotal extractMoneyValues text) as [keywordAmount amountConfidence] eqn:Et.
  destruct (findMerchant_total text) as (merchant & Hm). rewrite Hm.
  destruct (findReceiptDate_total text) as (found & Hd). rewrite Hd.
  assert (Hconf : inUnit
            (if negb (Category_eqb (fst (pickCategoryFromMerchant merchant)) other)
             then snd (pickCategoryFromMerchant merchant)
             else coalesce (option_map ParsedExpense.confidence
                              (nth_error (ParsingResult.expenses r) 0))
                           amountConfidence)).
  { destruct (negb _); [apply pickCategoryFromMerchant_inUnit|].
    destruct (ParsingResult.expenses r) as [|e0 es] eqn:Ees; simpl.
    - pose proof (locateTotal_confidence extractMoneyValues text) as Hc.
      rewrite Et in Hc. simpl in Hc.
      destruct Hc as [<-|[<-|[<-|[<-|[]]]]]; split; reflexivity.
    - destruct Hcases as [(_ & _ & He)|(_ & _ & Hb)]; [discriminate|].
      inversion Hb as [|c e' cs' es' (_ & Hdet & _) Hrest]; subst.
      pose proof (detectCategory_inUnit (ParsedExpense.description e0)) as Hu.
      rewrite Hdet in Hu. exact Hu. }
  destruct found as [dt|]; simpl; eexists; eexists; (split; [reflexivity|]);
    simpl; auto.
Qed.

End ReceiptProofs.

(* ================================================================== *)
(** ** Further proofs: strings *)

Module TextProofs.
Import TextFacts.

Lemma upperChar_not_lower c : JS.isLower (JS.upperChar c) = false.
Proof.
  destruct c as [[] [] [] [] [] [] [] []]; reflexivity.
Qed.

Lemma lowerChar_upperChar c : JS.lowerChar (JS.upperChar c) = JS.lowerChar c.
Proof.
  destruct c as [[] [] [] [] [] [] [] []]; reflexivity.
Qed.

Lemma lowerChar_idem c : JS.lowerChar (JS.lowerChar c) = JS.lowerChar c.
Proof.
  destruct c as [[] [] [] [] [] [] [] []]; reflexivity.
Qed.

Lemma upperChar_space c : JS.isSpace (JS.upperChar c) = JS.isSpace c.
Proof.
  destruct c as [[] [] [] [] [] [] [] []]; reflexivity.
Qed.

Lemma toLowerCase_toUpperCase t : JS.toLowerCase (JS.toUpperCase t) = JS.toLowerCase t.
Proof.
  induction t as [|c t IH]; simpl; auto. now rewrite lowerChar_upperChar, IH.
Qed.

Lemma toLowerCase_idem t : JS.toLowerCase (JS.toLowerCase t) = JS.toLowerCase t.
Proof.
  induction t as [|c t IH]; simpl; auto. now rewrite lowerChar_idem, IH.
Qed.

Lemma toLowerCase_app a b :
  JS.toLowerCase (a ++ b) = JS.toLowerCase a ++ JS.toLowerCase b.
Proof. induction a as [|c a IH]; simpl; auto. now rewrite IH. Qed.

Lemma length_app (a b : string) :
  String.length (a ++ b) = String.length a + String.length b.
Proof. induction a as [|c a IH]; simpl; auto. Qed.

Lemma app_empty_r (a : string) : a ++ "" = a.
Proof. induction a as [|c a IH]; simpl; auto. now rewrite IH. Qed.

Lemma app_assoc_s (a b c : string) : (a ++ b) ++ c = a ++ (b ++ c).
Proof. induction a as [|x a IH]; simpl; auto. now rewrite IH. Qed.

(** *** [trim] *)

Lemma trimStart_head s :
  match JS.trimStart s with
  | EmptyString => True
  | String c _ => JS.isSpace c = false
  end.
Proof.
  induction s as [|c s IH]; simpl; auto.
  destruct (JS.isSpace c) eqn:E; simpl; auto.
Qed.

Lemma trimEnd_head c t :
  JS.isSpace c = false -> exists t', JS.trimEnd (String c t) = String c t'.
Proof.
  intros H. simpl. destruct (JS.trimEnd t); rewrite ?H; eauto.
Qed.

Lemma trimEnd_idem s : JS.trimEnd (JS.trimEnd s) = JS.trimEnd s.
Proof.
  induction s as [|c s IH]; simpl; auto.
  destruct (JS.trimEnd s) as [|c' s'] eqn:E.
  - destruct (JS.isSpace c) eqn:Ec; simpl; auto. now rewrite Ec.
  - simpl in *. change (JS.trimEnd (String c (String c' s')) = String c (String c' s')).
    simpl. simpl in IH. rewrite IH. reflexivity.
Qed.

Lemma trimStart_fixed s :
  match s with
  | EmptyString => True
  | String c _ => JS.isSpace c = false
  end -> JS.trimStart s = s.
Proof. destruct s as [|c s]; simpl; auto. now intros ->. Qed.

(** What [trim] returns has no white space at either end. *)
Lemma trim_head s :
  match JS.trim s with
  | EmptyString => True
  | String c _ => JS.isSpace c = false
  end.
Proof.
  unfold JS.trim. pose proof (trimStart_head s) as H.
  destruct (JS.trimStart s) as [|c t]; simpl; auto.
  destruct (trimEnd_head c t H) as (t' & E). simpl in E. rewrite E. exact H.
Qed.

Lemma trim_idem s : JS.trim (JS.trim s) = JS.trim s.
Proof.
  unfold JS.trim at 1. rewrite (trimStart_fixed (JS.trim s) (trim_head s)).
  unfold JS.trim. apply trimEnd_idem.
Qed.

Lemma trimEnd_fixed_upper c t :
  JS.trimEnd (String c t) = String c t ->
  JS.trimEnd (String (JS.upperChar c) t) = String (JS.upperChar c) t.
Proof.
  simpl. destruct (JS.trimEnd t) as [|c' t'] eqn:E.
  - rewrite upperChar_space. destruct (JS.isSpace c); [discriminate|].
    intros H. injection H as <-. reflexivity.
  - intros H. injection H as <-. reflexivity.
Qed.

Lemma length_toUpperCase t : String.length (JS.toUpperCase t) = String.length t.
Proof. induction t as [|c t IH]; simpl; auto. Qed.

(** [s.charAt(0).toUpperCase() + s.slice(1)]: the same length, the first
    character upper-cased, the rest untouched. *)
Lemma capitalize_shape s :
  JS.toUpperCase (JS.charAt0 s) ++ JS.drop 1 s =
  match s with
  | EmptyString => EmptyString
  | String c t => String (JS.upperChar c) t
  end.
Proof. destruct s as [|c t]; reflexivity. Qed.

End TextProofs.

(* ================================================================== *)
(** ** Further proofs: what a match consumed *)

Module RegexSound.
Import Regex RegexFacts RegexProofs RegexLang TextProofs.

Lemma take_app_length w t : JS.take (String.length w) (w ++ t) = w.
Proof. induction w as [|c w IH]; simpl; [now destruct t|]. now rewrite IH. Qed.

Lemma drop_app_length w t : JS.drop (String.length w) (w ++ t) = t.
Proof. induction w as [|c w IH]; simpl; auto. Qed.

Lemma consumed_refl x : consumed x x "".
Proof. unfold consumed. simpl. split; auto. Qed.

Lemma consumed_trans x y z w1 w2 :
  consumed x y w1 -> consumed y z w2 -> consumed x z (w1 ++ w2).
Proof.
  unfold consumed. intros [H1 H2] [H3 H4].
  rewrite H1, H3, app_assoc_s, length_app. split; auto. lia.
Qed.

Lemma cap_ok_clear i P gs x : cap_ok i P x -> cap_ok i P (clear_caps gs x).
Proof.
  unfold cap_ok, clear_caps. simpl. intros H v Hv.
  apply filter_In in Hv. apply H. tauto.
Qed.

Lemma cap_ok_set i P j v x :
  (j = i -> P v) -> cap_ok i P x -> cap_ok i P (set_cap j v x).
Proof.
  unfold cap_ok, set_cap. simpl. intros Hv H u [Hu|Hu].
  - injection Hu as -> ->. auto.
  - apply filter_In in Hu. apply H. tauto.
Qed.

Lemma get_cap_In i c v : get_cap i c = Some v -> In (i, v) c.
Proof.
  induction c as [|[j u] c IH]; simpl; [discriminate|].
  destruct (Nat.eqb_spec j i) as [->|Hne]; intros H.
  - injection H as ->. now left.
  - right. auto.
Qed.

Section RepeatSound.
Variable i : nat.
Variable P : string -> Prop.
Variable L : string -> Prop.
Variable m : cont -> cont.
Variable gs : list nat.
Variable greedy : bool.
Hypothesis m_sound : forall k x z, m k x = Some z ->
  exists y w, k y = Some z /\ consumed x y w /\ L w /\
              (cap_ok i P x -> cap_ok i P y).

Lemma repeat_sound : forall fuel k mn mx x z,
  repeat m gs greedy k fuel mn mx x = Some z ->
  exists y ws, k y = Some z /\ consumed x y (flatten ws) /\ Forall L ws /\
    rounds mn mx <= List.length ws /\
    (forall n, mx = Some n -> List.length ws <= n) /\
    (cap_ok i P x -> cap_ok i P y).
Proof.
  assert (Hstop : forall (k : cont) mn mx x z, k x = Some z ->
            (rounds mn mx = 0) ->
            exists y ws, k y = Some z /\ consumed x y (flatten ws) /\ Forall L ws /\
              rounds mn mx <= List.length ws /\
              (forall n, mx = Some n -> List.length ws <= n) /\
              (cap_ok i P x -> cap_ok i P y)).
  { intros k mn mx x z Hk Hr. exists x, []. simpl. rewrite Hr.
    split; [exact Hk|]. split; [apply consumed_refl|]. split; [constructor|].
    split; [lia|]. split; [intros; lia|auto]. }
  induction fuel as [|fuel IH]; intros k mn mx x z H.
  - simpl in H. destruct mx as [[|n]|].
    + apply Hstop; auto. simpl. lia.
    + destruct (Nat.eqb_spec mn 0); [subst|discriminate]. apply Hstop; auto.
    + destruct (Nat.eqb_spec mn 0); [subst|discriminate]. apply Hstop; auto.
  - assert (Hround : mx <> Some 0 ->
              m (fun y => if (mn =? 0) && (idx y =? idx x) then None
                          else repeat m gs greedy k fuel (pred mn) (option_map pred mx) y)
                (clear_caps gs x) = Some z ->
              exists y ws, k y = Some z /\ consumed x y (flatten ws) /\ Forall L ws /\
                rounds mn mx <= List.length ws /\
                (forall n, mx = Some n -> List.length ws <= n) /\
                (cap_ok i P x -> cap_ok i P y)).
    { intros Hmx Hm. apply m_sound in Hm.
      destruct Hm as (y1 & w1 & Hk & Hc1 & HL1 & Hcap1).
      destruct ((mn =? 0) && (idx y1 =? idx x)); [discriminate|].
      apply IH in Hk. destruct Hk as (y & ws & Hk & Hc & HLs & Hlo & Hhi & Hcap).
      exists y, (w1 :: ws). split; [exact Hk|]. split.
      { exact (consumed_trans (clear_caps gs x) y1 y w1 (flatten ws) Hc1 Hc). }
      split; [constructor; auto|]. split.
      { simpl. destruct (Nat.eq_dec mn 0) as [->|Hmn].
        - assert (rounds 0 mx = 0) by (destruct mx; reflexivity). lia.
        - rewrite (rounds_step mn mx Hmx Hmn). lia. }
      split.
      { intros n ->. simpl. specialize (Hhi (pred n) eq_refl).
        destruct n; [congruence|]. simpl in Hhi. lia. }
      intros Hx. apply Hcap, Hcap1, cap_ok_clear, Hx. }
    simpl in H. destruct mx as [[|n]|].
    + apply Hstop; auto. simpl. lia.
    + destruct (mn =? 0) eqn:Emn; simpl in H.
      * apply Nat.eqb_eq in Emn. subst mn. destruct greedy.
        -- destruct (m _ (clear_caps gs x)) eqn:Em.
           ++ injection H as ->. apply Hround; auto; discriminate.
           ++ apply Hstop; auto.
        -- destruct (k x) eqn:Ek.
           ++ injection H as ->. apply Hstop; auto.
           ++ apply Hround; auto; discriminate.
      * apply Hround; auto; discriminate.
    + destruct (mn =? 0) eqn:Emn; simpl in H.
      * apply Nat.eqb_eq in Emn. subst mn. destruct greedy.
        -- destruct (m _ (clear_caps gs x)) eqn:Em.
           ++ injection H as ->. apply Hround; auto; discriminate.
           ++ apply Hstop; auto.
        -- destruct (k x) eqn:Ek.
           ++ injection H as ->. apply Hstop; auto.
           ++ apply Hround; auto; discriminate.
      * apply Hround; auto; discriminate.
Qed.
End RepeatSound.

(** What the matcher hands to its continuation was consumed from the text,
    belongs to the language of the pattern, and left in group [i] only
    strings that the bodies of that group can consume. *)
Lemma rmatch_sound ic i P : forall r, captures_in ic i P r ->
  forall k x z, rmatch ic r k x = Some z ->
  exists y w, k y = Some z /\ consumed x y w /\ lang ic r w /\
              (cap_ok i P x -> cap_ok i P y).
Proof.
  induction r as [ |c|neg items|r1 IH1 r2 IH2|r1 IH1 r2 IH2|r1 IH1 mn mx g
                 |j r1 IH1|r1 IH1| | | ]; intros Hcap k x z H; simpl in H.
  - exists x, "". split; auto. split; [apply consumed_refl|]. simpl. auto.
  - destruct (rest x) as [|a t] eqn:Er; [discriminate|].
    destruct (Ascii.eqb_spec (canon ic a) (canon ic c)) as [E|E]; [|discriminate].
    exists (advance a t x), (String a ""). split; auto. split.
    { unfold consumed. simpl. rewrite Er. split; auto. lia. }
    split; [simpl; eauto|auto].
  - destruct (rest x) as [|a t] eqn:Er; [discriminate|].
    destruct (xorb _ _) eqn:E; [|discriminate].
    exists (advance a t x), (String a ""). split; auto. split.
    { unfold consumed. simpl. rewrite Er. split; auto. lia. }
    split; [simpl; eauto|auto].
  - destruct Hcap as [Hc1 Hc2].
    apply (IH1 Hc1) in H. destruct H as (y1 & w1 & H & Hx1 & Hl1 & Hp1).
    apply (IH2 Hc2) in H. destruct H as (y & w2 & H & Hx2 & Hl2 & Hp2).
    exists y, (w1 ++ w2). split; auto. split; [eapply consumed_trans; eauto|].
    split; [simpl; eauto|auto].
  - destruct Hcap as [Hc1 Hc2]. destruct (rmatch ic r1 k x) eqn:E1.
    + injection H as ->. apply (IH1 Hc1) in E1.
      destruct E1 as (y & w & H & Hx & Hl & Hp).
      exists y, w. simpl. auto.
    + apply (IH2 Hc2) in H. destruct H as (y & w & H & Hx & Hl & Hp).
      exists y, w. simpl. auto.
  - simpl in Hcap.
    apply (repeat_sound i P (lang ic r1) (rmatch ic r1) (groups r1) g (IH1 Hcap)) in H.
    destruct H as (y & ws & H & Hx & HL & Hlo & Hhi & Hp).
    exists y, (flatten ws). split; auto. split; auto. split; [simpl; eauto|auto].
  - destruct Hcap as [Hj Hc1]. apply (IH1 Hc1) in H.
    destruct H as (y1 & w & H & Hx & Hl & Hp).
    eexists. exists w. split; [exact H|]. split.
    { unfold consumed in *. simpl. exact Hx. }
    split; [exact Hl|]. intros Hxo. apply cap_ok_set; auto.
    intros Hji. destruct Hx as [Hr Hi]. rewrite Hr, Hi.
    replace (idx x + String.length w - idx x) with (String.length w) by lia.
    rewrite take_app_length. auto.
  - simpl in Hcap. destruct (rmatch ic r1 Some x) as [y1|] eqn:E1; [|discriminate].
    apply (IH1 Hcap) in E1. destruct E1 as (y' & w & E & Hx & Hl & Hp).
    injection E as ->. eexists. exists "". split; [exact H|].
    split; [unfold consumed; simpl; split; auto|]. split; [reflexivity|].
    intros Hxo. unfold cap_ok, with_caps. simpl. apply Hp. exact Hxo.
  - destruct (xorb _ _); [|discriminate]. exists x, "". split; auto.
    split; [apply consumed_refl|]. simpl. auto.
  - destruct (idx x =? 0); [|discriminate]. exists x, "". split; auto.
    split; [apply consumed_refl|]. simpl. auto.
  - destruct (rest x); [|discriminate]. exists x, "". split; auto.
    split; [apply consumed_refl|]. simpl. auto.
Qed.

Lemma match_here_sound g P re p t i m :
  captures_in (ignoreCase re) g P (source re) ->
  match_here re p t i = Some m -> found_in g P re t i m /\ index m = i.
Proof.
  unfold match_here. intros Hc.
  destruct (rmatch _ _ _ _) as [y|] eqn:E; [|discriminate].
  intros H. injection H as <-.
  apply (rmatch_sound _ g P _ Hc) in E. destruct E as (y' & w & E & [Hr Hi] & Hl & Hp).
  injection E as ->. simpl in Hr, Hi. split; [|reflexivity].
  exists "", (rest y). simpl.
  assert (Hm : JS.take (idx y - i) t = w).
  { rewrite Hr, Hi. replace (i + String.length w - i) with (String.length w) by lia.
    apply take_app_length. }
  rewrite Hm. split; [exact Hr|]. split; [lia|]. split; [exact Hi|].
  split; [exact Hl|]. intros v Hv. unfold group in Hv. simpl in Hv.
  apply get_cap_In in Hv. apply Hp; auto. intros u [].
Qed.

Lemma search_sound g P re : captures_in (ignoreCase re) g P (source re) ->
  forall t p i m, search re p t i = Some m -> found_in g P re t i m.
Proof.
  intros Hc. induction t as [|a t IH]; intros p i m H; simpl in H.
  - destruct (match_here re p "" i) eqn:E; [|discriminate].
    injection H as ->. now apply (match_here_sound g P) in E.
  - destruct (match_here re p (String a t) i) eqn:E.
    + injection H as ->. now apply (match_here_sound g P) in E.
    + apply IH in H. destruct H as (before & after & Ht & Hi & He & Hl & Hp).
      exists (String a before), after. simpl. rewrite Ht.
      repeat split; auto. lia.
Qed.

Lemma exec_from_sound g P re : captures_in (ignoreCase re) g P (source re) ->
  forall lastIndex t p i m,
  exec_from re p t i lastIndex = Some m ->
  found_in g P re t i m /\ i + lastIndex <= index m.
Proof.
  intros Hc. induction lastIndex as [|n IH]; intros t p i m H; simpl in H.
  - apply (search_sound g P re Hc) in H. split; auto.
    destruct H as (before & after & _ & Hi & _). lia.
  - destruct t as [|a t]; [discriminate|]. apply IH in H.
    destruct H as [(before & after & Ht & Hi & He & Hl & Hp) Hle].
    split; [|lia]. exists (String a before), after. simpl. rewrite Ht.
    repeat split; auto. lia.
Qed.

(** A match found in a text is the substring of the text at its index. *)
Lemma found_in_substring g P re text m :
  found_in g P re text 0 m ->
  JS.substring (index m) (index m + String.length (matched m)) text = matched m /\
  index m + String.length (matched m) <= String.length text.
Proof.
  intros (before & after & Ht & Hi & _). simpl in Hi. rewrite Hi, Ht.
  unfold JS.substring. rewrite drop_app_length.
  replace (String.length before + String.length (matched m) - String.length before)
    with (String.length (matched m)) by lia.
  rewrite take_app_length, !length_app. split; auto. lia.
Qed.

End RegexSound.

(* ================================================================== *)
(** ** Further proofs: numerals and the candidates *)

Module NumeralProofs.
Import Regex RegexFacts RegexProofs RegexLang RegexSound TextProofs.
Import ExpenseParser AmountFacts AmountProofs ParserProofs NumeralFacts.
Local Open Scope list_scope.

Lemma allDigits_nil : allDigits "".
Proof. constructor. Qed.

Lemma allDigits_cons c t : JS.isDigit c = true -> allDigits t -> allDigits (String c t).
Proof. intros Hc Ht. unfold allDigits. simpl. constructor; auto. Qed.

Lemma allDigits_app a b : allDigits a -> allDigits b -> allDigits (a ++ b)%string.
Proof.
  unfold allDigits. induction a as [|c a IH]; simpl; auto.
  intros Ha Hb. inversion Ha; subst. constructor; auto.
Qed.

Lemma lang_digit ic w : lang ic d w -> exists a, w = String a "" /\ JS.isDigit a = true.
Proof.
  simpl. intros (a & -> & H). exists a. split; auto.
  rewrite orb_false_r in H. exact H.
Qed.

(** A repetition of [\d] consumes digits, as many as its rounds. *)
Lemma lang_digits ic mn mx g w :
  lang ic (Rep d mn mx g) w ->
  allDigits w /\ rounds mn mx <= String.length w /\
  (forall m, mx = Some m -> String.length w <= m).
Proof.
  intros (ws & -> & Hall & Hlo & Hhi).
  assert (H : allDigits (flatten ws) /\ String.length (flatten ws) = List.length ws).
  { clear Hlo Hhi. induction Hall as [|w ws Hw Hws [IH1 IH2]]; simpl.
    - split; [constructor|reflexivity].
    - apply lang_digit in Hw. destruct Hw as (a & -> & Ha). simpl.
      split; [now apply allDigits_cons|now rewrite IH2]. }
  destruct H as [H1 H2]. rewrite H2. auto.
Qed.

Lemma canon_dot ic a : canon ic a = canon ic "."%char -> a = "."%char.
Proof.
  unfold canon. destruct ic; auto.
  destruct a as [[] [] [] [] [] [] [] []]; intros H;
    try reflexivity; vm_compute in H; discriminate.
Qed.

(** The optional fraction [(?:\.\d{2})?]. *)
Lemma lang_fraction ic w : lang ic (opt (cat [Chr "."; times 2 d])) w ->
  w = EmptyString \/
  exists d2, w = String "."%char d2 /\ allDigits d2 /\ String.length d2 = 2.
Proof.
  intros (ws & -> & Hall & _ & Hhi). specialize (Hhi 1 eq_refl).
  destruct ws as [|w [|w' ws]]; simpl in Hhi |- *; [now left| |lia].
  right. inversion Hall as [|? ? Hw _]; subst.
  change (lang ic (Seq (Chr ".") (times 2 d)) w) in Hw.
  destruct Hw as (w1 & w2 & -> & (a & -> & Ha) & Hw2).
  change (lang ic (Rep d 2 (Some 2) true) w2) in Hw2.
  apply lang_digits in Hw2. destruct Hw2 as (Hd2 & Hlo & Hhi2).
  specialize (Hhi2 2 eq_refl). simpl in Hlo.
  apply canon_dot in Ha. subst a.
  exists w2. rewrite app_empty_r. simpl. repeat split; auto. lia.
Qed.

Lemma lang_numeral ic n : lang ic numeral n -> isNumeral n.
Proof.
  unfold numeral. intros (ds & fr & -> & Hds & Hfr).
  apply lang_digits in Hds. destruct Hds as (Hd & Hlen & _). simpl in Hlen.
  exists ds, fr. split; auto. split; auto. split; auto.
  now apply lang_fraction in Hfr.
Qed.

(** *** Reading a numeral *)

Lemma spanDigits_digits ds r :
  allDigits ds ->
  match r with
  | EmptyString => True
  | String c _ => JS.isDigit c = false
  end ->
  Num.spanDigits (ds ++ r) = (ds, r).
Proof.
  intros Hd Hr. unfold allDigits in Hd.
  induction ds as [|c ds IH]; simpl in *.
  - destruct r as [|c r]; simpl; auto. now rewrite Hr.
  - inversion Hd as [|? ? Hc Hds]; subst. rewrite Hc, (IH Hds). reflexivity.
Qed.

Lemma digit_not_space c : JS.isDigit c = true -> JS.isSpace c = false.
Proof.
  destruct c as [[] [] [] [] [] [] [] []]; intros H;
    try reflexivity; vm_compute in H; discriminate.
Qed.

(** [parseFloat] on a numeral: never NaN, and a whole number of hundredths. *)
Lemma parseFloat_numeral n : isNumeral n ->
  exists v, Num.parseFloat n = Some v /\ wholeCents v.
Proof.
  intros (ds & fr & -> & Hds & Hlen & Hfr). unfold Num.parseFloat.
  assert (Hts : JS.trimStart (ds ++ fr) = (ds ++ fr)%string).
  { apply trimStart_fixed. destruct ds as [|c ds]; simpl in *; [lia|].
    apply digit_not_space. unfold allDigits in Hds. simpl in Hds. now inversion Hds. }
  rewrite Hts.
  assert (Hnonempty : JS.isEmpty ds = false) by (destruct ds; simpl in *; [lia|auto]).
  destruct Hfr as [->|(d2 & -> & Hd2 & Hl2)].
  - rewrite spanDigits_digits by (simpl; auto). rewrite Hnonempty.
    cbn [andb JS.isEmpty String.length Num.pow10].
    eexists. split; [reflexivity|].
    exists (Z.of_N (Num.digitsValue (ds ++ "")) * 100)%Z.
    eapply Qeq_trans; [apply Qred_correct|]. unfold Qeq. simpl. lia.
  - rewrite spanDigits_digits by (simpl; auto; reflexivity).
    cbv beta iota.
    assert (Hsp : Num.spanDigits d2 = (d2, EmptyString)).
    { rewrite <- (app_empty_r d2) at 1. apply spanDigits_digits; simpl; auto. }
    rewrite Hsp. cbn [fst]. rewrite Hnonempty. cbn [andb].
    eexists. split; [reflexivity|].
    exists (Z.of_N (Num.digitsValue (ds ++ d2))).
    eapply Qeq_trans; [apply Qred_correct|]. rewrite Hl2. unfold Qeq. simpl. reflexivity.
Qed.

(** *** Every candidate is well placed *)

Lemma exec_sound g P re text lastIndex m lastIndex' :
  captures_in (ignoreCase re) g P (source re) ->
  exec re text lastIndex = (Some m, lastIndex') ->
  found_in g P re text 0 m.
Proof.
  unfold exec. intros Hc H. destruct (global re).
  - destruct (exec_from re None text 0 lastIndex) as [m'|] eqn:E; [|discriminate].
    injection H as -> _. now apply (exec_from_sound g P re Hc) in E.
  - injection H as H _. now apply (search_sound g P re Hc) in H.
Qed.

Lemma scanPattern_wellPlaced re text : numeralGroup re ->
  forall fuel lastIndex acc r,
  Forall (wellPlaced text) acc ->
  scanPattern fuel re text lastIndex acc = Ok r ->
  Forall (wellPlaced text) r.
Proof.
  intros [Hc Hmin]. induction fuel as [|fuel IH]; intros lastIndex acc r Hacc H;
    simpl in H; [discriminate|].
  destruct (exec re text lastIndex) as [[m|] lastIndex'] eqn:E.
  - pose proof (exec_sound 1 isNumeral re text lastIndex m lastIndex' Hc E) as Hf.
    destruct (Num.parseFloatOpt (group 1 m)) as [v|] eqn:Ev.
    + destruct (sane (Some v)); [|eauto].
      apply (IH _ _ _ (fun x => x)) in H || apply IH in H; auto.
      apply Forall_app. split; auto. constructor; [|constructor].
      pose proof (found_in_substring 1 isNumeral re text m Hf) as [Hsub Hle].
      destruct Hf as (before & after & Ht & Hi & He & Hl & Hp).
      unfold wellPlaced. simpl. split; [exact Hsub|].
      assert (Hend : index m + minlen (source re) <= endIndex m).
      { clear -E. unfold exec in E. destruct (global re).
        - destruct (exec_from re None text 0 lastIndex) as [m'|] eqn:E'; [|discriminate].
          injection E as -> _. apply (exec_from_ok 0) in E'.
          destruct E' as (_ & H & _). exact H.
        - injection E as E _. apply (search_ok 0) in E.
          destruct E as (_ & H & _). exact H. }
      split; [lia|]. split; [exact Hle|].
      destruct (group 1 m) as [n|] eqn:Eg; [|discriminate]. simpl in Ev.
      destruct (parseFloat_numeral n (Hp n eq_refl)) as (v' & Hv' & Hcents).
      rewrite Hv' in Ev. injection Ev as <-. exact Hcents.
    + eauto.
  - injection H as <-. exact Hacc.
Qed.

Lemma scanPatterns_wellPlaced text fuel : forall patterns acc r,
  Forall numeralGroup patterns ->
  Forall (wellPlaced text) acc ->
  scanPatterns fuel patterns text acc = Ok r ->
  Forall (wellPlaced text) r.
Proof.
  induction patterns as [|p ps IH]; intros acc r Hps Hacc H; simpl in H.
  - injection H as <-. exact Hacc.
  - inversion Hps as [|? ? Hp Hps']; subst.
    destruct (scanPattern fuel p text 0 acc) as [r1|] eqn:E; [|discriminate].
    simpl in H. apply (IH r1 r Hps'); auto.
    exact (scanPattern_wellPlaced p text Hp fuel 0 acc r1 Hacc E).
Qed.

Ltac numeral_goal :=
  match goal with
  | |- _ /\ _ => split; numeral_goal
  | |- True => exact I
  | |- _ -> _ =>
      let w := fresh "w" in let Hw := fresh "Hw" in
      intros _ w Hw;
      first [exact (lang_numeral false w Hw) | exact (lang_numeral true w Hw)]
  end.

Lemma AMOUNT_PATTERNS_numeral : Forall numeralGroup AMOUNT_PATTERNS.
Proof.
  unfold AMOUNT_PATTERNS.
  repeat (apply Forall_cons; [split; [|simpl; lia]|]); [..|apply Forall_nil].
  all: simpl; numeral_goal.
Qed.

Lemma extractAmounts_wellPlaced text cs :
  extractAmounts text = Ok cs -> Forall (wellPlaced text) cs.
Proof.
  intros H.
  unfold extractAmounts, extractAmountsWith in H.
  destruct (scanPatterns _ AMOUNT_PATTERNS text []) as [raw|] eqn:E; [|discriminate].
  simpl in H. injection H as <-.
  pose proof (scanPatterns_wellPlaced text _ AMOUNT_PATTERNS [] raw
                AMOUNT_PATTERNS_numeral (Forall_nil _) E) as Hraw.
  apply Forall_forall. intros c Hc.
  rewrite Forall_forall in Hraw. apply Hraw.
  rewrite dropRepeated_In in Hc; simpl; auto using sortByIndex_sorted.
  destruct Hc as [_ Hc]. apply firstAt_In in Hc. destruct Hc as [Hc _].
  exact (proj1 (sortByIndex_In c raw) Hc).
Qed.

End NumeralProofs.

(* ================================================================== *)
(** ** Further proofs: the numeric dates of a receipt *)

Module DateProofs.
Import Regex RegexFacts RegexProofs RegexLang RegexSound TextProofs.
Import NumeralFacts NumeralProofs ReceiptOcr.
Local Open Scope list_scope.

Lemma digitValue_digit c : JS.isDigit c = true -> (Num.digitValue c <= 9)%N.
Proof.
  destruct c as [[] [] [] [] [] [] [] []]; intros H;
    try (vm_compute in H; discriminate); vm_compute; discriminate.
Qed.

Lemma digits_fold l : Forall (fun c => JS.isDigit c = true) l ->
  forall acc,
  (fold_left (fun acc c => 10 * acc + Num.digitValue c) l acc + 1
   <= (acc + 1) * 10 ^ N.of_nat (List.length l))%N.
Proof.
  induction 1 as [|c l Hc Hl IH]; intros acc.
  - simpl. lia.
  - cbn [fold_left List.length]. specialize (IH (10 * acc + Num.digitValue c)%N).
    apply digitValue_digit in Hc.
    rewrite Nat2N.inj_succ, N.pow_succ_r'.
    assert (H10 : (0 < 10 ^ N.of_nat (List.length l))%N)
      by (apply N.neq_0_lt_0, N.pow_nonzero; discriminate).
    nia.
Qed.

Lemma length_list_ascii t : List.length (list_ascii_of_string t) = String.length t.
Proof. induction t; simpl; auto. Qed.

Lemma digitsValue_bound ds : allDigits ds ->
  (Z.of_N (Num.digitsValue ds) < 10 ^ Z.of_nat (String.length ds))%Z.
Proof.
  intros H. pose proof (digits_fold _ H 0%N) as Hb.
  fold (Num.digitsValue ds) in Hb. rewrite length_list_ascii in Hb.
  assert (Hz : (Z.of_N (Num.digitsValue ds) + 1
                <= Z.of_N (10 ^ N.of_nat (String.length ds)))%Z) by lia.
  rewrite N2Z.inj_pow, nat_N_Z in Hz. simpl Z.of_N in Hz. lia.
Qed.

(** [parseInt] on a short run of digits: a number below [10 ^ n]. *)
Lemma parseIntOpt_short n w : shortDigits n w ->
  exists v, parseIntOpt (Some w) = Some v /\ (0 <= v < 10 ^ Z.of_nat n)%Z.
Proof.
  intros [Hd [Hlo Hhi]]. unfold parseIntOpt, Num.parseInt.
  assert (Hsp : Num.spanDigits w = (w, EmptyString)).
  { rewrite <- (app_empty_r w) at 1. apply spanDigits_digits; simpl; auto. }
  rewrite Hsp. cbn [fst].
  destruct w as [|c w]; [simpl in Hlo; lia|]. cbn [JS.isEmpty].
  eexists. split; [reflexivity|].
  pose proof (digitsValue_bound _ Hd) as Hb. split; [lia|].
  eapply Z.lt_le_trans; [exact Hb|]. apply Z.pow_le_mono_r; lia.
Qed.

Lemma lang_short ic lo hi w : 1 <= lo <= hi ->
  lang ic (Rep d lo (Some hi) true) w -> shortDigits hi w.
Proof.
  intros Hlo H. apply lang_digits in H. destruct H as (Hd & Hmin & Hmax).
  specialize (Hmax hi eq_refl). split; auto. split; auto.
  simpl in Hmin. destruct (Nat.min_spec lo hi) as [[_ E]|[_ E]]; rewrite E in Hmin; lia.
Qed.

(** *** The time value of a date read from digits is in range *)

Lemma daysToMonth_bound y m : (-1 <= y <= 10020)%Z -> (0 <= m <= 11)%Z ->
  (-1000000 <= daysToMonth y m <= 4000000)%Z.
Proof.
  intros Hy Hm. unfold daysToMonth.
  set (y' := (if (m <? 2)%Z then (y - 1)%Z else y)).
  assert (Hy' : (-2 <= y' <= 10020)%Z) by (subst y'; destruct (m <? 2)%Z; lia).
  clearbody y'. cbv zeta.
  assert (He : (-1 <= y' / 400 <= 25)%Z) by (Z.to_euclidean_division_equations; lia).
  assert (Hyoe : (0 <= y' - y' / 400 * 400 <= 399)%Z)
    by (Z.to_euclidean_division_equations; lia).
  set (era := (y' / 400)%Z) in *. set (yoe := (y' - era * 400)%Z) in *.
  clearbody yoe. clearbody era.
  assert (Hdoy : (0 <= (153 * ((m + 10) mod 12) + 2) / 5 <= 337)%Z)
    by (Z.to_euclidean_division_equations; lia).
  set (doy := ((153 * ((m + 10) mod 12) + 2) / 5)%Z) in *. clearbody doy.
  assert (H4 : (0 <= yoe / 4 <= 99)%Z) by (Z.to_euclidean_division_equations; lia).
  assert (H100 : (0 <= yoe / 100 <= 3)%Z) by (Z.to_euclidean_division_equations; lia).
  lia.
Qed.

Lemma timeValue_bound y m dd :
  (0 <= y < 10000)%Z -> (-1 <= m < 100)%Z -> (0 <= dd < 100)%Z ->
  (Z.abs (timeValue y m dd) <=? 8640000000000000)%Z = true.
Proof.
  intros Hy Hm Hd. apply Z.leb_le. unfold timeValue. cbv zeta.
  set (full := (if (0 <=? y)%Z && (y <=? 99)%Z then (1900 + y)%Z else y)).
  assert (Hfull : (0 <= full < 10000)%Z).
  { subst full. destruct ((0 <=? y)%Z && (y <=? 99)%Z) eqn:E; [|lia].
    apply andb_true_iff in E. lia. }
  assert (Hq : (-1 <= m / 12 <= 8)%Z) by (Z.to_euclidean_division_equations; lia).
  assert (Hr : (0 <= m mod 12 <= 11)%Z) by (Z.to_euclidean_division_equations; lia).
  pose proof (daysToMonth_bound (full + m / 12) (m mod 12) ltac:(lia) Hr) as Hb.
  lia.
Qed.

Lemma validDate_short y m dd :
  (0 <= y < 10000)%Z -> (-1 <= m < 100)%Z -> (0 <= dd < 100)%Z ->
  validDate (Some y) (Some m) (Some dd) = Some (DateOf y m dd).
Proof. intros Hy Hm Hd. unfold validDate. now rewrite timeValue_bound. Qed.

(** *** The groups of the two numeric patterns *)

Ltac digits_goal :=
  match goal with
  | |- _ /\ _ => split; digits_goal
  | |- True => exact I
  | |- _ -> _ =>
      let E := fresh "E" in let w := fresh "w" in let Hw := fresh "Hw" in
      intros E w Hw;
      first [ discriminate E
            | exact (lang_short false 4 4 w ltac:(lia) Hw)
            | exact (lang_short false 1 2 w ltac:(lia) Hw)
            | exact (lang_short false 2 4 w ltac:(lia) Hw) ]
  end.

Lemma ymd_groups :
  captures_in false 1 (shortDigits 4) (source ymdPattern) /\
  captures_in false 2 (shortDigits 2) (source ymdPattern) /\
  captures_in false 3 (shortDigits 2) (source ymdPattern).
Proof. simpl. digits_goal. Qed.

Lemma mdy_groups :
  captures_in false 1 (shortDigits 2) (source mdyPattern) /\
  captures_in false 2 (shortDigits 2) (source mdyPattern) /\
  captures_in false 3 (shortDigits 4) (source mdyPattern).
Proof. simpl. digits_goal. Qed.

Lemma match1_group g P re text m :
  captures_in (ignoreCase re) g P (source re) ->
  keeps g (source re) = true -> sets g (source re) = true ->
  match1 re text = Some m ->
  exists v, group g m = Some v /\ P v.
Proof.
  unfold match1. intros Hc Hk Hs H.
  pose proof (search_ok g re text None 0 m H) as (_ & _ & Hg).
  specialize (Hg Hk Hs).
  pose proof (search_sound g P re Hc text None 0 m H) as Hf.
  destruct Hf as (_ & _ & _ & _ & _ & _ & Hp).
  destruct (group g m) as [v|]; [|congruence]. exists v. auto.
Qed.

Lemma tryYmd_found normalized m :
  match1 ymdPattern normalized = Some m ->
  exists y mo dd,
    tryYmd normalized = Some (DateOf y mo dd) /\
    parseIntOpt (group 1 m) = Some y /\
    parseIntOpt (group 2 m) = Some (mo + 1)%Z /\
    parseIntOpt (group 3 m) = Some dd /\
    (0 <= y < 10000)%Z /\ (-1 <= mo < 99)%Z /\ (0 <= dd < 100)%Z.
Proof.
  intros H. destruct ymd_groups as (H1 & H2 & H3).
  destruct (match1_group 1 _ ymdPattern normalized m H1 eq_refl eq_refl H) as (g1 & E1 & P1).
  destruct (match1_group 2 _ ymdPattern normalized m H2 eq_refl eq_refl H) as (g2 & E2 & P2).
  destruct (match1_group 3 _ ymdPattern normalized m H3 eq_refl eq_refl H) as (g3 & E3 & P3).
  destruct (parseIntOpt_short _ _ P1) as (y & Ey & Hy).
  destruct (parseIntOpt_short _ _ P2) as (mo & Em & Hm).
  destruct (parseIntOpt_short _ _ P3) as (dd & Ed & Hd).
  change (10 ^ Z.of_nat 4)%Z with 10000%Z in Hy.
  change (10 ^ Z.of_nat 2)%Z with 100%Z in Hm, Hd.
  exists y, (mo - 1)%Z, dd. unfold tryYmd. rewrite H, E1, E2, E3, Ey, Em, Ed.
  cbn [nadd option_map]. replace (mo + -1)%Z with (mo - 1)%Z by lia.
  rewrite validDate_short by lia.
  replace (mo - 1 + 1)%Z with mo by lia. repeat split; auto; lia.
Qed.

Lemma tryMdy_found normalized m :
  match1 mdyPattern normalized = Some m ->
  exists a b c,
    parseIntOpt (group 1 m) = Some a /\
    parseIntOpt (group 2 m) = Some b /\
    parseIntOpt (group 3 m) = Some c /\
    (0 <= a < 100)%Z /\ (0 <= b < 100)%Z /\ (0 <= c < 10000)%Z /\
    tryMdy normalized =
      Some (DateOf (if (c <? 100)%Z then c + 2000 else c)%Z
                   (if (12 <? b)%Z && (a <=? 12)%Z then b - 1 else a - 1)%Z
                   (if (12 <? b)%Z && (a <=? 12)%Z then a else b)).
Proof.
  intros H. destruct mdy_groups as (H1 & H2 & H3).
  destruct (match1_group 1 _ mdyPattern normalized m H1 eq_refl eq_refl H) as (g1 & E1 & P1).
  destruct (match1_group 2 _ mdyPattern normalized m H2 eq_refl eq_refl H) as (g2 & E2 & P2).
  destruct (match1_group 3 _ mdyPattern normalized m H3 eq_refl eq_refl H) as (g3 & E3 & P3).
  destruct (parseIntOpt_short _ _ P1) as (a & Ea & Ha).
  destruct (parseIntOpt_short _ _ P2) as (b & Eb & Hb).
  destruct (parseIntOpt_short _ _ P3) as (c & Ec & Hc).
  change (10 ^ Z.of_nat 4)%Z with 10000%Z in Hc.
  change (10 ^ Z.of_nat 2)%Z with 100%Z in Ha, Hb.
  exists a, b, c. rewrite E1, E2, E3. repeat (split; [assumption|]).
  unfold tryMdy. rewrite H, E1, E2, E3, Ea, Eb, Ec.
  unfold arrangeMonthDay. cbn [nlt ngt nle nadd option_map].
  destruct (c <? 100)%Z eqn:Ec100; destruct ((12 <? b)%Z && (a <=? 12)%Z) eqn:Esw;
    cbn [nadd option_map];
    match goal with |- validDate (Some ?y) (Some ?mo) (Some ?dd) = _ =>
      replace mo with (mo + 0 - 0)%Z by lia;
      rewrite (validDate_short y) end.
  all: try (f_equal; f_equal; lia).
  all: try (apply Z.ltb_lt in Ec100); try (apply Z.ltb_ge in Ec100); lia.
Qed.

End DateProofs.

(* ================================================================== *)
(** ** Further proofs: descriptions and the segmenter *)

Module DescriptionProofs.
Import Regex RegexFacts RegexProofs.
Import ExpenseParser AmountFacts AmountProofs ParserFacts ParserProofs.
Import TextFacts TextProofs DescriptionFacts.
Local Open Scope list_scope.

Lemma join_length_ge sep w ws :
  String.length w <= String.length (JS.join sep (w :: ws)).
Proof.
  destruct ws as [|w' ws]; simpl; [lia|].
  rewrite length_app. lia.
Qed.

(** The last steps of [extractDescription]: the fallback and the capital. *)
Lemma description_finish (segment : string) (pieces : list string) :
  let words := filter (fun w => 2 <? String.length w) pieces in
  let final :=
    if JS.isEmpty segment || (String.length segment <? 2)
    then JS.orElse (JS.join " " (firstn 3 words)) "Expense"
    else segment in
  let d := (JS.toUpperCase (JS.charAt0 final) ++ JS.drop 1 final)%string in
  2 <= String.length d /\ notLowerFirst d.
Proof.
  intros words final d.
  assert (Hfinal : 2 <= String.length final).
  { unfold final. destruct (JS.isEmpty segment || (String.length segment <? 2)) eqn:E.
    - destruct words as [|w ws] eqn:Ew; [simpl; lia|].
      assert (Hw : 2 < String.length w).
      { assert (Hin : In w words) by (rewrite Ew; now left).
        apply filter_In in Hin. destruct Hin as [_ Hin]. now apply Nat.ltb_lt in Hin. }
      change (firstn 3 (w :: ws)) with (w :: firstn 2 ws).
      pose proof (join_length_ge " " w (firstn 2 ws)) as Hj.
      unfold JS.orElse. destruct (JS.join " " (w :: firstn 2 ws)) eqn:Ej; simpl in *; lia.
    - apply orb_false_iff in E. destruct E as [_ E]. apply Nat.ltb_ge in E. exact E. }
  unfold d. rewrite capitalize_shape. destruct final as [|c t]; simpl in *; [lia|].
  split; [lia|apply upperChar_not_lower].
Qed.

(** What [extractDescription] returns has at least two characters and does
    not begin with a lower-case letter. *)
Lemma extractDescription_shape text amount nextAmount d :
  extractDescription text amount nextAmount = Ok d ->
  2 <= String.length d /\ notLowerFirst d.
Proof.
  unfold extractDescription.
  match goal with
  | |- rbind ?X _ = _ -> _ => destruct X as [segment|e]; simpl; [|discriminate]
  end.
  intros H. injection H as <-. apply description_finish.
Qed.

Lemma buildExpense_described trimmedInput amounts amountInfo index w :
  exists e w', buildExpense trimmedInput amounts amountInfo index w = Ok (e, w') /\
               described trimmedInput amountInfo e.
Proof.
  unfold buildExpense, bind, lift.
  destruct (extractDescription_total trimmedInput amountInfo
              (nth_error amounts (index + 1))) as (description & Hd).
  rewrite Hd. destruct (detectCategory description) as [category confidence] eqn:Ec.
  simpl. eexists. eexists. split; [reflexivity|].
  unfold described, builtFrom. simpl. eauto 10.
Qed.

(** [parseExpenses], with the origin of each description. *)
Lemma parseExpenses_described input w :
  exists r w' cs,
    parseExpenses input w = Ok (r, w') /\
    extractAmounts (JS.trim input) = Ok cs /\
    ParsingResult.rawInput r = input /\
    (ParsingResult.expenses r = [] /\ ParsingResult.success r = false /\
       (JS.trim input = "" \/ cs = [])
     \/
     ParsingResult.success r = true /\ cs <> [] /\
       Forall2 (described (JS.trim input)) cs (ParsingResult.expenses r)).
Proof.
  destruct (extractAmounts_run (JS.trim input)) as (raws & cs & _ & Hcs & _).
  unfold parseExpenses, bind, performance_now, failed, lift, ret. simpl.
  destruct (JS.trim input) as [|ch t] eqn:Et; simpl.
  - eexists. eexists. exists cs. split; [reflexivity|]. simpl. auto 10.
  - rewrite Hcs. destruct cs as [|c cs]; simpl.
    + eexists. eexists. exists []. split; [reflexivity|]. simpl. auto 10.
    + destruct (mapM_from_ok (buildExpense (String ch t) (c :: cs))
                  (described (String ch t))
                  (buildExpense_described (String ch t) (c :: cs)) (c :: cs) 0 (tick w))
        as (es & w1 & Hes & Hbuilt).
      unfold mapM. rewrite Hes.
      eexists. eexists. exists (c :: cs). split; [reflexivity|]. simpl.
      split; auto. split; auto. right. repeat split; auto; discriminate.
Qed.

End DescriptionProofs.

(* ================================================================== *)
(** ** Further proofs: the classifier *)

Module ClassifierMore.
Import ExpenseParser ClassifierFacts ClassifierProofs TextFacts TextProofs.
Local Open Scope list_scope.

Lemma keywordScore_zero_iff lowerText keywords :
  Forall (fun k => 1 <= String.length k) keywords ->
  (keywordScore lowerText keywords = 0 <->
   Forall (fun k => JS.includes lowerText k = false) keywords).
Proof.
  unfold keywordScore. induction 1 as [|k ks Hk Hks IH]; simpl.
  - split; auto.
  - destruct (JS.includes lowerText k) eqn:E; simpl.
    + split; [lia|]. intros H. inversion H; subst. congruence.
    + rewrite IH. split; intros H; [constructor; auto|now inversion H].
Qed.

Lemma keywordScore_ge lowerText keywords k :
  In k keywords -> JS.includes lowerText k = true ->
  String.length k <= keywordScore lowerText keywords.
Proof.
  unfold keywordScore. induction keywords as [|k' ks IH]; simpl; [tauto|].
  intros [->|Hin] Hk.
  - rewrite Hk. simpl. lia.
  - specialize (IH Hin Hk). destruct (JS.includes lowerText k'); simpl; lia.
Qed.

(** The score of the winner bounds the score of every row of the table. *)
Lemma detectCategory_winner text :
  exists c h,
    detectCategory text = (c, confidenceOf h) /\
    (h = 0 <-> c = other) /\
    h <= tableBound CATEGORY_KEYWORDS /\
    (forall e, In e CATEGORY_KEYWORDS ->
               keywordScore (JS.toLowerCase text) (snd e) <= h) /\
    (h = 0 \/ exists e, In e CATEGORY_KEYWORDS /\ fst e = c /\
                        keywordScore (JS.toLowerCase text) (snd e) = h).
Proof.
  assert (Hrows : forall e, In e CATEGORY_KEYWORDS ->
            In e (filter nonOther CATEGORY_KEYWORDS) \/ snd e = []).
  { intros e He. simpl in He.
    repeat (destruct He as [<-|He]; [left; vm_compute; tauto|]).
    destruct He as [<-|[]]. now right. }
  assert (Hsub : forall e, In e (filter nonOther CATEGORY_KEYWORDS) ->
            In e CATEGORY_KEYWORDS /\ fst e <> other /\
            list_sum (map String.length (snd e)) <= tableBound CATEGORY_KEYWORDS).
  { intros e He. apply filter_In in He. destruct He as [He Hn]. split; auto.
    split.
    - unfold nonOther in Hn. destruct (fst e); try discriminate.
    - clear Hn. simpl in He.
      repeat (destruct He as [<-|He]; [vm_compute; repeat constructor|]).
      contradiction. }
  destruct (detectCategory_first_max text)
    as [[Heq Hall]|(pre & e & post & Htab & Heq & Hpos & Hpre & Hpost)].
  - exists other, 0. split; [exact Heq|]. split; [tauto|]. split; [lia|].
    split; [|now left].
    intros e He. destruct (Hrows e He) as [Hin| ->]; [|cbv; lia].
    rewrite Forall_forall in Hall. rewrite (Hall e Hin). lia.
  - assert (Hin : In e (filter nonOther CATEGORY_KEYWORDS)).
    { rewrite Htab. apply in_elt. }
    destruct (Hsub e Hin) as (HinT & Hne & Hsum).
    exists (fst e), (keywordScore (JS.toLowerCase text) (snd e)).
    split; [exact Heq|]. split; [split; [lia|contradiction]|]. split.
    { destruct (keywordScore_range (JS.toLowerCase text) (snd e) 0) as [_ Hle];
        [apply Forall_forall; intros; lia|lia]. }
    split; [|right; eauto].
    intros e' He'. destruct (Hrows e' He') as [Hin'| ->]; [|cbv; lia].
    rewrite Htab in Hin'. apply in_app_or in Hin'.
    rewrite Forall_forall in Hpre, Hpost.
    destruct Hin' as [Hin'|[<-|Hin']]; [apply Hpre in Hin'; lia|lia|now apply Hpost].
Qed.

Lemma keywords_nonempty :
  Forall (fun e => Forall (fun k => 1 <= String.length k) (snd e)) CATEGORY_KEYWORDS.
Proof. vm_compute. repeat constructor. Qed.

(** The confidence of a score that saturates. *)
Lemma confidenceOf_saturated h : 7 <= h <= tableBound CATEGORY_KEYWORDS ->
  confidenceOf h = 0.95%float.
Proof.
  intros Hh.
  assert (Hall : forallb (fun h =>
                   negb (is_nan (0.6 + Num.ofNat h * 0.05)%float) &&
                   negb (PrimFloat.ltb (0.6 + Num.ofNat h * 0.05)%float 0.95))
                   (seq 7 (tableBound CATEGORY_KEYWORDS - 6)) = true)
    by (vm_compute; reflexivity).
  rewrite forallb_forall in Hall. specialize (Hall h).
  assert (Hin : In h (seq 7 (tableBound CATEGORY_KEYWORDS - 6))) by (apply in_seq; lia).
  apply Hall in Hin. apply andb_true_iff in Hin. destruct Hin as [Hn Hl].
  apply negb_true_iff in Hn, Hl.
  unfold confidenceOf. destruct (Nat.ltb_spec 0 h); [|lia].
  unfold Num.Math_min. rewrite Hn, Hl. reflexivity.
Qed.

(** The confidence is non-decreasing in the score. *)
Lemma confidenceOf_monotone h1 h2 :
  h1 <= h2 <= tableBound CATEGORY_KEYWORDS ->
  PrimFloat.leb (confidenceOf h1) (confidenceOf h2) = true.
Proof.
  intros Hh.
  assert (Hall : forallb (fun a => forallb (fun b =>
                     PrimFloat.leb (confidenceOf a) (confidenceOf (a + b)))
                     (seq 0 (S (tableBound CATEGORY_KEYWORDS))))
                   (seq 0 (S (tableBound CATEGORY_KEYWORDS))) = true)
    by (vm_compute; reflexivity).
  rewrite forallb_forall in Hall.
  assert (H1 : In h1 (seq 0 (S (tableBound CATEGORY_KEYWORDS)))) by (apply in_seq; lia).
  specialize (Hall h1 H1). rewrite forallb_forall in Hall.
  assert (H2 : In (h2 - h1) (seq 0 (S (tableBound CATEGORY_KEYWORDS)))) by (apply in_seq; lia).
  specialize (Hall _ H2). replace (h1 + (h2 - h1)) with h2 in Hall by lia. exact Hall.
Qed.

(** *** Occurrences *)

Lemma startsWith_app k a b : JS.startsWith k a = true -> JS.startsWith k (a ++ b) = true.
Proof.
  revert a. induction k as [|c k IH]; intros a H; [reflexivity|].
  destruct a as [|c' a]; simpl in *; [discriminate|].
  apply andb_true_iff in H. destruct H as [H1 H2]. rewrite H1. simpl. auto.
Qed.

Lemma includes_app_l a b k : JS.includes a k = true -> JS.includes (a ++ b) k = true.
Proof.
  induction a as [|c a IH]; simpl.
  - rewrite orb_false_r. intros H. destruct k; [|discriminate].
    destruct b; reflexivity.
  - intros H. apply orb_true_iff in H. destruct H as [H|H].
    + apply (startsWith_app k (String c a) b) in H. simpl in H. rewrite H. reflexivity.
    + rewrite (IH H). apply orb_true_r.
Qed.

Lemma includes_app_r a b k : JS.includes b k = true -> JS.includes (a ++ b) k = true.
Proof.
  intros H. induction a as [|c a IH]; simpl; auto. rewrite IH. apply orb_true_r.
Qed.

Lemma keywordScore_mono t1 t2 keywords :
  (forall k, JS.includes t1 k = true -> JS.includes t2 k = true) ->
  keywordScore t1 keywords <= keywordScore t2 keywords.
Proof.
  intros H. unfold keywordScore. induction keywords as [|k ks IH]; simpl; auto.
  destruct (JS.includes t1 k) eqn:E1.
  - rewrite (H k E1). simpl. lia.
  - destruct (JS.includes t2 k); simpl; lia.
Qed.

(** A text that has all the keyword occurrences of another is classified
    with at least its confidence, and as [other] only if the other is. *)
Lemma detectCategory_mono t1 t2 :
  (forall k, JS.includes (JS.toLowerCase t1) k = true ->
             JS.includes (JS.toLowerCase t2) k = true) ->
  PrimFloat.leb (snd (detectCategory t1)) (snd (detectCategory t2)) = true /\
  (fst (detectCategory t2) = other -> fst (detectCategory t1) = other).
Proof.
  intros H.
  destruct (detectCategory_winner t1) as (c1 & h1 & E1 & Hz1 & Hb1 & Hall1 & Hw1).
  destruct (detectCategory_winner t2) as (c2 & h2 & E2 & Hz2 & Hb2 & Hall2 & Hw2).
  rewrite E1, E2. simpl.
  assert (Hle : h1 <= h2).
  { destruct Hw1 as [->|(e & He & _ & <-)]; [lia|].
    specialize (Hall2 e He).
    pose proof (keywordScore_mono _ _ (snd e) H). lia. }
  split; [apply confidenceOf_monotone; lia|].
  intros ->. apply Hz1.
  assert (h2 = 0) by (apply Hz2; reflexivity). lia.
Qed.

End ClassifierMore.

(* ================================================================== *)
(** ** Further proofs: the receipt interpreter and its caller *)

Module ReceiptMore.
Import Regex RegexFacts RegexProofs.
Import ExpenseParser AmountFacts AmountProofs ParserFacts ParserProofs.
Import ClassifierFacts ClassifierProofs ReceiptOcr ReceiptFacts ReceiptProofs.
Import TextFacts TextProofs DescriptionFacts DescriptionProofs ClassifierMore.
Local Open Scope list_scope.

Lemma yields_lastElem values line :
  yields values line = true -> exists v, JS.lastElem (values line) = Some v.
Proof.
  unfold yields. intros H. apply Nat.ltb_lt in H.
  apply lastElem_some. destruct (values line); simpl in *; [lia|discriminate].
Qed.

(** The tiers of the total locator: which confidence goes with what. *)
Lemma locateTotal_tiers text :
  let r := locateTotal extractMoneyValues text in
  (fst r = None <-> PrimFloat.eqb (snd r) 0.4 = true) /\
  (fst r = None -> extractMoneyValues text = []) /\
  (PrimFloat.eqb (snd r) 0.55 = true ->
   Math_max (extractMoneyValues text) = fst r).
Proof.
  unfold locateTotal.
  destruct (find _ (rev (filter isTotalLine _))) as [line|] eqn:E1.
  { apply find_some in E1. destruct E1 as [_ E1].
    apply yields_lastElem in E1. destruct E1 as (v & ->). simpl.
    repeat split; intros H; try discriminate; vm_compute in H; discriminate. }
  destruct (find _ (rev (JS.lastN 10 _))) as [line|] eqn:E2.
  { apply find_some in E2. destruct E2 as [_ E2].
    apply yields_lastElem in E2. destruct E2 as (v & ->). simpl.
    repeat split; intros H; try discriminate; vm_compute in H; discriminate. }
  destruct (extractMoneyValues text) as [|v vs]; simpl.
  - repeat split; auto.
  - repeat split; intros H; try discriminate; vm_compute in H; discriminate.
Qed.

(** *** [normalizeDescription] *)

Lemma upperChar_idem c : JS.upperChar (JS.upperChar c) = JS.upperChar c.
Proof. destruct c as [[] [] [] [] [] [] [] []]; reflexivity. Qed.

(** *** The assembly, field by field *)

(** [normalizeDescription]: never empty, trimmed, capitalised, idempotent. *)
Lemma normalizeDescription_shape value :
  let d := normalizeDescription value in
  1 <= String.length d /\ notLowerFirst d /\ JS.trim d = d /\
  normalizeDescription d = d.
Proof.
  unfold normalizeDescription.
  pose proof (trim_head value) as Hh. pose proof (trim_idem value) as Hi.
  destruct (JS.trim value) as [|c t] eqn:E; simpl JS.isEmpty; cbv iota.
  - cbv zeta. split; [simpl; lia|]. split; [reflexivity|]. split; reflexivity.
  - rewrite capitalize_shape.
    assert (Hend : JS.trimEnd (String c t) = String c t).
    { unfold JS.trim in Hi. rewrite (trimStart_fixed (String c t) Hh) in Hi. exact Hi. }
    assert (Htrim : JS.trim (String (JS.upperChar c) t) = String (JS.upperChar c) t).
    { unfold JS.trim. rewrite trimStart_fixed by (now rewrite upperChar_space).
      now apply trimEnd_fixed_upper. }
    cbv zeta. split; [simpl; lia|]. split; [apply upperChar_not_lower|].
    split; [exact Htrim|]. rewrite Htrim. simpl JS.isEmpty. cbv iota.
    rewrite capitalize_shape, upperChar_idem. reflexivity.
Qed.

Lemma parseReceiptText_fields text w :
  exists r w1 total amountConfidence merchant found e w',
    parseExpenses text w = Ok (r, w1) /\
    findTotalAmount text = Ok (total, amountConfidence) /\
    findMerchant text = Ok merchant /\
    findReceiptDate text = Ok found /\
    parseReceiptText text w = Ok ((e, text), w') /\
    let ruleExpense := nth_error (ParsingResult.expenses r) 0 in
    ParsedExpense.amount e =
      coalesce total (coalesce (option_map ParsedExpense.amount ruleExpense) 0%Q) /\
    ParsedExpense.description e =
      normalizeDescription
        (orString merchant
           (orString (option_map ParsedExpense.description ruleExpense) "Receipt")) /\
    (ParsedExpense.category e, ParsedExpense.confidence e) =
      (if negb (Category_eqb (fst (pickCategoryFromMerchant merchant)) other)
       then pickCategoryFromMerchant merchant
       else (pickCategory (option_map ParsedExpense.category ruleExpense),
             coalesce (option_map ParsedExpense.confidence ruleExpense) amountConfidence)) /\
    ParsedExpense.date e =
      match found with
      | Some dt => dt
      | None => DateAt (wallClock w1 (observations w1))
      end.
Proof.
  unfold parseReceiptText, bind, lift.
  destruct (parseExpenses_run text w) as (r & w1 & cs & Hr & _).
  rewrite Hr. rewrite findTotalAmount_locate.
  destruct (locateTotal extractMoneyValues text) as [total amountConfidence] eqn:Et.
  destruct (findMerchant_total text) as (merchant & Hm). rewrite Hm.
  destruct (findReceiptDate_total text) as (found & Hd). rewrite Hd.
  exists r, w1, total, amountConfidence, merchant, found.
  destruct (pickCategoryFromMerchant merchant) as [mc mconf] eqn:Ep.
  destruct found as [dt|]; simpl; eexists; eexists;
    (split; [reflexivity|]); (split; [reflexivity|]); (split; [reflexivity|]);
    (split; [reflexivity|]); (split; [reflexivity|]); simpl;
    (split; [reflexivity|]); (split; [reflexivity|]);
    (split; [|reflexivity]); destruct (negb (Category_eqb mc other)); reflexivity.
Qed.

Lemma Qlt_0_not_0 (a : Q) : (0 < a)%Q -> a <> 0%Q /\ Qle_bool a 0 = false.
Proof.
  intros H. split.
  - intros ->. now apply Qlt_irrefl in H.
  - destruct (Qle_bool a 0) eqn:E; auto. apply Qle_bool_iff in E.
    exfalso. eapply Qlt_irrefl, Qlt_le_trans; eauto.
Qed.

(** The amount of the receipt expense is 0 when nothing was found, and
    positive otherwise. *)
Lemma parseReceiptText_amount text w :
  exists total amountConfidence cs e w',
    findTotalAmount text = Ok (total, amountConfidence) /\
    extractAmounts (JS.trim text) = Ok cs /\
    parseReceiptText text w = Ok ((e, text), w') /\
    ((total = None /\ (JS.trim text = "" \/ cs = []) /\ ParsedExpense.amount e = 0%Q)
     \/
     ((total <> None \/ (JS.trim text <> "" /\ cs <> [])) /\
      (0 < ParsedExpense.amount e)%Q)).
Proof.
  destruct (parseReceiptText_fields text w)
    as (r & w1 & total & conf & merchant & found & e & w' &
        Hr & Ht & _ & _ & He & Ha & _).
  destruct (parseExpenses_run text w) as (r' & w1' & cs & Hr' & Hcs & _ & Hcases).
  rewrite Hr in Hr'. injection Hr' as <- <-.
  destruct (extractAmounts_run (JS.trim text)) as (_ & cs' & _ & Hcs' & _ & _ & Hb & _).
  rewrite Hcs in Hcs'. injection Hcs' as <-.
  exists total, conf, cs, e, w'. split; [exact Ht|]. split; [exact Hcs|].
  split; [exact He|]. rewrite Ha.
  pose proof (locateTotal_positive text) as Hpos.
  rewrite findTotalAmount_locate in Ht. injection Ht as Ht.
  rewrite Ht in Hpos. simpl in Hpos.
  destruct total as [a|]; simpl.
  - right. split; [left; discriminate|exact Hpos].
  - destruct Hcases as [(Hc & _ & ->)|((Hne & Hcne) & _ & Hbuilt)]; simpl.
    + left. auto.
    + right. split; [right; auto|].
      destruct Hbuilt as [|c e0 cs0 es0 (Hamt & _) Hrest]; [congruence|]. simpl.
      rewrite Hamt. inversion Hb as [|? ? [Hlo _] _]; subst. exact Hlo.
Qed.

(** *** The merchant-based category *)

Lemma hints_nonempty :
  Forall (fun e => Forall (fun k => 3 <= String.length k) (snd e)) MERCHANT_CATEGORY_HINTS.
Proof. vm_compute. repeat constructor. Qed.

Lemma merchantConfidence_range score :
  3 <= score <= tableBound MERCHANT_CATEGORY_HINTS ->
  PrimFloat.leb 0.75 (merchantConfidence score) = true /\
  PrimFloat.leb (merchantConfidence score) 0.9 = true.
Proof.
  intros Hs.
  assert (Hall : forallb (fun n => PrimFloat.leb 0.75 (merchantConfidence n) &&
                                   PrimFloat.leb (merchantConfidence n) 0.9)
                         (seq 3 (tableBound MERCHANT_CATEGORY_HINTS - 2)) = true)
    by (vm_compute; reflexivity).
  rewrite forallb_forall in Hall. specialize (Hall score).
  assert (Hin : In score (seq 3 (tableBound MERCHANT_CATEGORY_HINTS - 2)))
    by (apply in_seq; lia).
  apply Hall in Hin. now apply andb_true_iff in Hin.
Qed.

End ReceiptMore.

(* ================================================================== *)
(** ** Further proofs: the preview's edits *)

Module PreviewProofs.
Import ExpensePreview PreviewFacts.
Local Open Scope list_scope.

Lemma handleUpdateExpense_length id updates prev :
  List.length (handleUpdateExpense id updates prev) = List.length prev.
Proof. unfold handleUpdateExpense. apply length_map. Qed.

Lemma handleUpdateExpense_ids id updates prev :
  Updates.id updates = None ->
  ids (handleUpdateExpense id updates prev) = ids prev.
Proof.
  intros Hid. unfold ids, handleUpdateExpense. rewrite map_map.
  apply map_ext. intros exp. destruct (String.eqb _ _); auto.
  simpl. now rewrite Hid.
Qed.

Lemma handleUpdateExpense_nth id updates prev i exp :
  nth_error prev i = Some exp ->
  nth_error (handleUpdateExpense id updates prev) i =
    Some (if String.eqb (ParsedExpense.id exp) id then applyUpdates exp updates else exp).
Proof.
  intros H. unfold handleUpdateExpense. now rewrite nth_error_map, H.
Qed.

Lemma applyUpdates_idem exp updates :
  applyUpdates (applyUpdates exp updates) updates = applyUpdates exp updates.
Proof.
  unfold applyUpdates. simpl.
  destruct updates as [i a dsc c cf nr dt]; simpl.
  destruct i, a, dsc, c, cf, dt; reflexivity.
Qed.

Lemma handleUpdateExpense_idem id updates prev :
  Updates.id updates = None ->
  handleUpdateExpense id updates (handleUpdateExpense id updates prev) =
  handleUpdateExpense id updates prev.
Proof.
  intros Hid. unfold handleUpdateExpense. rewrite map_map. apply map_ext.
  intros exp. destruct (String.eqb (ParsedExpense.id exp) id) eqn:E.
  - assert (Hsame : ParsedExpense.id (applyUpdates exp updates) = ParsedExpense.id exp)
      by (simpl; now rewrite Hid).
    rewrite Hsame, E. apply applyUpdates_idem.
  - now rewrite E.
Qed.

Lemma handleRemoveExpense_In id prev exp :
  In exp (handleRemoveExpense id prev) <-> In exp prev /\ ParsedExpense.id exp <> id.
Proof.
  unfold handleRemoveExpense. rewrite filter_In.
  destruct (String.eqb_spec (ParsedExpense.id exp) id); simpl; intuition congruence.
Qed.

Lemma handleRemoveExpense_absent id prev :
  ~ In id (ids prev) -> handleRemoveExpense id prev = prev.
Proof.
  unfold ids, handleRemoveExpense. induction prev as [|e l IH]; simpl; auto.
  intros H. destruct (String.eqb_spec (ParsedExpense.id e) id) as [E|E]; simpl.
  - exfalso. apply H. now left.
  - f_equal. apply IH. intros Hin. apply H. now right.
Qed.

(** With distinct identifiers, removing one that is there takes exactly
    that expense out and leaves the others in place. *)
Lemma handleRemoveExpense_split id prev :
  NoDup (ids prev) -> In id (ids prev) ->
  exists before exp after,
    prev = before ++ exp :: after /\ ParsedExpense.id exp = id /\
    handleRemoveExpense id prev = before ++ after.
Proof.
  induction prev as [|e l IH]; simpl; intros Hnd Hin; [contradiction|].
  inversion Hnd as [|? ? Hnot Hnd']; subst.
  unfold handleRemoveExpense. simpl.
  destruct (String.eqb_spec (ParsedExpense.id e) id) as [E|E]; simpl.
  - exists [], e, l. repeat split; auto. simpl.
    apply (handleRemoveExpense_absent id l). now rewrite <- E.
  - destruct Hin as [Hin|Hin]; [contradiction|].
    destruct (IH Hnd' Hin) as (before & exp & after & -> & Hid & Hrm).
    exists (e :: before), exp, after. repeat split; auto. simpl. f_equal. exact Hrm.
Qed.

Lemma handleRemoveExpense_ids id prev :
  ids (handleRemoveExpense id prev) = filter (fun i => negb (String.eqb i id)) (ids prev).
Proof.
  unfold ids, handleRemoveExpense. induction prev as [|e l IH]; simpl; auto.
  destruct (String.eqb (ParsedExpense.id e) id); simpl; now rewrite IH.
Qed.

(** Removing and editing commute when the edit leaves identifiers alone. *)
Lemma remove_update_commute id id' updates prev :
  Updates.id updates = None ->
  handleRemoveExpense id (handleUpdateExpense id' updates prev) =
  handleUpdateExpense id' updates (handleRemoveExpense id prev).
Proof.
  intros Hid. unfold handleRemoveExpense, handleUpdateExpense.
  induction prev as [|e l IH]; simpl; auto.
  assert (Hsame : ParsedExpense.id
                    (if String.eqb (ParsedExpense.id e) id'
                     then applyUpdates e updates else e) = ParsedExpense.id e).
  { destruct (String.eqb _ _); simpl; auto. now rewrite Hid. }
  rewrite Hsame. destruct (String.eqb (ParsedExpense.id e) id); simpl; now rewrite IH.
Qed.

End PreviewProofs.

(* ================================================================== *)
(** ** Further proofs: global replacement by tokens *)

Module ScanProofs.
Import Regex RegexFacts RegexProofs FuelFacts FuelProofs TextProofs ScanFacts.
Local Open Scope list_scope.

Lemma filter_all {A : Type} (l : list A) : filter (fun _ => true) l = l.
Proof. induction l as [|x l IH]; simpl; auto. now rewrite IH. Qed.

Lemma clear_caps_nil x : clear_caps [] x = x.
Proof. destruct x as [p r i c]. unfold clear_caps. simpl. now rewrite filter_all. Qed.

Lemma spanOf_length C t :
  String.length (fst (spanOf C t)) <= String.length t.
Proof.
  induction t as [|a t IH]; simpl; auto.
  destruct (C a); simpl; [|lia]. destruct (spanOf C t). simpl in *. lia.
Qed.

(** *** What the matcher does on a class and on a run of a class *)

Section Run.
Variable C : ascii -> bool.
Variable m : cont -> cont.
Hypothesis m_char : forall k p a t i c,
  m k (MS p (String a t) i c) = if C a then k (MS (Some a) t (S i) c) else None.
Hypothesis m_end : forall k p i c, m k (MS p EmptyString i c) = None.

(** A greedy run of a class takes the longest prefix of the class. *)
Lemma repeat_run : forall t fuel mn p i c,
  mn + String.length t <= fuel ->
  let n := String.length (fst (spanOf C t)) in
  match repeat m [] true Some fuel mn None (MS p t i c) with
  | Some y => mn <= n /\ idx y = i + n /\ caps y = c
  | None => n < mn
  end.
Proof.
  induction t as [|a t IH]; intros fuel mn p i c Hf.
  - destruct fuel as [|fuel]; destruct mn as [|mn]; cbn [repeat];
      rewrite ?clear_caps_nil, ?m_end; simpl in *; repeat split; auto; lia.
  - destruct fuel as [|fuel]; [simpl in Hf; lia|].
    cbn [repeat]. rewrite clear_caps_nil, m_char.
    cbn [spanOf]. destruct (C a) eqn:Ea.
    + cbn [idx].
      specialize (IH fuel (pred mn) (Some a) (S i) c).
      destruct (spanOf C t) as [run r] eqn:Es.
      cbn [fst String.length] in *.
      assert (Hne : (S i =? i) = false) by (apply Nat.eqb_neq; lia).
      destruct mn as [|mn];
        [change (0 =? 0) with true|change (S mn =? 0) with false];
        cbn [negb andb pred option_map] in *; rewrite ?Hne.
      * 
        destruct (repeat m [] true Some fuel 0 None _) as [y|].
        { destruct IH as (H1 & H2 & H3); [simpl in Hf; lia|]. repeat split; auto; lia. }
        { assert (String.length run < 0) by (apply IH; simpl in Hf; lia). lia. }
      * destruct (repeat m [] true Some fuel mn None _) as [y|].
        { destruct IH as (H1 & H2 & H3); [simpl in Hf; lia|]. repeat split; auto; lia. }
        { assert (String.length run < mn) by (apply IH; simpl in Hf; lia). lia. }
    + cbn [fst String.length]. destruct mn as [|mn]; cbn [Nat.eqb negb].
      * simpl. repeat split; auto; lia.
      * lia.
Qed.

End Run.

Lemma take_length n t : n <= String.length t -> String.length (JS.take n t) = n.
Proof.
  revert t. induction n as [|n IH]; intros [|a t] H; simpl in *; auto; try lia.
  rewrite IH; lia.
Qed.

(** A pattern [C{mn,}] scans by runs of the class. *)
Lemma scans_run re negated items mn :
  source re = Rep (Cls negated items) mn None true ->
  scans re (runOf (classTest (ignoreCase re) negated items) mn).
Proof.
  intros Hs p t i. unfold match_here, runOf. rewrite Hs. cbn [rmatch groups rest].
  pose proof (repeat_run (classTest (ignoreCase re) negated items)
                (rmatch (ignoreCase re) (Cls negated items))
                ltac:(intros; reflexivity) ltac:(intros; reflexivity)
                t (mn + String.length t) mn p i [] (le_n _)) as H.
  cbv zeta in H.
  destruct (repeat _ _ _ _ _ _ _ _) as [y|].
  - destruct H as (H1 & H2 & H3). apply Nat.leb_le in H1. rewrite H1. simpl.
    rewrite H2, H3. f_equal. f_equal. f_equal. lia.
  - apply Nat.leb_gt in H. rewrite H. reflexivity.
Qed.

(** A pattern made of one class, or of one character, scans by single
    characters. *)
Lemma scans_class re negated items :
  source re = Cls negated items ->
  scans re (oneOf (classTest (ignoreCase re) negated items)).
Proof.
  intros Hs p t i. unfold match_here, oneOf. rewrite Hs. cbn [rmatch rest].
  destruct t as [|a t]; [reflexivity|].
  fold (classTest (ignoreCase re) negated items a).
  destruct (classTest _ _ _ a); [|reflexivity].
  unfold advance. cbn [option_map idx caps].
  replace (S i - i) with 1 by lia. replace (i + 1) with (S i) by lia. reflexivity.
Qed.

Lemma scans_chr re c :
  source re = Chr c ->
  scans re (oneOf (fun a => Ascii.eqb (canon (ignoreCase re) a) (canon (ignoreCase re) c))).
Proof.
  intros Hs p t i. unfold match_here, oneOf. rewrite Hs. cbn [rmatch rest].
  destruct t as [|a t]; [reflexivity|].
  destruct (Ascii.eqb _ _); [|reflexivity].
  unfold advance. cbn [option_map idx caps].
  replace (S i - i) with 1 by lia. replace (i + 1) with (S i) by lia. reflexivity.
Qed.

Lemma proper_oneOf C : proper (oneOf C).
Proof.
  intros [|a t] n; simpl; [discriminate|].
  destruct (C a); [|discriminate]. intros H. injection H as <-. lia.
Qed.

Lemma proper_runOf C mn : 1 <= mn -> proper (runOf C mn).
Proof.
  intros Hmn t n. unfold runOf.
  destruct (Nat.leb_spec mn (String.length (fst (spanOf C t)))); [|discriminate].
  intros H0. injection H0 as <-. pose proof (spanOf_length C t). lia.
Qed.

(** *** Global replacement, token by token *)

Lemma drop_S li text a t' :
  JS.drop li text = String a t' -> JS.drop (S li) text = t'.
Proof.
  revert text. induction li as [|li IH]; intros [|b text] H; simpl in *;
    try discriminate.
  - injection H as _ H. exact H.
  - now apply IH.
Qed.

Lemma drop_drop k : forall li text,
  JS.drop k (JS.drop li text) = JS.drop (li + k) text.
Proof.
  induction li as [|li IH]; intros text; simpl; auto.
  destruct text as [|b text]; simpl; auto. destruct k; reflexivity.
Qed.

Lemma length_drop k : forall t, String.length (JS.drop k t) = String.length t - k.
Proof.
  induction k as [|k IH]; intros [|a t]; simpl; auto.
Qed.

Section Replace.
Variable re : RegExp.
Variable f : string -> option nat.
Hypothesis Hscan : scans re f.
Hypothesis Hproper : proper f.

Lemma search_prev p p' t i : search re p t i = search re p' t i.
Proof. destruct t; simpl; rewrite !Hscan; reflexivity. Qed.

Lemma search_head p t i :
  search re p t i =
  match f t with
  | Some n => Some {| index := i; matched := JS.take n t;
                      captures := []; endIndex := i + n |}
  | None =>
      match t with
      | EmptyString => None
      | String a t' => search re None t' (S i)
      end
  end.
Proof.
  destruct t as [|a t]; simpl; rewrite Hscan; destruct (f _); simpl; auto.
  apply search_prev.
Qed.

Lemma exec_from_drop : forall li t p i, li <= String.length t ->
  exec_from re p t i li = search re None (JS.drop li t) (i + li).
Proof.
  induction li as [|li IH]; intros t p i H.
  - simpl. rewrite Nat.add_0_r. destruct t; apply search_prev.
  - destruct t as [|a t]; simpl in *; [lia|].
    rewrite IH by lia. f_equal. lia.
Qed.

Lemma splice_shift text a t' li ms by_ :
  JS.drop li text = String a t' ->
  match ms with
  | [] => True
  | m :: _ => S li <= index m
  end ->
  splice text li ms by_ = String a (splice text (S li) ms by_).
Proof.
  intros Hd Hm. destruct ms as [|m ms]; simpl.
  - rewrite Hd. f_equal. symmetry. now apply drop_S in Hd.
  - unfold JS.substring. rewrite Hd, (drop_S _ _ _ _ Hd).
    replace (index m - li) with (S (index m - S li)) by lia. reflexivity.
Qed.

Lemma replace_from text by_ : forall n t li F G,
  String.length t <= n -> JS.drop li text = t ->
  li + String.length t = String.length text ->
  S (String.length t) <= F -> String.length t <= G ->
  splice text li (all_from F re text li) by_ = substitute f by_ G t.
Proof.
  induction n as [|n IH]; intros t li F G Hn Hd Hl HF HG.
  - destruct t as [|a t]; [|simpl in Hn; lia].
    destruct F as [|F]; [lia|]. cbn [all_from].
    rewrite exec_from_drop by lia. rewrite Hd, search_head.
    destruct (f "") as [k|] eqn:Ef.
    + apply Hproper in Ef. simpl in Ef. lia.
    + simpl. rewrite Hd. destruct G; reflexivity.
  - destruct t as [|a t].
    + destruct F as [|F]; [lia|]. cbn [all_from].
      rewrite exec_from_drop by lia. rewrite Hd, search_head.
      destruct (f "") as [k|] eqn:Ef.
      * apply Hproper in Ef. simpl in Ef. lia.
      * simpl. rewrite Hd. destruct G; reflexivity.
    + destruct F as [|F]; [lia|]. destruct G as [|G]; [simpl in HG; lia|].
      cbn [substitute].
      destruct (f (String a t)) as [k|] eqn:Ef.
      * cbn [all_from].
        rewrite exec_from_drop by lia. rewrite Hd, search_head, Ef.
        pose proof (Hproper _ _ Ef) as Hk. cbn [index endIndex].
        replace (0 + li + k =? 0 + li) with false
          by (symmetry; apply Nat.eqb_neq; lia).
        cbn [splice index endIndex]. unfold JS.substring.
        replace (0 + li - li) with 0 by lia. cbn [JS.take].
        change ("" ++ ?x)%string with x. f_equal.
        apply IH.
        -- rewrite length_drop. cbn [String.length] in *. lia.
        -- rewrite <- Hd, drop_drop. f_equal; lia.
        -- rewrite length_drop. cbn [String.length] in *. lia.
        -- rewrite length_drop. cbn [String.length] in *. lia.
        -- rewrite length_drop. cbn [String.length] in *. lia.
      * assert (Hsame : all_from (S F) re text li = all_from (S F) re text (S li)).
        { cbn [all_from]. cbn [String.length] in Hl.
          rewrite !exec_from_drop by lia.
          rewrite Hd, (drop_S _ _ _ _ Hd), search_head, Ef.
          replace (0 + S li) with (S (0 + li)) by lia. reflexivity. }
        rewrite Hsame.
        rewrite (splice_shift text a t li _ by_ Hd).
        -- f_equal. cbn [String.length] in *.
           apply IH; try lia. now apply drop_S in Hd.
        -- cbn [all_from].
           destruct (exec_from re None text 0 (S li)) as [m|] eqn:E; auto.
           apply (exec_from_ok 0) in E. destruct E as (Hi & _). simpl in Hi. exact Hi.
Qed.

(** [text.replace(re, by_)] for a global pattern that scans by tokens. *)
Lemma replace_scans by_ text : global re = true ->
  replace re by_ text = substitute f by_ (String.length text) text.
Proof.
  intros Hg. unfold replace, matchAll. rewrite Hg.
  apply (replace_from text by_ (String.length text)); auto.
Qed.

End Replace.

End ScanProofs.

(* ================================================================== *)
(** ** Further proofs: what a replacement keeps *)

Module SubstituteProofs.
Import Regex RegexFacts RegexProofs RegexSound TextProofs ScanFacts ScanProofs.
Local Open Scope list_scope.

Lemma chars_app a b : chars (a ++ b) = chars a ++ chars b.
Proof. unfold chars. induction a as [|c a IH]; simpl; auto. now rewrite IH. Qed.

Lemma take_drop n : forall t, (JS.take n t ++ JS.drop n t)%string = t.
Proof. induction n as [|n IH]; intros [|a t]; simpl; auto. now rewrite IH. Qed.

Lemma chars_drop n t a : In a (chars (JS.drop n t)) -> In a (chars t).
Proof.
  intros H. rewrite <- (take_drop n t), chars_app. apply in_or_app. now right.
Qed.

Lemma spanOf_split C : forall t,
  t = (fst (spanOf C t) ++ snd (spanOf C t))%string /\
  Forall (fun a => C a = true) (chars (fst (spanOf C t))).
Proof.
  induction t as [|a t [IH1 IH2]]; simpl; [split; [auto|constructor]|].
  destruct (C a) eqn:Ea; [|split; [auto|constructor]].
  destruct (spanOf C t) as [run r]. simpl in *. split; [now rewrite <- IH1|].
  constructor; auto.
Qed.

Lemma spanOf_take C t :
  JS.take (String.length (fst (spanOf C t))) t = fst (spanOf C t) /\
  JS.drop (String.length (fst (spanOf C t))) t = snd (spanOf C t).
Proof.
  destruct (spanOf_split C t) as [H _].
  destruct (spanOf C t) as [run r]. simpl in *. subst t.
  split; [apply take_app_length|apply drop_app_length].
Qed.

Lemma keep_app C a b : keep C (a ++ b) = (keep C a ++ keep C b)%string.
Proof. induction a as [|c a IH]; simpl; auto. destruct (C c); simpl; now rewrite IH. Qed.

Lemma keep_none C t : Forall (fun a => C a = false) (chars t) -> keep C t = EmptyString.
Proof.
  unfold chars. induction t as [|a t IH]; simpl; auto.
  intros H. inversion H as [|? ? Ha Ht]; subst. rewrite Ha. auto.
Qed.

Lemma keep_chars C t a : In a (chars (keep C t)) <-> In a (chars t) /\ C a = true.
Proof.
  unfold chars. induction t as [|b t IH]; simpl; [tauto|].
  destruct (C b) eqn:Eb; simpl; rewrite IH; intuition (subst; congruence).
Qed.

Lemma within_oneOf C : within C (oneOf C).
Proof.
  intros [|a t] n; simpl; [discriminate|]. destruct (C a) eqn:Ea; [|discriminate].
  intros H. injection H as <-. simpl. repeat constructor. exact Ea.
Qed.

Lemma within_runOf C mn : within C (runOf C mn).
Proof.
  intros t n. unfold runOf. destruct (_ <=? _); [|discriminate].
  intros H. injection H as <-. destruct (spanOf_take C t) as [-> _].
  apply spanOf_split.
Qed.

Section Substitute.
Variable f : string -> option nat.
Variable by_ : string.

(** Nothing is invented: a character of the result comes from the text or
    from the replacement. *)
Lemma substitute_chars a : forall G t,
  In a (chars (substitute f by_ G t)) -> In a (chars t) \/ In a (chars by_).
Proof.
  induction G as [|G IH]; intros t H; simpl in H; auto.
  destruct t as [|b t]; auto.
  destruct (f (String b t)) as [n|].
  - rewrite chars_app in H. apply in_app_or in H. destruct H as [H|H]; auto.
    apply IH in H. destruct H as [H|H]; auto. left. eapply chars_drop; eauto.
  - simpl in H. destruct H as [H|H]; [left; now left|].
    apply IH in H. destruct H as [H|H]; auto. left. now right.
Qed.

(** What is outside the class of the tokens stays. *)
Lemma substitute_keeps C a : within C f -> C a = false -> forall G t,
  In a (chars t) -> In a (chars (substitute f by_ G t)).
Proof.
  intros Hw Ha. induction G as [|G IH]; intros t H; simpl; auto.
  destruct t as [|b t]; auto.
  destruct (f (String b t)) as [n|] eqn:Ef.
  - rewrite chars_app. apply in_or_app. right. apply IH.
    rewrite <- (take_drop n (String b t)), chars_app in H.
    apply in_app_or in H. destruct H as [H|H]; auto.
    apply Hw in Ef. rewrite Forall_forall in Ef. apply Ef in H. congruence.
  - simpl in H. destruct H as [H|H]; [now left|]. right. now apply IH.
Qed.

End Substitute.

(** Removing the characters of a class one by one, or run by run, keeps
    the others. *)
Lemma substitute_oneOf_keep C : forall G t, String.length t <= G ->
  substitute (oneOf C) "" G t = keep (fun a => negb (C a)) t.
Proof.
  induction G as [|G IH]; intros [|a t] H; simpl in *; auto; try lia.
  destruct (C a); simpl; rewrite IH by lia; reflexivity.
Qed.

Lemma substitute_runOf_keep C : forall G t, String.length t <= G ->
  substitute (runOf C 1) "" G t = keep (fun a => negb (C a)) t.
Proof.
  induction G as [|G IH]; intros [|a t] H; cbn [substitute keep]; auto;
    [simpl in H; lia|].
  unfold runOf. cbn [spanOf].
  destruct (C a) eqn:Ea; cbn [negb].
  - destruct (spanOf C t) as [run r] eqn:Es. cbn [fst String.length Nat.leb].
    cbn [JS.drop]. change ("" ++ ?x)%string with x.
    destruct (spanOf_take C t) as [_ Hdrop]. rewrite Es in Hdrop. simpl in Hdrop.
    rewrite Hdrop.
    destruct (spanOf_split C t) as [Hsplit Hall]. rewrite Es in Hsplit, Hall.
    simpl in Hsplit, Hall.
    rewrite IH.
    + transitivity (keep (fun c => negb (C c)) (run ++ r)); [|now rewrite <- Hsplit].
      rewrite keep_app, (keep_none _ run); [reflexivity|].
      eapply Forall_impl; [|exact Hall]. simpl. intros c ->. reflexivity.
    + rewrite Hsplit in H. simpl in H. rewrite length_app in H. lia.
  - cbn [fst String.length Nat.leb]. rewrite IH by (simpl in H; lia). reflexivity.
Qed.

(** *** [trim] and the characters *)

Lemma trimStart_chars t a : In a (chars (JS.trimStart t)) -> In a (chars t).
Proof.
  unfold chars. induction t as [|b t IH]; simpl; auto.
  destruct (JS.isSpace b); simpl; auto.
Qed.

Lemma trimEnd_chars t a : In a (chars (JS.trimEnd t)) -> In a (chars t).
Proof.
  unfold chars. induction t as [|b t IH]; simpl; auto.
  destruct (JS.trimEnd t) as [|c t'] eqn:E.
  - destruct (JS.isSpace b); simpl; tauto.
  - simpl in *. tauto.
Qed.

Lemma trimStart_keeps t a :
  In a (chars t) -> JS.isSpace a = false -> In a (chars (JS.trimStart t)).
Proof.
  unfold chars. induction t as [|b t IH]; simpl; auto.
  intros [->|H] Ha.
  - rewrite Ha. now left.
  - destruct (JS.isSpace b); simpl; auto.
Qed.

Lemma trimEnd_keeps t a :
  In a (chars t) -> JS.isSpace a = false -> In a (chars (JS.trimEnd t)).
Proof.
  unfold chars. induction t as [|b t IH]; simpl; auto.
  intros [->|H] Ha.
  - destruct (JS.trimEnd t); [rewrite Ha|]; now left.
  - specialize (IH H Ha). destruct (JS.trimEnd t) as [|c t']; [contradiction|].
    now right.
Qed.

Lemma trim_chars t a : In a (chars (JS.trim t)) -> In a (chars t).
Proof. unfold JS.trim. intros H. apply trimStart_chars, trimEnd_chars. exact H. Qed.

Lemma trim_keeps t a :
  In a (chars t) -> JS.isSpace a = false -> In a (chars (JS.trim t)).
Proof.
  unfold JS.trim. intros H Ha. apply trimEnd_keeps; auto. apply trimStart_keeps; auto.
Qed.

End SubstituteProofs.

(* ================================================================== *)
(** ** Further proofs: the merchant's name *)

Module MerchantProofs.
Import Regex RegexFacts RegexProofs TextProofs ScanFacts ScanProofs SubstituteProofs.
Import ReceiptOcr ReceiptFacts ReceiptProofs MerchantFacts.
Local Open Scope list_scope.

Lemma search_oneOf re C : scans re (oneOf C) ->
  forall t p i m, search re p t i = Some m ->
  exists a, In a (chars t) /\ C a = true.
Proof.
  intros Hs. induction t as [|a t IH]; intros p i m H;
    rewrite (search_head re _ Hs) in H; simpl in H; [discriminate|].
  destruct (C a) eqn:Ea.
  - exists a. split; auto. now left.
  - apply IH in H. destruct H as (b & Hb & Hc). exists b. split; auto. now right.
Qed.

Lemma test_letter line : test letter line = true ->
  exists a, In a (chars line) /\ isLetter a = true.
Proof.
  unfold test. destruct (search letter None line 0) as [m|] eqn:E; [|discriminate].
  intros _. exact (search_oneOf letter _ (scans_class letter _ _ eq_refl) _ _ _ _ E).
Qed.

(** Letters are name characters, and neither digits nor white space. *)
Lemma letter_facts a : isLetter a = true ->
  nameChar a = true /\ classTest false false [Digit] a = false /\
  classTest false false [Space] a = false /\ JS.isSpace a = false.
Proof.
  destruct a as [[] [] [] [] [] [] [] []]; intros H;
    try (vm_compute in H; discriminate); vm_compute; auto.
Qed.

Lemma space_nameChar : nameChar " " = true.
Proof. reflexivity. Qed.

Lemma replace_digitsG line :
  replace digitsG "" line = keep (fun a => negb (classTest false false [Digit] a)) line.
Proof.
  rewrite (replace_scans digitsG _ (scans_run digitsG _ _ _ eq_refl)
             (proper_runOf _ 1 (le_n 1)) "" line eq_refl).
  apply substitute_runOf_keep. auto.
Qed.

Lemma replace_notNameChar line :
  replace notNameChar "" line = keep nameChar line.
Proof.
  rewrite (replace_scans notNameChar _ (scans_class notNameChar _ _ eq_refl)
             (proper_oneOf _) "" line eq_refl).
  apply substitute_oneOf_keep. auto.
Qed.

Lemma replace_wideSpace line :
  replace wideSpace " " line =
  substitute (runOf (classTest false false [Space]) 2) " " (String.length line) line.
Proof.
  exact (replace_scans wideSpace _ (scans_run wideSpace _ _ _ eq_refl)
           (proper_runOf _ 2 ltac:(lia)) " " line eq_refl).
Qed.

(** The name kept for a line that has a letter. *)
Lemma merchantScore_name line :
  (exists a, In a (chars line) /\ isLetter a = true) ->
  (exists a, In a (chars (fst (merchantScore line))) /\ isLetter a = true) /\
  Forall (fun a => nameChar a = true) (chars (fst (merchantScore line))).
Proof.
  intros (a & Hin & Ha). destruct (letter_facts a Ha) as (Hn & Hd & _ & Hs).
  unfold merchantScore. cbv zeta. cbn [fst].
  rewrite replace_digitsG, replace_notNameChar.
  set (normalized := JS.trim _).
  assert (Hletter : In a (chars normalized)).
  { apply trim_keeps; auto. apply keep_chars. split; auto.
    apply keep_chars. split; auto. now rewrite Hd. }
  assert (Hne : JS.isEmpty normalized = false).
  { destruct normalized; [contradiction|reflexivity]. }
  unfold JS.orElse. rewrite Hne. split; [eauto|].
  apply Forall_forall. intros c Hc. apply trim_chars, keep_chars in Hc. tauto.
Qed.

Lemma insertByScore_In x y : forall l, In y (insertByScore x l) <-> y = x \/ In y l.
Proof.
  induction l as [|z l IH]; simpl; [intuition|].
  destruct (snd z <=? snd x); simpl; [intuition|]. rewrite IH. intuition.
Qed.

Lemma sortByScore_In y : forall l, In y (sortByScore l) <-> In y l.
Proof.
  induction l as [|x l IH]; simpl; [tauto|].
  unfold sortByScore in *. simpl. rewrite insertByScore_In, IH. intuition.
Qed.

(** What [findMerchant] returns. *)
Lemma findMerchant_name text :
  exists r, findMerchant text = Ok r /\ forall name, r = Some name -> merchantName name.
Proof.
  unfold findMerchant.
  set (candidates := filter _ (filter (test letter) _)).
  assert (Hcand : forall line, In line candidates -> test letter line = true).
  { intros line H. unfold candidates in H.
    apply filter_In in H. destruct H as [H _].
    apply filter_In in H. tauto. }
  clearbody candidates. cbv zeta.
  destruct candidates as [|c cs]; [exists None; split; [reflexivity|discriminate]|].
  change (List.length (c :: cs) =? 0) with false. cbv iota.
  destruct (nth_error (sortByScore (map merchantScore (c :: cs))) 0) as [first|] eqn:E.
  - cbn [deref rbind]. eexists. split; [reflexivity|].
    intros name Hname. injection Hname as <-.
    apply nth_error_In, sortByScore_In, in_map_iff in E.
    destruct E as (line & <- & Hline).
    destruct (merchantScore_name line (test_letter line (Hcand line Hline)))
      as ((a & Hin & Ha) & Hall).
    destruct (letter_facts a Ha) as (_ & _ & Hsp & Hs).
    rewrite replace_wideSpace. split; [|split].
    + exists a. split; auto. apply trim_keeps; auto.
      apply (substitute_keeps _ _ _ a (within_runOf _ 2) Hsp). exact Hin.
    + apply Forall_forall. intros c0 Hc. apply trim_chars, substitute_chars in Hc.
      destruct Hc as [Hc|Hc].
      * rewrite Forall_forall in Hall. now apply Hall.
      * simpl in Hc. destruct Hc as [<-|[]]. reflexivity.
    + apply trim_idem.
  - exfalso.
    assert (Hlen : sortByScore (map merchantScore (c :: cs)) = []).
    { destruct (sortByScore _); [reflexivity|discriminate]. }
    unfold sortByScore in Hlen. simpl in Hlen.
    now apply insertByScore_nonempty in Hlen.
Qed.

End MerchantProofs.

(* ================================================================== *)
(** ** Further proofs: the money values of a receipt *)

Module MoneyProofs.
Import Regex RegexFacts RegexProofs RegexLang RegexSound TextProofs.
Import ScanFacts ScanProofs SubstituteProofs NumeralFacts NumeralProofs DateProofs.
Import ReceiptOcr ReceiptFacts ReceiptProofs MoneyFacts.
Local Open Scope list_scope.

Lemma captures_in_any ic g : forall r, captures_in ic g (fun _ => True) r.
Proof. induction r; simpl; auto. Qed.

(** Every match of a global scan lies in the text and is in the language of
    the pattern. *)
Lemma all_from_sound g P re text :
  captures_in (ignoreCase re) g P (source re) ->
  forall F li, Forall (found_in g P re text 0) (all_from F re text li).
Proof.
  intros Hc. induction F as [|F IH]; intros li; simpl; [constructor|].
  destruct (exec_from re None text 0 li) as [m|] eqn:E; [|constructor].
  constructor; [|apply IH]. now apply (exec_from_sound g P re Hc) in E.
Qed.

(** *** The shape of a money token *)

Lemma allDigits_chars t : allDigits t <-> Forall (fun a => JS.isDigit a = true) (chars t).
Proof. reflexivity. Qed.

Lemma lang_comma ic w : lang ic (Chr ",") w -> w = ","%string.
Proof.
  intros (a & -> & Ha). f_equal. unfold canon in Ha. destruct ic; auto.
  destruct a as [[] [] [] [] [] [] [] []];
    try reflexivity; vm_compute in Ha; discriminate.
Qed.

(** The thousands groups [(?:,\d{3})*]: what is left of them without their
    commas is digits, and nothing when there is no comma. *)
Lemma lang_thousands ic w : lang ic (star (cat [Chr ","; times 3 d])) w ->
  Forall (fun a => moneyChar a = true) (chars w) /\
  allDigits (keep (fun a => negb (isComma a)) w) /\
  (Forall (fun a => isComma a = false) (chars w) -> w = EmptyString).
Proof.
  intros (ws & -> & Hall & _). induction Hall as [|g ws Hg _ IH]; simpl.
  - repeat split; auto; constructor.
  - destruct IH as (IH1 & IH2 & IH3).
    change (lang ic (Seq (Chr ",") (times 3 d)) g) in Hg.
    destruct Hg as (w1 & w2 & -> & Hw1 & Hw2).
    apply lang_comma in Hw1. subst w1.
    change (lang ic (Rep d 3 (Some 3) true) w2) in Hw2.
    apply lang_digits in Hw2. destruct Hw2 as (Hd & _).
    assert (Hmoney : Forall (fun a => moneyChar a = true) (chars w2)).
    { eapply Forall_impl; [|exact Hd]. clear.
      intros a H. destruct a as [[] [] [] [] [] [] [] []];
        try (vm_compute in H; discriminate); reflexivity. }
    assert (Hkeep : keep (fun a => negb (isComma a)) w2 = w2).
    { clear -Hd. unfold allDigits in Hd. induction w2 as [|a w IH]; simpl; auto.
      inversion Hd as [|? ? Ha Hw]; subst.
      assert (isComma a = false).
      { clear -Ha. destruct a as [[] [] [] [] [] [] [] []];
          try (vm_compute in Ha; discriminate); reflexivity. }
      rewrite H. simpl. now rewrite IH. }
    split; [|split].
    + simpl. constructor; [reflexivity|]. rewrite chars_app.
      apply Forall_app. auto.
    + simpl. rewrite keep_app, Hkeep. now apply allDigits_app.
    + simpl. intros H. inversion H as [|? ? Hc _]. vm_compute in Hc. discriminate.
Qed.

Lemma keep_all C t : Forall (fun a => C a = true) (chars t) -> keep C t = t.
Proof.
  unfold chars. induction t as [|a t IH]; simpl; auto.
  intros H. inversion H as [|? ? Ha Ht]; subst. rewrite Ha. now rewrite IH.
Qed.

Lemma digit_money a : JS.isDigit a = true -> moneyChar a = true /\ isComma a = false.
Proof.
  destruct a as [[] [] [] [] [] [] [] []]; intros H;
    try (vm_compute in H; discriminate); split; reflexivity.
Qed.

Lemma digits_money t : allDigits t ->
  Forall (fun a => moneyChar a = true) (chars t) /\
  Forall (fun a => negb (isComma a) = true) (chars t).
Proof.
  intros H. split; (eapply Forall_impl; [|exact H]); intros a Ha;
    destruct (digit_money a Ha) as [H1 H2]; auto. now rewrite H2.
Qed.

Lemma replace_notMoneyChar w : replace notMoneyChar "" w = keep moneyChar w.
Proof.
  rewrite (replace_scans notMoneyChar _ (scans_class notMoneyChar _ _ eq_refl)
             (proper_oneOf _) "" w eq_refl).
  apply substitute_oneOf_keep. auto.
Qed.

Lemma replace_comma w : replace comma "" w = keep (fun a => negb (isComma a)) w.
Proof.
  rewrite (replace_scans comma _ (scans_chr comma _ eq_refl)
             (proper_oneOf _) "" w eq_refl).
  apply substitute_oneOf_keep. auto.
Qed.

(** A money token, cleaned as [parseMoney] cleans it, is a numeral; without
    a comma it has at most three digits before its fraction. *)
Lemma moneyToken_cleaned w : lang false (source moneyToken) w ->
  exists ds fr,
    replace comma "" (replace notMoneyChar "" w) = (ds ++ fr)%string /\
    allDigits ds /\ 1 <= String.length ds /\
    (fr = EmptyString \/
     exists d2, fr = String "."%char d2 /\ allDigits d2 /\ String.length d2 = 2) /\
    (Forall (fun a => isComma a = false) (chars w) -> String.length ds <= 3).
Proof.
  intros (w1 & w23 & -> & H1 & (w2 & w3 & -> & H2 & H3)).
  change (lang false (Rep d 1 (Some 3) true) w1) in H1.
  apply (lang_short false 1 3) in H1; [|lia]. destruct H1 as (Hd1 & Hlo & Hhi).
  apply lang_thousands in H2. destruct H2 as (Hm2 & Hd2 & Hnone).
  apply lang_fraction in H3.
  assert (Hfr : Forall (fun a => moneyChar a = true) (chars w3) /\
                keep (fun a => negb (isComma a)) w3 = w3).
  { destruct H3 as [->|(d2 & -> & Hdd & _)]; [split; [constructor|reflexivity]|].
    destruct (digits_money d2 Hdd) as [Hmm Hcc]. split.
    - constructor; [reflexivity|exact Hmm].
    - simpl. change (isComma ".") with false. simpl. now rewrite keep_all. }
  destruct Hfr as (Hm3 & Hk3).
  destruct (digits_money w1 Hd1) as [Hm1 Hc1].
  assert (Hall : Forall (fun a => moneyChar a = true) (chars (w1 ++ w2 ++ w3))).
  { rewrite !chars_app. apply Forall_app. split; [exact Hm1|].
    apply Forall_app. split; [exact Hm2|exact Hm3]. }
  rewrite replace_notMoneyChar, (keep_all moneyChar _ Hall), replace_comma.
  rewrite !keep_app, (keep_all _ w1 Hc1), Hk3.
  exists (w1 ++ keep (fun a => negb (isComma a)) w2)%string, w3.
  split; [now rewrite app_assoc_s|].
  split; [now apply allDigits_app|].
  split; [rewrite length_app; lia|].
  split; [exact H3|].
  intros Hno. rewrite !chars_app in Hno. apply Forall_app in Hno.
  destruct Hno as [_ Hno]. apply Forall_app in Hno. destruct Hno as [Hno _].
  rewrite (Hnone Hno). simpl. rewrite app_empty_r. exact Hhi.
Qed.

(** *** The values *)

(** The value read from a numeral with [n] digits before its fraction is
    below [10 ^ n]. *)
Lemma parseFloat_below ds fr :
  allDigits ds -> 1 <= String.length ds ->
  (fr = EmptyString \/
   exists d2, fr = String "."%char d2 /\ allDigits d2 /\ String.length d2 = 2) ->
  exists v, Num.parseFloat (ds ++ fr) = Some v /\ wholeCents v /\
            (v < inject_Z (10 ^ Z.of_nat (String.length ds)))%Q.
Proof.
  intros Hds Hlen Hfr.
  destruct (parseFloat_numeral (ds ++ fr)) as (v & Hv & Hc).
  { exists ds, fr. auto. }
  exists v. split; [exact Hv|]. split; [exact Hc|].
  unfold Num.parseFloat in Hv.
  assert (Hts : JS.trimStart (ds ++ fr) = (ds ++ fr)%string).
  { apply trimStart_fixed. destruct ds as [|c ds]; simpl in *; [lia|].
    apply digit_not_space. unfold allDigits in Hds. simpl in Hds. now inversion Hds. }
  rewrite Hts in Hv.
  assert (Hnonempty : JS.isEmpty ds = false) by (destruct ds; simpl in *; [lia|auto]).
  pose proof (Z.pow_pos_nonneg 10 (Z.of_nat (String.length ds))
                ltac:(lia) ltac:(lia)) as Hpos.
  destruct Hfr as [->|(d2 & -> & Hd2 & Hl2)].
  - rewrite spanDigits_digits in Hv by (simpl; auto). rewrite Hnonempty in Hv.
    cbn [andb JS.isEmpty String.length Num.pow10] in Hv. injection Hv as <-.
    apply (proj2 (Qlt_compat _ _
                    (Qred_correct (Z.of_N (Num.digitsValue (ds ++ "")) # 1))
                    _ _ (Qeq_refl _))).
    rewrite app_empty_r.
    pose proof (digitsValue_bound ds Hds) as Hb.
    unfold Qlt, inject_Z. simpl. lia.
  - rewrite spanDigits_digits in Hv by (simpl; auto; reflexivity).
    cbv beta iota in Hv.
    assert (Hsp : Num.spanDigits d2 = (d2, EmptyString)).
    { rewrite <- (app_empty_r d2) at 1. apply spanDigits_digits; simpl; auto. }
    rewrite Hsp in Hv. cbn [fst] in Hv. rewrite Hnonempty in Hv. cbn [andb] in Hv.
    injection Hv as <-.
    apply (proj2 (Qlt_compat _ _
                    (Qred_correct (Z.of_N (Num.digitsValue (ds ++ d2))
                                   # Num.pow10 (String.length d2)))
                    _ _ (Qeq_refl _))).
    rewrite Hl2.
    pose proof (digitsValue_bound (ds ++ d2) (allDigits_app _ _ Hds Hd2)) as Hb.
    rewrite length_app, Hl2, Nat2Z.inj_add, Z.pow_add_r in Hb by lia.
    change (10 ^ Z.of_nat 2)%Z with 100%Z in Hb.
    unfold Qlt, inject_Z. simpl. lia.
Qed.

Lemma includes_comma text : JS.includes text "," = false ->
  Forall (fun a => isComma a = false) (chars text).
Proof.
  unfold chars. induction text as [|a t IH]; simpl; [constructor|].
  intros H. apply orb_false_iff in H. destruct H as [Ha Ht].
  constructor; [|now apply IH].
  rewrite andb_true_r in Ha. unfold isComma, canon.
  rewrite Ascii.eqb_sym. exact Ha.
Qed.

Lemma positiveNumbers_Forall (P : Q -> Prop) l :
  Forall (fun o => match o with Some v => P v | None => True end) l ->
  Forall P (positiveNumbers l).
Proof.
  induction 1 as [|o l Ho _ IH]; simpl; [constructor|].
  destruct o as [v|]; auto. destruct (Num.Qltb 0 v); auto.
Qed.

(** Every token of a text gives a whole number of hundredths, below 1000
    when the text has no comma. *)
Lemma parseMoney_tokens text :
  Forall (fun o => match o with
                   | Some v => wholeCents v /\
                               (Forall (fun a => isComma a = false) (chars text) ->
                                (v < 1000)%Q)
                   | None => True
                   end)
         (map parseMoney (matchG moneyToken text)).
Proof.
  unfold matchG, matchAll. rewrite map_map. apply Forall_map.
  eapply Forall_impl;
    [|exact (all_from_sound 0 (fun _ => True) moneyToken text
               (captures_in_any _ _ _) (S (String.length text)) 0)].
  intros m (before & after & Ht & _ & _ & Hl & _).
  destruct (moneyToken_cleaned _ Hl) as (ds & fr & Hclean & Hds & Hlen & Hfr & Hno).
  unfold parseMoney. rewrite Hclean.
  destruct (parseFloat_below ds fr Hds Hlen Hfr) as (v & -> & Hc & Hb).
  split; [exact Hc|]. intros Hcomma.
  rewrite Ht, !chars_app in Hcomma.
  apply Forall_app in Hcomma. destruct Hcomma as [_ Hcomma].
  apply Forall_app in Hcomma. destruct Hcomma as [Hcomma _].
  specialize (Hno Hcomma).
  eapply Qlt_le_trans; [exact Hb|].
  unfold Qle, inject_Z. simpl.
  assert (10 ^ Z.of_nat (String.length ds) <= 10 ^ 3)%Z
    by (apply Z.pow_le_mono_r; lia).
  lia.
Qed.

Lemma extractMoneyValues_cents text :
  Forall (fun v => wholeCents v /\
                   (Forall (fun a => isComma a = false) (chars text) -> (v < 1000)%Q))
         (extractMoneyValues text).
Proof. apply positiveNumbers_Forall, parseMoney_tokens. Qed.

(** *** The lines of a text are made of its characters *)

Lemma chars_take n t a : In a (chars (JS.take n t)) -> In a (chars t).
Proof.
  intros H. rewrite <- (take_drop n t), chars_app. apply in_or_app. now left.
Qed.

Lemma chars_substring p q t a : In a (chars (JS.substring p q t)) -> In a (chars t).
Proof. unfold JS.substring. intros H. eapply chars_drop, chars_take, H. Qed.

Lemma split_from_chars re text a : forall t pv q p,
  Forall (fun piece => In a (chars piece) -> In a (chars text))
         (split_from re text pv t q p).
Proof.
  induction t as [|b t IH]; intros pv q p; simpl.
  - constructor; [apply chars_drop|constructor].
  - destruct (q <? p); auto.
    destruct (match_here re pv (String b t) q); auto.
    destruct (endIndex m =? p); auto.
    constructor; [apply chars_substring|auto].
Qed.

Lemma linesOf_chars text line a :
  In line (linesOf text) -> In a (chars line) -> In a (chars text).
Proof.
  unfold linesOf. intros H Ha. apply filter_In in H. destruct H as [H _].
  apply in_map_iff in H. destruct H as (piece & <- & Hp).
  apply trim_chars in Ha. revert Ha.
  assert (Hall : Forall (fun piece => In a (chars piece) -> In a (chars text))
                        (split newline text)).
  { unfold split. destruct text as [|c t].
    - destruct (match_here newline None "" 0); constructor; auto.
    - apply split_from_chars. }
  rewrite Forall_forall in Hall. now apply Hall.
Qed.

(** What holds of the money values of the text and of each of its lines
    holds of the total. *)
Lemma locateTotal_from (P : Q -> Prop) text :
  (forall line, In line (linesOf text) -> Forall P (extractMoneyValues line)) ->
  Forall P (extractMoneyValues text) ->
  match fst (locateTotal extractMoneyValues text) with
  | Some a => P a
  | None => True
  end.
Proof.
  intros Hlines Htext.
  assert (Hlast : forall line, In line (linesOf text) ->
                    match JS.lastElem (extractMoneyValues line) with
                    | Some a => P a | None => True end).
  { intros line Hl. destruct (JS.lastElem _) as [a|] eqn:E; auto.
    apply lastElem_In in E. specialize (Hlines line Hl).
    rewrite Forall_forall in Hlines. auto. }
  unfold locateTotal.
  destruct (find _ (rev (filter isTotalLine _))) as [line|] eqn:E1.
  { simpl. apply Hlast. apply find_some in E1. destruct E1 as [E1 _].
    apply in_rev, filter_In in E1. tauto. }
  destruct (find _ (rev (JS.lastN 10 _))) as [line|] eqn:E2.
  { simpl. apply Hlast. apply find_some in E2. destruct E2 as [E2 _].
    apply in_rev in E2. unfold JS.lastN in E2.
    rewrite <- (firstn_skipn (List.length (linesOf text) - 10) (linesOf text)).
    apply in_or_app. now right. }
  destruct (extractMoneyValues text) as [|v vs] eqn:E; simpl; auto.
  destruct (Qmaxb_fold vs v) as (Hin & _).
  rewrite Forall_forall in Htext. auto.
Qed.

End MoneyProofs.

(* ================================================================== *)
(** ** Further proofs: the shape of the expenses *)

Module ShapeProofs.
Import Regex RegexFacts RegexProofs.
Import ExpenseParser AmountFacts AmountProofs ParserFacts ParserProofs.
Import ClassifierFacts ClassifierProofs ReceiptOcr ReceiptFacts ReceiptProofs.
Import TextFacts TextProofs DescriptionFacts DescriptionProofs.
Import ReceiptMore NumeralFacts NumeralProofs MoneyFacts MoneyProofs.
Local Open Scope list_scope.

(** The expenses of the rule-based parser. *)
Lemma parseExpenses_shape (input : string) (w : World) :
  exists r w',
    parseExpenses input w = Ok (r, w') /\
    Forall (fun e =>
              wholeCents (ParsedExpense.amount e) /\
              (0 < ParsedExpense.amount e)%Q /\
              (ParsedExpense.amount e < 100000)%Q /\
              2 <= String.length (ParsedExpense.description e) /\
              notLowerFirst (ParsedExpense.description e))
           (ParsingResult.expenses r).
Proof.
  destruct (parseExpenses_described input w)
    as (r & w' & cs & Hr & Hcs & _ & [(He & _)|(_ & _ & Hall)]).
  - exists r, w'. split; [exact Hr|]. rewrite He. constructor.
  - exists r, w'. split; [exact Hr|].
    pose proof (extractAmounts_wellPlaced _ _ Hcs) as Hwp.
    destruct (extractAmounts_run (JS.trim input))
      as (_ & cs' & _ & Hcs' & _ & _ & Hb & _).
    rewrite Hcs in Hcs'. injection Hcs' as <-.
    clear Hr Hcs. revert Hwp Hb. generalize (JS.trim input). intros t.
    induction Hall as [|c e cs0 es0 Hce _ IH]; intros Hwp Hb; [constructor|].
    inversion Hwp as [|? ? (_ & _ & _ & Hcents) Hwp']; subst.
    inversion Hb as [|? ? (Hpos & Hlt) Hb']; subst.
    constructor; [|now apply IH].
    destruct Hce as ((Hamt & _) & nextAmount & Hd).
    apply extractDescription_shape in Hd. rewrite Hamt. tauto.
Qed.

End ShapeProofs.

(* ================================================================== *)
(** ** Further proofs: every dollar amount is found *)

Module DollarProofs.
Import Regex RegexFacts RegexProofs RegexSound TextProofs.
Import ScanFacts ScanProofs SubstituteProofs NumeralFacts NumeralProofs.
Import ExpenseParser AmountFacts AmountProofs ParserFacts ParserProofs DollarFacts.
Local Open Scope list_scope.

Lemma skipRun_spec C : forall t p i c,
  rest (skipRun C t p i c) = snd (spanOf C t) /\
  idx (skipRun C t p i c) = i + String.length (fst (spanOf C t)) /\
  caps (skipRun C t p i c) = c.
Proof.
  induction t as [|a t IH]; intros p i c; simpl; [auto|].
  destruct (C a); simpl; [|auto].
  destruct (IH (Some a) (S i) c) as (H1 & H2 & H3).
  destruct (spanOf C t) as [run r]. simpl in *. repeat split; auto. lia.
Qed.

Section Greedy.
Variable C : ascii -> bool.
Variable m : cont -> cont.
Hypothesis m_char : forall k p a t i c,
  m k (MS p (String a t) i c) = if C a then k (MS (Some a) t (S i) c) else None.
Hypothesis m_end : forall k p i c, m k (MS p EmptyString i c) = None.

(** A greedy run followed by a continuation that accepts after the longest
    run takes the longest run. *)
Lemma repeat_greedy (k : cont) : forall t fuel mn p i c z,
  mn + String.length t <= fuel ->
  mn <= String.length (fst (spanOf C t)) ->
  k (skipRun C t p i c) = Some z ->
  repeat m [] true k fuel mn None (MS p t i c) = Some z.
Proof.
  induction t as [|a t IH]; intros fuel mn p i c z Hf Hmn Hk.
  - simpl in Hmn. assert (mn = 0) by lia. subst mn.
    destruct fuel as [|fuel]; cbn [repeat]; [exact Hk|].
    rewrite clear_caps_nil, m_end. exact Hk.
  - destruct fuel as [|fuel]; [simpl in Hf; lia|].
    cbn [repeat]. rewrite clear_caps_nil, m_char.
    cbn [spanOf skipRun] in Hmn, Hk. destruct (C a) eqn:Ea.
    + cbn [idx].
      assert (Hne : (S i =? i) = false) by (apply Nat.eqb_neq; lia).
      assert (Hrec : repeat m [] true k fuel (pred mn) None (MS (Some a) t (S i) c)
                     = Some z).
      { apply IH; auto; [simpl in Hf; lia|].
        destruct (spanOf C t) as [run r]. simpl in *. lia. }
      destruct mn as [|mn];
        [change (0 =? 0) with true|change (S mn =? 0) with false];
        cbn [negb andb pred option_map] in *; rewrite ?Hne, Hrec; reflexivity.
    + simpl in Hmn. assert (mn = 0) by lia. subst mn.
      change (0 =? 0) with true. cbn [negb]. exact Hk.
Qed.

End Greedy.

Lemma spanOf_ext C1 C2 : (forall a, C1 a = C2 a) -> forall t, spanOf C1 t = spanOf C2 t.
Proof.
  intros H. induction t as [|a t IH]; simpl; auto. now rewrite H, IH.
Qed.

Lemma skipRun_ext C1 C2 : (forall a, C1 a = C2 a) ->
  forall t p i c, skipRun C1 t p i c = skipRun C2 t p i c.
Proof.
  intros H. induction t as [|a t IH]; intros p i c; simpl; auto. now rewrite H, IH.
Qed.

Lemma digit_class a : classTest false false [Digit] a = JS.isDigit a.
Proof. unfold classTest. simpl. now rewrite orb_false_r. Qed.

(** The optional fraction, followed by a continuation that always
    accepts. *)
Lemma fraction_step (k : cont) p r i c :
  (forall y, k y <> None) ->
  exists p',
    rmatch false (opt (cat [Chr "."; times 2 d])) k (MS p r i c) =
    k (MS p' (JS.drop (fractionLen r) r) (i + fractionLen r) c).
Proof.
  intros Hk. unfold fractionLen.
  destruct r as [|a r]; [exists p; simpl; rewrite Nat.add_0_r; reflexivity|].
  destruct r as [|d1 r].
  { exists p. cbn. unfold canon. destruct (Ascii.eqb a "."); cbn;
      rewrite ?Nat.add_0_r; reflexivity. }
  destruct r as [|d2 r].
  { exists p. cbn. unfold canon.
    destruct (Ascii.eqb a "."); cbn; rewrite ?orb_false_r;
      try destruct (JS.isDigit d1); cbn; rewrite ?Nat.add_0_r; reflexivity. }
  destruct (Ascii.eqb a "." && JS.isDigit d1 && JS.isDigit d2) eqn:E.
  - apply andb_true_iff in E. destruct E as [E E2].
    apply andb_true_iff in E. destruct E as [E0 E1].
    assert (Hne : (S (S (S i)) =? i) = false) by (apply Nat.eqb_neq; lia).
    exists (Some d2). cbn. cbn in Hne. unfold canon. rewrite E0. cbn.
    rewrite ?orb_false_r, E1, E2, Hne. unfold advance. cbn.
    rewrite !filter_all.
    replace (i + 3) with (S (S (S i))) by lia.
    destruct (k _) eqn:Ek; [reflexivity|]. now apply Hk in Ek.
  - exists p. cbn. unfold canon.
    destruct (Ascii.eqb a "."); cbn; rewrite ?Nat.add_0_r; [|reflexivity].
    rewrite ?orb_false_r. destruct (JS.isDigit d1); cbn; [|reflexivity].
    rewrite ?orb_false_r. simpl in E. rewrite E. reflexivity.
Qed.

(** *** The first amount pattern at a position *)

Lemma match_here_dollar p t i : match_here dollar p t i = dollarMatch t i.
Proof.
  unfold match_here, dollarMatch, dollarLen, dollar.
  cbn [nth AMOUNT_PATTERNS re source ignoreCase cat].
  destruct t as [|a t1]; [reflexivity|].
  cbn [rmatch rest]. unfold canon.
  destruct (Ascii.eqb a "$") eqn:Ea; [|reflexivity].
  unfold advance. cbn [idx caps andb].
  unfold numeral. cbn [cat]. cbn [rmatch groups rest].
  set (kc := fun y : mstate =>
               Some (set_cap 1 (JS.take (idx y - S i) t1) y)).
  set (F := opt (Seq (Chr ".") (times 2 d))).
  set (n := String.length (fst (spanOf JS.isDigit t1))).
  assert (Hn : String.length (fst (spanOf (classTest false false [Digit]) t1)) = n).
  { unfold n. now rewrite (spanOf_ext _ _ digit_class). }
  change (rmatch false (plus d) (rmatch false F kc) (MS (Some a) t1 (S i) []))
    with (repeat (rmatch false d) [] true (rmatch false F kc)
            (1 + String.length t1) 1 None (MS (Some a) t1 (S i) [])).
  destruct (Nat.leb_spec 1 n) as [Hle|Hlt].
  - pose proof (skipRun_spec (classTest false false [Digit]) t1 (Some a) (S i) [])
      as (Hr & Hi & Hc).
    destruct (skipRun (classTest false false [Digit]) t1 (Some a) (S i) [])
      as [p' r i' c'] eqn:Es.
    simpl in Hr, Hi, Hc. subst c'.
    destruct (spanOf_take (classTest false false [Digit]) t1) as [_ Hdrop].
    rewrite Hn in Hdrop, Hi. rewrite <- Hdrop in Hr. subst r i'.
    destruct (fraction_step kc p' (JS.drop n t1) (S i + n) [])
      as (p'' & Hfr); [discriminate|].
    change (opt (cat [Chr "."; times 2 d])) with F in Hfr.
    rewrite (repeat_greedy (classTest false false [Digit])
               (rmatch false d) ltac:(intros; reflexivity) ltac:(intros; reflexivity)
               (rmatch false F kc) t1 (1 + String.length t1) 1 (Some a) (S i) []
               (set_cap 1 (JS.take (S i + n + fractionLen (JS.drop n t1) - S i) t1)
                  (MS p'' (JS.drop (fractionLen (JS.drop n t1)) (JS.drop n t1))
                      (S i + n + fractionLen (JS.drop n t1)) []))).
    + cbn [idx caps set_cap filter option_map].
      f_equal. f_equal; [f_equal; lia| |lia].
      f_equal. f_equal. f_equal. lia.
    + lia.
    + lia.
    + rewrite Es. exact Hfr.
  - assert (Hz : n = 0) by lia.
    assert (Hfail : repeat (rmatch false d) [] true (rmatch false F kc)
                      (1 + String.length t1) 1 None (MS (Some a) t1 (S i) []) = None).
    { cbn [Nat.add repeat]. rewrite clear_caps_nil.
      change (1 =? 0) with false. cbn [negb].
      destruct t1 as [|b t2]; [reflexivity|].
      cbn [rmatch rest d]. fold (classTest false false [Digit] b).
      cbn [spanOf] in Hn. destruct (classTest false false [Digit] b); [|reflexivity].
      destruct (spanOf _ t2). simpl in Hn. lia. }
    rewrite Hfail. reflexivity.
Qed.

(** *** A scan finds every match that no earlier match covers *)

Section Scan.
Variable re : RegExp.
Variable at_ : string -> nat -> option MatchResult.
Hypothesis Hat : forall p t i, match_here re p t i = at_ t i.
Hypothesis Hglobal : global re = true.
Hypothesis Hloop : 1 <= minlen (source re).

Lemma at_index t i m : at_ t i = Some m -> index m = i /\ i < endIndex m.
Proof.
  rewrite <- (Hat None). intros H. apply (match_here_ok 0) in H.
  destruct H as (Hi & _ & He & _). split; auto. lia.
Qed.

Lemma search_at t p i :
  search re p t i =
  match at_ t i with
  | Some m => Some m
  | None =>
      match t with
      | EmptyString => None
      | String a t' => search re None t' (S i)
      end
  end.
Proof.
  destruct t as [|a t]; simpl; rewrite Hat; destruct (at_ _ i); auto.
  destruct t as [|b t]; simpl; rewrite !Hat; reflexivity.
Qed.

Lemma exec_from_at : forall li t p i, li <= String.length t ->
  exec_from re p t i li = search re None (JS.drop li t) (i + li).
Proof.
  induction li as [|li IH]; intros t p i H.
  - simpl. rewrite Nat.add_0_r. rewrite (search_at t p), (search_at t None).
    reflexivity.
  - destruct t as [|a t]; simpl in *; [lia|].
    rewrite IH by lia. f_equal. lia.
Qed.

(** The search stops at the first position where the pattern matches. *)
Lemma search_hit : forall t i k mk,
  at_ (JS.drop k t) (i + k) = Some mk -> k <= String.length t ->
  exists m k0, search re None t i = Some m /\ k0 <= k /\
               at_ (JS.drop k0 t) (i + k0) = Some m.
Proof.
  induction t as [|a t IH]; intros i k mk Hk Hlen; rewrite search_at.
  - simpl in Hlen. assert (k = 0) by lia. subst k. simpl in Hk.
    rewrite Nat.add_0_r in Hk. rewrite Hk. exists mk, 0.
    simpl. rewrite Nat.add_0_r. auto.
  - destruct (at_ (String a t) i) as [m|] eqn:E.
    + exists m, 0. simpl. rewrite Nat.add_0_r. repeat split; auto. lia.
    + destruct k as [|k]; [simpl in Hk; rewrite Nat.add_0_r in Hk; congruence|].
      simpl in Hk, Hlen. replace (i + S k) with (S i + k) in Hk by lia.
      destruct (IH (S i) k mk Hk ltac:(lia)) as (m & k0 & Hs & Hle & Hm).
      exists m, (S k0). simpl. replace (i + S k0) with (S i + k0) by lia.
      repeat split; auto. lia.
Qed.

Lemma search_found : forall t i m, search re None t i = Some m ->
  exists k0, k0 <= String.length t /\ at_ (JS.drop k0 t) (i + k0) = Some m.
Proof.
  induction t as [|a t IH]; intros i m H; rewrite search_at in H.
  - destruct (at_ "" i) eqn:E; [|discriminate]. injection H as ->.
    exists 0. simpl. rewrite Nat.add_0_r. auto.
  - destruct (at_ (String a t) i) eqn:E.
    + injection H as ->. exists 0. simpl. rewrite Nat.add_0_r. split; [lia|auto].
    + apply IH in H. destruct H as (k0 & Hle & Hm). exists (S k0). simpl.
      replace (i + S k0) with (S i + k0) by lia. split; [lia|auto].
Qed.

Variable text : string.

Lemma exec_at li m li' : exec re text li = (Some m, li') ->
  li' = endIndex m /\ li <= index m /\
  at_ (JS.drop (index m) text) (index m) = Some m.
Proof.
  unfold exec. rewrite Hglobal.
  destruct (exec_from re None text 0 li) as [m'|] eqn:E; [|discriminate].
  intros H. injection H as -> <-. split; auto.
  assert (Hin : li <= String.length text).
  { destruct (le_lt_dec li (String.length text)); auto.
    rewrite exec_from_beyond in E by auto. discriminate. }
  rewrite exec_from_at in E by auto. apply search_found in E.
  destruct E as (k0 & Hle & Hm). rewrite drop_drop in Hm. simpl in Hm.
  destruct (at_index _ _ _ Hm) as [Hi _]. rewrite Hi. split; [lia|exact Hm].
Qed.

Lemma scanPattern_from_match : forall fuel li acc r,
  Forall (fromMatch at_ text) acc ->
  scanPattern fuel re text li acc = Ok r -> Forall (fromMatch at_ text) r.
Proof.
  induction fuel as [|fuel IH]; intros li acc r Hacc H; simpl in H; [discriminate|].
  destruct (exec re text li) as [[m|] li'] eqn:E.
  - apply exec_at in E. destruct E as (_ & _ & Hm).
    destruct (Num.parseFloatOpt (group 1 m)) as [v|] eqn:Ev; [|eauto].
    destruct (sane (Some v)); [|eauto].
    apply IH in H; auto. apply Forall_app. split; auto.
    constructor; [|constructor]. exists m. simpl. auto.
  - injection H as <-. exact Hacc.
Qed.

Variable j : nat.
Variable mj : MatchResult.
Variable v : Q.
Hypothesis Hj : at_ (JS.drop j text) j = Some mj.
Hypothesis Hin : j <= String.length text.
Hypothesis Hcover : forall j' m', j' < j ->
  at_ (JS.drop j' text) j' = Some m' -> endIndex m' <= j.
Hypothesis Hv : Num.parseFloatOpt (group 1 mj) = Some v.
Hypothesis Hsane : sane (Some v) = true.

Lemma scanPattern_finds : forall fuel li acc r,
  li <= j -> scanPattern fuel re text li acc = Ok r ->
  In {| Candidate.amount := v; Candidate.index := j;
        Candidate.matchText := matched mj |} r.
Proof.
  induction fuel as [|fuel IH]; intros li acc r Hli H; simpl in H; [discriminate|].
  assert (Hex : exists m k0, exec re text li = (Some m, endIndex m) /\
                             li + k0 <= j /\
                             at_ (JS.drop (li + k0) text) (li + k0) = Some m).
  { unfold exec. rewrite Hglobal. rewrite exec_from_at by lia.
    destruct (search_hit (JS.drop li text) (0 + li) (j - li) mj) as (m & k0 & Hs & Hle & Hm).
    - rewrite drop_drop. replace (li + (j - li)) with j by lia.
      replace (0 + li + (j - li)) with j by lia. exact Hj.
    - rewrite length_drop. lia.
    - rewrite Hs. exists m, k0. rewrite drop_drop in Hm. simpl in Hm.
      split; auto. split; [lia|exact Hm]. }
  destruct Hex as (m & k0 & Hex & Hle & Hm). rewrite Hex in H.
  destruct (Nat.eq_dec (li + k0) j) as [Heq|Hne].
  - rewrite Heq, Hj in Hm. injection Hm as <-. rewrite Hv, Hsane in H.
    destruct (at_index _ _ _ Hj) as [Hidx _]. rewrite Hidx in H.
    rewrite scanPattern_acc in H.
    destruct (scanPattern fuel re text (endIndex mj) []) as [new|]; [|discriminate].
    simpl in H. injection H as <-.
    apply in_or_app. left. apply in_or_app. right. now left.
  - assert (Hend : endIndex m <= j) by (apply (Hcover (li + k0)); auto; lia).
    eapply IH; [exact Hend|exact H].
Qed.

End Scan.

(** *** Dollar amounts do not overlap *)

Lemma digit_not_dollar b : JS.isDigit b = true -> Ascii.eqb b "$" = false.
Proof.
  destruct b as [[] [] [] [] [] [] [] []]; intros H;
    try reflexivity; vm_compute in H; discriminate.
Qed.

Lemma dollarLen_head b s : Ascii.eqb b "$" = false -> dollarLen (String b s) = None.
Proof. intros H. unfold dollarLen. now rewrite H. Qed.

Lemma span_head C : forall t e, e < String.length (fst (spanOf C t)) ->
  exists b s, JS.drop e t = String b s /\ C b = true.
Proof.
  induction t as [|a t IH]; intros e H; simpl in H; [lia|].
  destruct (C a) eqn:Ea; [|simpl in H; lia].
  destruct (spanOf C t) as [run r] eqn:Es. simpl in H.
  destruct e as [|e]; [exists a, t; auto|].
  simpl. apply IH. simpl. lia.
Qed.

(** Inside a dollar amount no dollar amount starts. *)
Lemma dollarLen_inside u n : dollarLen u = Some n ->
  forall e, 1 <= e < n -> dollarLen (JS.drop e u) = None.
Proof.
  unfold dollarLen at 1. destruct u as [|a t1]; [discriminate|].
  set (k := String.length (fst (spanOf JS.isDigit t1))).
  destruct (Ascii.eqb a "$" && (1 <=? k)) eqn:E; [|discriminate].
  intros H e He. injection H as <-.
  destruct e as [|e]; [lia|]. simpl.
  destruct (Nat.lt_ge_cases e k) as [Hlt|Hge].
  - destruct (span_head JS.isDigit t1 e Hlt) as (b & s & -> & Hb).
    apply dollarLen_head, digit_not_dollar, Hb.
  - replace e with (k + (e - k)) by lia. rewrite <- drop_drop.
    assert (Hfl : e - k < fractionLen (JS.drop k t1)) by lia.
    unfold fractionLen in Hfl.
    destruct (JS.drop k t1) as [|a0 [|d1 [|d2 r2]]]; try (simpl in Hfl; lia).
    destruct (Ascii.eqb a0 "." && JS.isDigit d1 && JS.isDigit d2) eqn:Ef; [|lia].
    apply andb_true_iff in Ef. destruct Ef as [Ef E2].
    apply andb_true_iff in Ef. destruct Ef as [E0 E1].
    apply Ascii.eqb_eq in E0. subst a0.
    destruct (e - k) as [|[|[|x]]]; cbn [JS.drop]; try (simpl in Hfl; lia).
    + apply dollarLen_head. reflexivity.
    + apply dollarLen_head, digit_not_dollar, E1.
    + apply dollarLen_head, digit_not_dollar, E2.
Qed.

Lemma dollarMatch_cover text j' j m' mj : j' < j ->
  dollarMatch (JS.drop j' text) j' = Some m' ->
  dollarMatch (JS.drop j text) j = Some mj ->
  endIndex m' <= j.
Proof.
  unfold dollarMatch. intros Hlt H' Hj.
  destruct (dollarLen (JS.drop j' text)) as [n'|] eqn:E'; [|discriminate].
  injection H' as <-. simpl.
  destruct (le_lt_dec (j' + n') j) as [|Hin]; auto.
  pose proof (dollarLen_inside _ _ E' (j - j') ltac:(lia)) as Hnone.
  rewrite drop_drop in Hnone. replace (j' + (j - j')) with j in Hnone by lia.
  rewrite Hnone in Hj. discriminate.
Qed.

(** *** Every dollar amount gives a candidate *)

Lemma find_app_some {A : Type} (f : A -> bool) l1 l2 x :
  find f l1 = Some x -> find f (l1 ++ l2) = Some x.
Proof.
  induction l1 as [|y l1 IH]; simpl; [discriminate|].
  destruct (f y); auto.
Qed.

Lemma extractAmounts_dollar text j n v :
  dollarLen (JS.drop j text) = Some n ->
  Num.parseFloat (JS.substring (S j) (j + n) text) = Some v ->
  sane (Some v) = true ->
  exists cs,
    extractAmounts text = Ok cs /\
    In {| Candidate.amount := v; Candidate.index := j;
          Candidate.matchText := JS.substring j (j + n) text |} cs.
Proof.
  intros Hlen Hv Hsane.
  assert (Hin : j <= String.length text).
  { destruct (le_lt_dec j (String.length text)); auto.
    assert (Hd : JS.drop j text = EmptyString).
    { pose proof (length_drop j text) as Hl. destruct (JS.drop j text); auto.
      simpl in Hl. lia. }
    rewrite Hd in Hlen. discriminate. }
  set (mj := {| index := j; matched := JS.take n (JS.drop j text);
                captures := [(1, JS.take (n - 1) (JS.drop 1 (JS.drop j text)))];
                endIndex := j + n |}).
  assert (Hj : dollarMatch (JS.drop j text) j = Some mj).
  { unfold dollarMatch. now rewrite Hlen. }
  assert (Hnum : JS.substring (S j) (j + n) text =
                 JS.take (n - 1) (JS.drop 1 (JS.drop j text))).
  { unfold JS.substring. rewrite drop_drop. f_equal; [lia|f_equal; lia]. }
  assert (Htext : JS.substring j (j + n) text = matched mj).
  { unfold JS.substring. simpl. f_equal. lia. }
  assert (Hg : Num.parseFloatOpt (group 1 mj) = Some v).
  { change (Num.parseFloatOpt
              (Some (JS.take (n - 1) (JS.drop 1 (JS.drop j text)))) = Some v).
    rewrite <- Hnum. exact Hv. }
  destruct (extractAmounts_run text) as (raws & cs & Hall & Hcs & _ & Hiff & _).
  exists cs. split; [exact Hcs|].
  unfold AMOUNT_PATTERNS in Hall.
  inversion Hall as [|p1 r1 ps rs Hs1 Hrest]; subst.
  fold dollar in Hs1. unfold scanned in Hs1.
  assert (Hglobal : global dollar = true) by reflexivity.
  assert (Hloop : 1 <= minlen (source dollar)) by (vm_compute; lia).
  pose proof (scanPattern_finds dollar dollarMatch match_here_dollar Hglobal Hloop
                text j mj v Hj Hin
                (fun j' m' Hlt Hm' => dollarMatch_cover text j' j m' mj Hlt Hm' Hj)
                Hg Hsane _ 0 [] r1 ltac:(lia) Hs1) as Hfound.
  pose proof (scanPattern_from_match dollar dollarMatch match_here_dollar Hglobal Hloop
                text _ 0 [] r1 (Forall_nil _) Hs1) as Hinv.
  rewrite Htext. apply Hiff. simpl Candidate.index.
  unfold firstAt. simpl List.concat. apply find_app_some.
  destruct (find (fun c => Candidate.index c =? j) r1) as [c'|] eqn:Ef.
  - apply find_some in Ef. destruct Ef as [Hc' Hidx]. apply Nat.eqb_eq in Hidx.
    rewrite Forall_forall in Hinv. destruct (Hinv c' Hc') as (m & Hm & Hmt & Hamt).
    rewrite Hidx, Hj in Hm. injection Hm as <-.
    rewrite Hg in Hamt. injection Hamt as Hamt.
    destruct c' as [a i0 mt]. simpl in *. subst. reflexivity.
  - exfalso. apply (find_none _ _ Ef) in Hfound. simpl in Hfound.
    now rewrite Nat.eqb_refl in Hfound.
Qed.

End DollarProofs.
(* ================================================================== *)
(** ** Further proofs: keyword matches and the category *)

Module KeywordProofs.
Import ExpenseParser ClassifierFacts ClassifierProofs ClassifierMore KeywordFacts.
Local Open Scope list_scope.

Lemma existsb_false_Forall {A : Type} (f : A -> bool) l :
  existsb f l = false -> Forall (fun a => f a = false) l.
Proof.
  induction l as [|a l IH]; simpl; [constructor|].
  intros H. apply orb_false_iff in H. destruct H. constructor; auto.
Qed.

(** Some keyword matched exactly when the category is not [other]; the
    confidence is then that of a score of at least 3. *)
Lemma detectCategory_matched text :
  exists c h,
    detectCategory text = (c, confidenceOf h) /\
    ((keywordMatched text = false /\ h = 0 /\ c = other) \/
     (keywordMatched text = true /\ 3 <= h <= tableBound CATEGORY_KEYWORDS /\
      c <> other)).
Proof.
  destruct (detectCategory_winner text) as (c & h & Heq & Hzero & Hbound & Hmax & Hwit).
  destruct (detectCategory_score text) as (c' & h' & Heq' & Hcases).
  assert (Hc : c' = c) by congruence. subst c'.
  assert (Hconf : confidenceOf h' = confidenceOf h) by congruence.
  destruct (keywordMatched text) eqn:Ek.
  - unfold keywordMatched in Ek. apply existsb_exists in Ek.
    destruct Ek as (e & He & Hk). apply existsb_exists in Hk.
    destruct Hk as (k & Hk & Hinc).
    pose proof (keywordScore_ge _ _ _ Hk Hinc) as Hge.
    specialize (Hmax e He).
    pose proof keywords_nonempty as Hne. rewrite Forall_forall in Hne.
    specialize (Hne e He). rewrite Forall_forall in Hne. specialize (Hne k Hk).
    assert (Hc : c <> other) by (intros Hc; apply Hzero in Hc; lia).
    destruct Hcases as [[_ Hc']|[Hh' _]]; [contradiction|].
    exists c, h'. split; [congruence|]. right. auto.
  - exists c, h. split; [exact Heq|]. left. split; [reflexivity|].
    assert (Hh : h = 0).
    { destruct Hwit as [Hh|(e & He & _ & Hs)]; [exact Hh|].
      unfold keywordMatched in Ek. apply existsb_false_Forall in Ek.
      rewrite Forall_forall in Ek. specialize (Ek e He).
      apply existsb_false_Forall in Ek.
      pose proof keywords_nonempty as Hne. rewrite Forall_forall in Hne.
      specialize (Hne e He).
      apply (keywordScore_zero_iff (JS.toLowerCase text) (snd e) Hne) in Ek.
      congruence. }
    split; [exact Hh|]. now apply Hzero.
Qed.

End KeywordProofs.

(* ================================================================== *)
(** ** Further proofs: the amount patterns match the amount-shaped tokens *)

Module TokenProofs.
Import Regex RegexFacts RegexProofs RegexLang RegexSound TextProofs.
Import ScanFacts ScanProofs SubstituteProofs NumeralFacts NumeralProofs.
Import ExpenseParser AmountFacts AmountProofs ParserFacts ParserProofs.
Import DollarFacts DollarProofs TokenFacts.
Local Open Scope list_scope.

(** *** The steps of the matcher along a token *)










(** *** The steps, by the state they end in *)





(** *** The patterns [15 dollars] and [15 USD] at a token *)





(** *** What a pattern can consume is a token *)












(** *** Each amount pattern matches exactly the tokens of its form *)




(** *** The scan of a text with one token *)

Section Sole.
Variable re : RegExp.
Variable at_ : string -> nat -> option MatchResult.
Hypothesis Hat : forall p t i, match_here re p t i = at_ t i.
Hypothesis Hglobal : global re = true.
Hypothesis Hloop : 1 <= minlen (source re).
Variable text : string.


Variable j : nat.
Variable mj : MatchResult.
Variable v : Q.
Hypothesis Hj : at_ (JS.drop j text) j = Some mj.
Hypothesis Hin : j <= String.length text.
Hypothesis Hall : forall i m, at_ (JS.drop i text) i = Some m -> j <= i < endIndex mj.
Hypothesis Hv : Num.parseFloatOpt (group 1 mj) = Some v.
Hypothesis Hsane : sane (Some v) = true.


End Sole.







End TokenProofs.



(* ================================================================== *)
(** ** The scenarios of the specification, by evaluation *)

Module Scenarios.
Import ExpenseParser ReceiptOcr ReceiptFacts.
Local Open Scope list_scope.
Example scenario_A :
  summaries (parseExpenses "$15 lunch and $40 fuel" sampleWorld) =
  Some [(15%Q, "Lunch", food); (40%Q, "Fuel", transport)].
Proof. vm_compute. reflexivity. Qed.

Example scenario_B :
  summaries (parseExpenses "Spent $45 on groceries and $12 uber" sampleWorld) =
  Some [(45%Q, "Groceries", food); (12%Q, "Uber", transport)].
Proof. vm_compute. reflexivity. Qed.

Example scenario_C :
  findTotalAmount sampleReceipt = Ok (Some (Qred 23.50), 0.85%float).
Proof. vm_compute. reflexivity. Qed.

Example scenario_D :
  findMerchant ("WALMART SUPERCENTER" ++ nl ++ "TOTAL 12.00") =
    Ok (Some "WALMART SUPERCENTER") /\
  pickCategoryFromMerchant (Some "WALMART SUPERCENTER") = (shopping, 0.9%float).
Proof. split; vm_compute; reflexivity. Qed.

Example three_surface_forms :
  option_map (map summary)
    (match parseExpenses "lunch cost 15 dollars, taxi 20.50 USD; $0 $100000 $99999.99"
             sampleWorld with
     | Ok (p, _) => Some (ParsingResult.expenses p)
     | Throw _ => None
     end) =
  Some [(15%Q, "Lunch cost", food); (Qred 20.50, "Taxi", transport);
        (Qred 99999.99, "$0 $100000", other)].
Proof. vm_compute. reflexivity. Qed.

Example dates :
  findReceiptDate "Paid on 2024-03-25" = Ok (Some (DateOf 2024 2 25)) /\
  findReceiptDate "3/4/24" = Ok (Some (DateOf 2024 2 4)) /\
  findReceiptDate "Mar 5, 2024" = Ok (Some (DateOf 2024 2 5)) /\
  findReceiptDate "no date here" = Ok None.
Proof. repeat split; vm_compute; reflexivity. Qed.

End Scenarios.

(* ================================================================== *)
(** ** The properties of the specification *)

Module Properties.
Import Regex RegexFacts RegexProofs.
Import ExpenseParser AmountFacts AmountProofs ParserFacts ParserProofs.
Import ClassifierFacts ClassifierProofs ReceiptOcr ReceiptFacts ReceiptProofs.
Import KeywordFacts KeywordProofs TextFacts TokenFacts TokenProofs.
Local Open Scope list_scope.

(** *** Amount extractor *)

(** C1.  For every text, [extractAmounts] returns (it neither throws nor
    loops) a sequence of candidates whose offsets strictly increase, so that
    it is sorted by ascending offset and no two candidates share an offset;
    the candidate kept at an offset is the first one found there in
    pattern-scan order, [raws] being what each pattern collected, in the
    order of [AMOUNT_PATTERNS]; every value lies strictly between 0 and
    100000; and when no pattern matches anywhere the result is empty. *)
Theorem extractAmounts_sorted_distinct_bounded (text : string) :
  exists raws cs,
    Forall2 (scanned (String.length text + 2) text) AMOUNT_PATTERNS raws /\
    extractAmounts text = Ok cs /\
    StronglySorted lt (offsets cs) /\
    NoDup (offsets cs) /\
    (forall c, In c cs <-> firstAt (Candidate.index c) (List.concat raws) = Some c) /\
    Forall inBounds cs /\
    ((forall p, In p AMOUNT_PATTERNS -> Regex.search p None text 0 = None) ->
     cs = []).
Proof.
  destruct (extractAmounts_run text) as (raws & cs & H1 & H2 & H3 & H4 & H5 & H6).
  exists raws, cs. repeat split; auto.
  - now apply StronglySorted_lt_NoDup.
  - now apply H4.
  - now apply H4.
Qed.

(** *** Category classifier *)

(** C2.  For every text, with [scoredTable text] the categories other than
    [other] in table order, each with the sum of the lengths of its keywords
    that occur in the lower-cased text: either every score is 0 and the
    result is [other] with confidence 0.4, or the result is the first
    category of the table whose score [sc] is the greatest, [sc] is positive
    and the confidence is [min(0.95, 0.6 + sc * 0.05)]. *)
Theorem detectCategory_first_maximum (text : string) :
  (Forall (fun e => snd e = 0) (scoredTable text) /\
   detectCategory text = (other, 0.4%float))
  \/
  (exists pre c sc post,
     scoredTable text = pre ++ (c, sc) :: post /\
     0 < sc /\
     Forall (fun e => snd e < sc) pre /\
     Forall (fun e => snd e <= sc) post /\
     detectCategory text =
       (c, Num.Math_min 0.95 (0.6 + Num.ofNat sc * 0.05)%float)).
Proof.
  unfold scoredTable. fold nonOther.
  destruct (detectCategory_first_max text)
    as [[Heq Hall]|(pre & e & post & Htab & Heq & Hpos & Hpre & Hpost)].
  - left. split; auto. apply Forall_map. exact Hall.
  - right. rewrite Htab, map_app. simpl.
    eexists. eexists. eexists. eexists. split; [reflexivity|].
    split; [exact Hpos|]. split; [apply Forall_map; exact Hpre|].
    split; [apply Forall_map; exact Hpost|].
    rewrite Heq, confidenceOf_positive by exact Hpos. reflexivity.
Qed.

(** *** Expense segmenter *)




(** C4.  For every input and world [parseExpenses] returns a result, never
    an exception; [success] is false exactly when the input trims to the
    empty string or [extractAmounts] finds no candidate, and exactly then
    the expense list is empty.  The inputs "", "   " and "no numbers here"
    are such inputs. *)
Theorem parseExpenses_failure_iff :
  (forall input w, exists r w' cs,
     parseExpenses input w = Ok (r, w') /\
     extractAmounts (JS.trim input) = Ok cs /\
     (ParsingResult.success r = false <-> JS.trim input = "" \/ cs = []) /\
     (ParsingResult.expenses r = [] <-> JS.trim input = "" \/ cs = []))
  /\
  (forall w, Forall (fun input => exists r w',
                       parseExpenses input w = Ok (r, w') /\
                       ParsingResult.success r = false /\
                       ParsingResult.expenses r = [])
                    [""; "   "; "no numbers here"]).
Proof.
  assert (Hgen : forall input w, exists r w' cs,
     parseExpenses input w = Ok (r, w') /\
     extractAmounts (JS.trim input) = Ok cs /\
     (ParsingResult.success r = false <-> JS.trim input = "" \/ cs = []) /\
     (ParsingResult.expenses r = [] <-> JS.trim input = "" \/ cs = [])).
  { intros input w.
    destruct (parseExpenses_run input w) as (r & w' & cs & Hr & Hcs & _ & Hcases).
    exists r, w', cs. split; [exact Hr|]. split; [exact Hcs|].
    destruct Hcases as [(Hc & Hs & He)|((Ht & Hne) & Hs & Hb)].
    - rewrite Hs, He. tauto.
    - rewrite Hs. split; split; try discriminate; try tauto.
      intros He. rewrite He in Hb. inversion Hb. tauto. }
  split; [exact Hgen|].
  intros w.
  assert (Hfail : forall input,
            JS.trim input = "" \/ extractAmounts (JS.trim input) = Ok [] ->
            exists r w', parseExpenses input w = Ok (r, w') /\
                         ParsingResult.success r = false /\
                         ParsingResult.expenses r = []).
  { intros input Hc.
    destruct (Hgen input w) as (r & w' & cs & Hr & Hcs & Hs & He).
    exists r, w'. split; [exact Hr|].
    assert (Hc' : JS.trim input = "" \/ cs = []).
    { destruct Hc as [Hc|Hc]; [now left|]. rewrite Hcs in Hc.
      injection Hc as ->. now right. }
    split; [apply Hs|apply He]; exact Hc'. }
  repeat constructor; apply Hfail.
  - left. reflexivity.
  - left. reflexivity.
  - right. vm_compute. reflexivity.
Qed.


(** *** Confidence and the review flag *)

(** C5, as amended.  For every input and world, every expense returned by
    [parseExpenses] has a confidence within [0, 1] and is flagged for
    review exactly when its confidence is below 0.7; the expense assembled
    by the receipt interpreter has a confidence within [0, 1] and is
    flagged for review whatever its confidence. *)
Theorem confidence_in_unit_and_review_flag (text : string) (w : World) :
  (exists r w',
     parseExpenses text w = Ok (r, w') /\
     Forall (fun e =>
               inUnit (ParsedExpense.confidence e) /\
               (ParsedExpense.needsReview e = true <->
                PrimFloat.ltb (ParsedExpense.confidence e) 0.7 = true))
            (ParsingResult.expenses r))
  /\
  (exists e w',
     parseReceiptText text w = Ok ((e, text), w') /\
     inUnit (ParsedExpense.confidence e) /\
     ParsedExpense.needsReview e = true).
Proof.
  split.
  - destruct (parseExpenses_run text w) as (r & w' & cs & Hr & _ & _ & Hcases).
    exists r, w'. split; [exact Hr|].
    destruct Hcases as [(_ & _ & ->)|(_ & _ & Hb)]; [constructor|].
    induction Hb as [|c e cs' es (_ & Hdet & Hrev) _ IH]; constructor; auto.
    split.
    + pose proof (detectCategory_inUnit (ParsedExpense.description e)) as Hu.
      rewrite Hdet in Hu. exact Hu.
    + rewrite Hrev. tauto.
  - destruct (parseReceiptText_run text w) as (e & w' & He & Hn & Hu).
    exists e, w'. auto.
Qed.

(** C5 as stated fails on the receipt "WALMART SUPERCENTER": the merchant
    hints give confidence 0.9, yet the expense is flagged for review. *)
Lemma receipt_review_flag_counterexample :
  exists e w',
    parseReceiptText "WALMART SUPERCENTER" sampleWorld =
      Ok ((e, "WALMART SUPERCENTER"), w') /\
    ParsedExpense.confidence e = 0.9%float /\
    ParsedExpense.needsReview e = true /\
    PrimFloat.ltb (ParsedExpense.confidence e) 0.7 = false /\
    ~ (ParsedExpense.needsReview e = true <->
       PrimFloat.ltb (ParsedExpense.confidence e) 0.7 = true).
Proof.
  destruct (parseReceiptText_run "WALMART SUPERCENTER" sampleWorld)
    as (e & w' & He & Hn & _).
  assert (Hc : match parseReceiptText "WALMART SUPERCENTER" sampleWorld with
               | Ok ((e0, _), _) => ParsedExpense.confidence e0 = 0.9%float
               | Throw _ => False
               end) by (vm_compute; reflexivity).
  rewrite He in Hc. exists e, w'. rewrite Hc, Hn.
  split; [exact He|]. split; [reflexivity|]. split; [reflexivity|].
  split; [reflexivity|].
  intros [H _]. specialize (H eq_refl). vm_compute in H. discriminate.
Qed.

(** *** Bounds on amounts *)

(** C6, as amended.  For every text, the candidates of [extractAmounts] have
    amounts strictly between 0 and 100000; the money values read by the
    receipt interpreter, and so the total it locates, are strictly positive
    (they have no upper bound). *)
Theorem amounts_from_patterns_bounds (text : string) :
  (exists cs, extractAmounts text = Ok cs /\ Forall inBounds cs) /\
  Forall (fun v => 0 < v)%Q (extractMoneyValues text) /\
  (exists total confidence,
     findTotalAmount text = Ok (total, confidence) /\
     match total with
     | Some a => (0 < a)%Q
     | None => True
     end).
Proof.
  split; [|split].
  - destruct (extractAmounts_run text) as (_ & cs & _ & Hcs & _ & _ & Hb & _).
    exists cs. auto.
  - apply extractMoneyValues_pos.
  - rewrite findTotalAmount_locate.
    pose proof (locateTotal_positive text) as Hp.
    destruct (locateTotal extractMoneyValues text) as [total confidence].
    exists total, confidence. auto.
Qed.

(** C6 as stated fails on the receipt line "TOTAL 250,000.00": the total
    locator returns 250000, which is not below 100000. *)
Lemma total_above_bound_counterexample :
  findTotalAmount "TOTAL 250,000.00" = Ok (Some 250000%Q, 0.85%float) /\
  ~ (250000 < 100000)%Q.
Proof.
  split; [vm_compute; reflexivity|].
  intros H. vm_compute in H. discriminate.
Qed.

(** *** Total locator *)




(** *** Receipt interpreter *)

(** C8.  For every recognised text and world, the receipt interpreter
    returns, without throwing, one expense together with the text, and the
    expense is flagged for review; each locator returns a value, possibly
    the absent one. *)
Theorem parseReceiptText_always_reviewed (text : string) (w : World) :
  (exists e w',
     parseReceiptText text w = Ok ((e, text), w') /\
     ParsedExpense.needsReview e = true) /\
  (exists total, findTotalAmount text = Ok total) /\
  (exists merchant, findMerchant text = Ok merchant) /\
  (exists date, findReceiptDate text = Ok date).
Proof.
  split; [|split; [|split]].
  - destruct (parseReceiptText_run text w) as (e & w' & He & Hn & _).
    exists e, w'. auto.
  - rewrite findTotalAmount_locate. eauto.
  - apply findMerchant_total.
  - apply findReceiptDate_total.
Qed.

(** C9 (the code departs from it).  The month-first branch swaps its two
    components exactly when the second exceeds 12 and the first does not,
    the reverse of the rule of the specification: "03/25/2024", whose first
    component does not exceed 12, is swapped into month 25, day 3 (month
    index 24), and "25/03/2024", whose first component exceeds 12 while the
    second does not, is left as month 25, day 3. *)
Theorem findReceiptDate_month_first_swap :
  findReceiptDate "03/25/2024" = Ok (Some (DateOf 2024 24 3)) /\
  findReceiptDate "25/03/2024" = Ok (Some (DateOf 2024 24 3)) /\
  (forall first second : Z,
     arrangeMonthDay (Some first) (Some second) =
     if ((12 <? second) && (first <=? 12))%Z
     then (Some second, Some first)
     else (Some first, Some second)).
Proof.
  split; [vm_compute; reflexivity|]. split; [vm_compute; reflexivity|].
  intros first second. reflexivity.
Qed.

(** C10.  Every keyword of the category table has at least 3 characters;
    for every text [detectCategory] returns either [other] with confidence
    exactly 0.4 or another category with confidence at least 0.75, never a
    confidence strictly between 0.4 and 0.75; the first case is the one in
    which no keyword of the table occurs in the lower-cased text, the second
    the one in which some keyword does, and then the confidence is not below
    the threshold 0.7; and so, for every input and world, each expense of
    [parseExpenses] is flagged for review exactly when its category is
    [other], that is, exactly when no keyword occurs in its description. *)
Theorem needsReview_iff_other :
  Forall (fun e => Forall (fun k => 3 <= String.length k) (snd e)) CATEGORY_KEYWORDS /\
  (forall text,
     (detectCategory text = (other, 0.4%float) \/
      (fst (detectCategory text) <> other /\
       PrimFloat.leb 0.75 (snd (detectCategory text)) = true)) /\
     PrimFloat.ltb 0.4 (snd (detectCategory text)) &&
       PrimFloat.ltb (snd (detectCategory text)) 0.75 = false) /\
  (forall text,
     (keywordMatched text = false <-> detectCategory text = (other, 0.4%float)) /\
     (keywordMatched text = true <->
      fst (detectCategory text) <> other /\
      PrimFloat.leb 0.75 (snd (detectCategory text)) = true) /\
     (keywordMatched text = true ->
      PrimFloat.ltb (snd (detectCategory text)) 0.7 = false)) /\
  (forall input w, exists r w',
     parseExpenses input w = Ok (r, w') /\
     Forall (fun e => (ParsedExpense.needsReview e = true <->
                       ParsedExpense.category e = other) /\
                      (ParsedExpense.needsReview e = true <->
                       keywordMatched (ParsedExpense.description e) = false))
            (ParsingResult.expenses r)).
Proof.
  assert (Hbelow : forall h, 3 <= h <= tableBound CATEGORY_KEYWORDS ->
                             PrimFloat.ltb (confidenceOf h) 0.75 = false).
  { intros h Hh.
    assert (Hall : forallb (fun h => negb (PrimFloat.ltb (confidenceOf h) 0.75))
                     (seq 3 (tableBound CATEGORY_KEYWORDS - 2)) = true)
      by (vm_compute; reflexivity).
    rewrite forallb_forall in Hall. apply negb_true_iff, Hall, in_seq. lia. }
  split; [|split; [|split]].
  - vm_compute. repeat constructor.
  - intros text.
    destruct (detectCategory_score text) as (c & h & Heq & [[-> ->]|[Hh Hc]]);
      rewrite Heq; simpl.
    + split; [left; reflexivity|reflexivity].
    + destruct (confidenceOf_values h Hh) as (H75 & _).
      split; [right; auto|]. rewrite (Hbelow h Hh). apply andb_false_r.
  - intros text.
    destruct (detectCategory_matched text)
      as (c & h & Heq & [(Hk & -> & ->)|(Hk & Hh & Hc)]); rewrite Heq, Hk; simpl.
    + split; [split; reflexivity|]. split; [|discriminate].
      split; [discriminate|]. intros [Hc _]. now elim Hc.
    + destruct (confidenceOf_values h Hh) as (H75 & _ & H7 & _).
      split; [|split; [split; auto|auto]].
      split; [discriminate|]. intros Hother. injection Hother as Hother _.
      contradiction.
  - intros input w.
    destruct (parseExpenses_run input w) as (r & w' & cs & Hr & _ & _ & Hcases).
    exists r, w'. split; [exact Hr|].
    destruct Hcases as [(_ & _ & ->)|(_ & _ & Hb)]; [constructor|].
    induction Hb as [|c e cs' es (_ & Hdet & Hrev) _ IH]; constructor; auto.
    rewrite Hrev.
    destruct (detectCategory_matched (ParsedExpense.description e))
      as (c' & h & Heq & [(Hk & -> & ->)|(Hk & Hh & Hc)]); rewrite Hdet in Heq;
      injection Heq as -> ->; rewrite Hk.
    + repeat split; reflexivity.
    + destruct (confidenceOf_values h Hh) as (_ & _ & H7 & _).
      rewrite H7. repeat split; try discriminate; contradiction.
Qed.

(** A run of C10 on "Team LUNCH", in which the keyword "lunch" occurs: the
    category is not [other] and the confidence is not below 0.7. *)
Lemma needsReview_iff_other_witness :
  keywordMatched "Team LUNCH" = true /\
  (fst (detectCategory "Team LUNCH") <> other /\
   PrimFloat.leb 0.75 (snd (detectCategory "Team LUNCH")) = true) /\
  PrimFloat.ltb (snd (detectCategory "Team LUNCH")) 0.7 = false.
Proof.
  assert (Hk : keywordMatched "Team LUNCH" = true) by (vm_compute; reflexivity).
  split; [exact Hk|].
  destruct (proj1 (proj2 (proj2 needsReview_iff_other)) "Team LUNCH")
    as (_ & Hiff & Hclear).
  split; [apply Hiff; exact Hk|apply Hclear; exact Hk].
Defined.

End Properties.

(* ================================================================== *)
(** ** Further properties of the code *)

Module Extras.
Import Regex RegexFacts RegexProofs RegexLang RegexSound.
Import ExpenseParser AmountFacts AmountProofs ParserFacts ParserProofs.
Import ClassifierFacts ClassifierProofs ReceiptOcr ReceiptFacts ReceiptProofs.
Import TextFacts TextProofs DescriptionFacts DescriptionProofs.
Import ClassifierMore ReceiptMore NumeralFacts NumeralProofs DateProofs.
Import ExpensePreview PreviewFacts PreviewProofs ExpenseInput.
Import ScanFacts ScanProofs SubstituteProofs MerchantFacts MerchantProofs.
Import MoneyFacts MoneyProofs ShapeProofs DollarFacts DollarProofs.
Local Open Scope list_scope.

(** *** The amount extractor *)

(** X1.  For every text, [extractAmounts] returns without throwing, and
    every candidate it returns lies in the text where it says: its matched
    text is not empty and is the substring of the text that starts at its
    offset; and its amount is a whole number of hundredths. *)
Theorem extractAmounts_candidates_in_text (text : string) :
  exists cs, extractAmounts text = Ok cs /\ Forall (wellPlaced text) cs.
Proof.
  destruct (extractAmounts_run text) as (raws & cs & _ & Hcs & _).
  exists cs. split; [exact Hcs|]. now apply extractAmounts_wellPlaced.
Qed.

(** *** The rule-based parser *)

(** X2.  For every input and world, every expense [parseExpenses] returns
    has an amount that is a whole number of hundredths, above 0 and below
    100000, and a description of at least two characters whose first
    character is not a lower-case letter. *)
Theorem parseExpenses_expense_shape (input : string) (w : World) :
  exists r w',
    parseExpenses input w = Ok (r, w') /\
    Forall (fun e =>
              wholeCents (ParsedExpense.amount e) /\
              (0 < ParsedExpense.amount e)%Q /\
              (ParsedExpense.amount e < 100000)%Q /\
              2 <= String.length (ParsedExpense.description e) /\
              notLowerFirst (ParsedExpense.description e))
           (ParsingResult.expenses r).
Proof. exact (parseExpenses_shape input w). Qed.

(** X3.  White space around the input changes nothing but the echoed
    [rawInput]: in the same world, [parseExpenses] on an input and on the
    trimmed input return the same success flag, the same expenses (with the
    same identifiers) and the same processing time, and leave the same
    world. *)
Theorem parseExpenses_ignores_outer_space (input : string) (w : World) :
  exists r r' w',
    parseExpenses input w = Ok (r, w') /\
    parseExpenses (JS.trim input) w = Ok (r', w') /\
    ParsingResult.success r = ParsingResult.success r' /\
    ParsingResult.expenses r = ParsingResult.expenses r' /\
    ParsingResult.processingTime r = ParsingResult.processingTime r' /\
    ParsingResult.rawInput r = input /\
    ParsingResult.rawInput r' = JS.trim input.
Proof.
  assert (H : match parseExpenses input w, parseExpenses (JS.trim input) w with
              | Ok (r, w1), Ok (r', w1') =>
                  ParsingResult.success r = ParsingResult.success r' /\
                  ParsingResult.expenses r = ParsingResult.expenses r' /\
                  ParsingResult.processingTime r = ParsingResult.processingTime r' /\
                  ParsingResult.rawInput r = input /\
                  ParsingResult.rawInput r' = JS.trim input /\
                  w1 = w1'
              | _, _ => False
              end).
  { destruct (extractAmounts_run (JS.trim input)) as (raws & cs & _ & Hcs & _).
    unfold parseExpenses, bind, performance_now, failed, lift, ret.
    rewrite trim_idem. simpl.
    destruct (JS.trim input) as [|ch t] eqn:Et; simpl; [auto 10|].
    rewrite Hcs. destruct cs as [|c cs]; simpl; [auto 10|].
    destruct (mapM_from_ok (buildExpense (String ch t) (c :: cs))
                (described (String ch t))
                (buildExpense_described (String ch t) (c :: cs)) (c :: cs) 0 (tick w))
      as (es & w1 & Hes & _).
    unfold mapM. rewrite Hes. simpl. auto 10. }
  destruct (parseExpenses input w) as [[r w1]|]; [|contradiction].
  destruct (parseExpenses (JS.trim input) w) as [[r' w1']|]; [|contradiction].
  destruct H as (H1 & H2 & H3 & H4 & H5 & <-).
  exists r, r', w1. repeat split; auto.
Qed.

(** *** The category detector *)

(** X4.  On ASCII text [detectCategory] ignores letter case: a text of
    ASCII characters and its upper-case form get the same category and
    confidence.  And more text never lowers the confidence, whatever the
    text: the confidence of a concatenation is at least that of each part,
    and when the concatenation is classified [other], so is each part. *)
Theorem detectCategory_case_and_more_text :
  (forall text,
     asciiText text = true ->
     detectCategory (JS.toUpperCase text) = detectCategory text) /\
  (forall a b,
     PrimFloat.leb (snd (detectCategory a)) (snd (detectCategory (a ++ b))) = true /\
     PrimFloat.leb (snd (detectCategory b)) (snd (detectCategory (a ++ b))) = true /\
     (fst (detectCategory (a ++ b)) = other ->
      fst (detectCategory a) = other /\ fst (detectCategory b) = other)).
Proof.
  split.
  { intros text _. unfold detectCategory. now rewrite toLowerCase_toUpperCase. }
  intros a b.
  assert (Ha : forall k, JS.includes (JS.toLowerCase a) k = true ->
                         JS.includes (JS.toLowerCase (a ++ b)) k = true).
  { intros k Hk. rewrite toLowerCase_app. now apply includes_app_l. }
  assert (Hb : forall k, JS.includes (JS.toLowerCase b) k = true ->
                         JS.includes (JS.toLowerCase (a ++ b)) k = true).
  { intros k Hk. rewrite toLowerCase_app. now apply includes_app_r. }
  destruct (detectCategory_mono a (a ++ b) Ha) as [Ha1 Ha2].
  destruct (detectCategory_mono b (a ++ b) Hb) as [Hb1 Hb2].
  repeat split; auto.
Qed.

Lemma detectCategory_case_and_more_text_witness :
  asciiText "Lunch at the Cafe" = true /\
  detectCategory (JS.toUpperCase "Lunch at the Cafe") =
  detectCategory "Lunch at the Cafe".
Proof.
  split; [reflexivity|].
  apply (proj1 detectCategory_case_and_more_text). reflexivity.
Defined.

(** X5.  A text in which a keyword of seven characters or more occurs,
    whatever the letter case, gets a category other than [other] with
    confidence exactly 0.95. *)
Theorem detectCategory_long_keyword (text : string) (e : Category * list string)
  (k : string) :
  In e CATEGORY_KEYWORDS -> In k (snd e) -> 7 <= String.length k ->
  JS.includes (JS.toLowerCase text) k = true ->
  fst (detectCategory text) <> other /\
  snd (detectCategory text) = 0.95%float.
Proof.
  intros He Hk Hlen Hinc.
  destruct (detectCategory_winner text) as (c & h & Heq & Hzero & Hbound & Hmax & _).
  pose proof (keywordScore_ge _ _ _ Hk Hinc) as Hge.
  specialize (Hmax e He).
  rewrite Heq. simpl. split.
  - intros Hc. apply Hzero in Hc. lia.
  - apply confidenceOf_saturated. lia.
Qed.

Lemma detectCategory_long_keyword_witness :
  fst (detectCategory "NETFLIX renewal") <> other /\
  snd (detectCategory "NETFLIX renewal") = 0.95%float.
Proof.
  apply (detectCategory_long_keyword "NETFLIX renewal"
           (entertainment, ["movie"; "netflix"; "spotify"; "concert"; "game"; "theater";
                            "entertainment"; "music"; "streaming"])
           "netflix").
  - simpl. tauto.
  - simpl. tauto.
  - simpl. lia.
  - vm_compute. reflexivity.
Defined.

(** *** The receipt locators *)

(** X6.  For every text, the total locator returns no amount exactly when
    its confidence is 0.4, and then the whole text has no money value; its
    confidence is one of 0.85, 0.6, 0.55 and 0.4; and with confidence 0.55
    the amount is the greatest money value of the whole text. *)
Theorem findTotalAmount_tiers (text : string) :
  exists total confidence,
    findTotalAmount text = Ok (total, confidence) /\
    In confidence [0.85; 0.6; 0.55; 0.4]%float /\
    (total = None <-> PrimFloat.eqb confidence 0.4 = true) /\
    (total = None -> extractMoneyValues text = []) /\
    (PrimFloat.eqb confidence 0.55 = true ->
     total = Math_max (extractMoneyValues text)).
Proof.
  rewrite findTotalAmount_locate.
  pose proof (locateTotal_tiers text) as (H1 & H2 & H3).
  pose proof (locateTotal_confidence extractMoneyValues text) as Hc.
  destruct (locateTotal extractMoneyValues text) as [total confidence].
  simpl in *. exists total, confidence. repeat split; auto.
  - apply H1.
  - apply H1.
  - intros H. symmetry. now apply H3.
Qed.

(** X7.  A numeric date is never rejected for its month or day: when the
    text, with its white space squeezed, matches the year-first or the
    month-first pattern, [findReceiptDate] returns a date made of a year
    below 10000, a month index between -1 and 98 and a day between 0 and
    99, as read from the digits. *)
Theorem findReceiptDate_numeric_accepted (text : string) :
  match1 ymdPattern (replace spacesG " " text) <> None \/
  match1 mdyPattern (replace spacesG " " text) <> None ->
  exists y mo dd,
    findReceiptDate text = Ok (Some (DateOf y mo dd)) /\
    (0 <= y < 10000)%Z /\ (-1 <= mo < 99)%Z /\ (0 <= dd < 100)%Z.
Proof.
  intros H. unfold findReceiptDate. cbv zeta.
  destruct (match1 ymdPattern (replace spacesG " " text)) as [m|] eqn:Ey.
  - destruct (tryYmd_found _ m Ey) as (y & mo & dd & -> & _ & _ & _ & Hy & Hm & Hd).
    exists y, mo, dd. auto.
  - assert (Hn : tryYmd (replace spacesG " " text) = None)
      by (unfold tryYmd; now rewrite Ey).
    rewrite Hn.
    destruct (match1 mdyPattern (replace spacesG " " text)) as [m|] eqn:Em;
      [|destruct H as [H|H]; congruence].
    destruct (tryMdy_found _ m Em) as (a & b & c & _ & _ & _ & Ha & Hb & Hc & ->).
    eexists. eexists. eexists. split; [reflexivity|].
    destruct (c <? 100)%Z eqn:Ec; destruct ((12 <? b)%Z && (a <=? 12)%Z); lia.
Qed.

Lemma findReceiptDate_numeric_accepted_witness :
  findReceiptDate "Date: 2024-13-45" = Ok (Some (DateOf 2024 12 45)) /\
  exists y mo dd,
    findReceiptDate "Date: 2024-13-45" = Ok (Some (DateOf y mo dd)) /\
    (0 <= y < 10000)%Z /\ (-1 <= mo < 99)%Z /\ (0 <= dd < 100)%Z.
Proof.
  split; [vm_compute; reflexivity|].
  apply (findReceiptDate_numeric_accepted "Date: 2024-13-45").
  left. vm_compute. discriminate.
Defined.

(** X8.  [normalizeDescription] returns a description that is never empty,
    has no white space at either end and does not start with a lower-case
    letter; normalising it again changes nothing. *)
Theorem normalizeDescription_canonical (value : string) :
  let d := normalizeDescription value in
  1 <= String.length d /\ notLowerFirst d /\ JS.trim d = d /\
  normalizeDescription d = d.
Proof. exact (normalizeDescription_shape value). Qed.

(** X9.  The category of a merchant name: an absent or empty name gives
    [other] with confidence 0.4; for any other name, when no hint of the
    table occurs in it the result is that of [detectCategory] on the name,
    and otherwise the hints win: the category is that of the first row of
    the hint table with the greatest score, which is not [other], and the
    confidence lies between 0.75 and 0.9. *)
Theorem pickCategoryFromMerchant_hints_first :
  pickCategoryFromMerchant None = (other, 0.4%float) /\
  pickCategoryFromMerchant (Some "") = (other, 0.4%float) /\
  forall (c : ascii) (t : string),
    let m := String c t in
    let score := fun e : Category * list string =>
                   keywordScore (JS.toLowerCase m) (snd e) in
    (Forall (fun e => score e = 0) MERCHANT_CATEGORY_HINTS /\
     pickCategoryFromMerchant (Some m) = detectCategory m)
    \/
    (exists pre e post,
       MERCHANT_CATEGORY_HINTS = pre ++ e :: post /\
       3 <= score e <= tableBound MERCHANT_CATEGORY_HINTS /\
       fst e <> other /\
       Forall (fun e' => score e' < score e) pre /\
       Forall (fun e' => score e' <= score e) post /\
       pickCategoryFromMerchant (Some m) = (fst e, merchantConfidence (score e)) /\
       PrimFloat.leb 0.75 (merchantConfidence (score e)) = true /\
       PrimFloat.leb (merchantConfidence (score e)) 0.9 = true).
Proof.
  split; [reflexivity|]. split; [reflexivity|].
  intros c t m.
  assert (Hm : JS.isEmpty m = false) by reflexivity. clearbody m.
  intros score. unfold pickCategoryFromMerchant. rewrite Hm, fold_hints.
  fold score.
  destruct (fold_improve fst score MERCHANT_CATEGORY_HINTS other 0)
    as [[Heq Hall]|(pre & e & post & Htab & Heq & Hlt & Hpre & Hpost)]; rewrite Heq.
  - left. simpl. split; auto.
    eapply Forall_impl; [|exact Hall]. simpl. intros; lia.
  - right. exists pre, e, post.
    assert (Hin : In e MERCHANT_CATEGORY_HINTS) by (rewrite Htab; apply in_elt).
    assert (Hrow : Forall (fun k => 3 <= String.length k) (snd e) /\
                   list_sum (map String.length (snd e)) <=
                     tableBound MERCHANT_CATEGORY_HINTS /\
                   (fst e = other -> snd e = [])).
    { clear -Hin. simpl in Hin.
      repeat (destruct Hin as [<-|Hin];
              [vm_compute; split; [repeat constructor|split; [repeat constructor|]];
               try discriminate; auto|]).
      contradiction. }
    destruct Hrow as (Hlen & Hsum & Hother).
    destruct (keywordScore_range (JS.toLowerCase m) (snd e) 3 Hlen) as [[H0|H3] Hle];
      fold (score e) in *; [lia|].
    assert (Hne : fst e <> other).
    { intros Ho. apply Hother in Ho. unfold score in H3. rewrite Ho in H3.
      cbv in H3. lia. }
    split; [exact Htab|]. split; [lia|]. split; [exact Hne|].
    split; [exact Hpre|]. split; [exact Hpost|].
    split; [destruct (fst e); try contradiction; reflexivity|].
    apply merchantConfidence_range. lia.
Qed.

(** *** The receipt interpreter and the upload *)

(** X10.  What the upload handler does with a recognised text: it never
    takes the failure branch; it reports that no total was found exactly
    when the total locator finds no amount and the rule-based parser finds
    no expense, and otherwise hands over the expense, whose amount is above
    0, together with the text. *)
Theorem receiptOutcome_cases (text : string) (w : World) :
  exists total amountConfidence cs e w',
    findTotalAmount text = Ok (total, amountConfidence) /\
    extractAmounts (JS.trim text) = Ok cs /\
    parseReceiptText text w = Ok ((e, text), w') /\
    ((total = None /\ (JS.trim text = "" \/ cs = []) /\
      receiptOutcome text w = NoTotalFound)
     \/
     ((total <> None \/ (JS.trim text <> "" /\ cs <> [])) /\
      (0 < ParsedExpense.amount e)%Q /\
      receiptOutcome text w = ReceiptParsed e text)).
Proof.
  destruct (parseReceiptText_amount text w)
    as (total & ac & cs & e & w' & Ht & Hcs & Hrun & Hcase).
  exists total, ac, cs, e, w'. repeat (split; [assumption|]).
  unfold receiptOutcome. rewrite Hrun.
  destruct Hcase as [(Hn & Hc & Ha)|(Hc & Ha)].
  - left. repeat split; auto. rewrite Ha. reflexivity.
  - right. repeat split; auto. unfold nonPositive.
    destruct (Qlt_0_not_0 _ Ha) as [_ ->]. reflexivity.
Qed.

(** *** The edits of the preview *)

(** X11.  [handleUpdateExpense] edits in place: the list keeps its length;
    at every position an expense with another identifier is left as it is,
    and one with the given identifier takes the updates and is no longer
    flagged for review, whatever the updates say; and when the updates
    leave the identifier alone, the identifiers stay the same and applying
    the same edit twice is the same as applying it once. *)
Theorem handleUpdateExpense_edits_in_place (id : string) (updates : Updates.t)
  (prev : list ParsedExpense.t) :
  List.length (handleUpdateExpense id updates prev) = List.length prev /\
  (forall i exp, nth_error prev i = Some exp ->
     exists exp',
       nth_error (handleUpdateExpense id updates prev) i = Some exp' /\
       (ParsedExpense.id exp <> id -> exp' = exp) /\
       (ParsedExpense.id exp = id ->
        exp' = applyUpdates exp updates /\ ParsedExpense.needsReview exp' = false)) /\
  (Updates.id updates = None ->
   ids (handleUpdateExpense id updates prev) = ids prev /\
   handleUpdateExpense id updates (handleUpdateExpense id updates prev) =
     handleUpdateExpense id updates prev).
Proof.
  split; [apply handleUpdateExpense_length|]. split.
  - intros i exp H. eexists. split; [apply handleUpdateExpense_nth; exact H|].
    destruct (String.eqb_spec (ParsedExpense.id exp) id); split; intros; try congruence.
    split; reflexivity.
  - intros H. split; [now apply handleUpdateExpense_ids|now apply handleUpdateExpense_idem].
Qed.

(** X12.  [handleRemoveExpense] keeps exactly the expenses with another
    identifier, in order: none with the given identifier stays; a list
    without that identifier is left as it is; with distinct identifiers,
    removing one that is there takes out that expense alone; and removing
    commutes with an edit that leaves identifiers alone. *)
Theorem handleRemoveExpense_removes (id : string) (prev : list ParsedExpense.t) :
  (forall exp, In exp (handleRemoveExpense id prev) <->
               In exp prev /\ ParsedExpense.id exp <> id) /\
  ~ In id (ids (handleRemoveExpense id prev)) /\
  (~ In id (ids prev) -> handleRemoveExpense id prev = prev) /\
  (NoDup (ids prev) -> In id (ids prev) ->
   exists before exp after,
     prev = before ++ exp :: after /\ ParsedExpense.id exp = id /\
     handleRemoveExpense id prev = before ++ after) /\
  (forall id' updates, Updates.id updates = None ->
     handleRemoveExpense id (handleUpdateExpense id' updates prev) =
     handleUpdateExpense id' updates (handleRemoveExpense id prev)).
Proof.
  split; [intros exp; apply handleRemoveExpense_In|]. split.
  - rewrite handleRemoveExpense_ids, filter_In. intros [_ H].
    now rewrite String.eqb_refl in H.
  - split; [apply handleRemoveExpense_absent|].
    split; [apply handleRemoveExpense_split|].
    intros id' updates H. now apply remove_update_commute.
Qed.

(** *** The money values and the merchant of a receipt *)


(** X14.  Amounts of 1000 and more are read whole only with their
    thousands separators: in a text without a comma every money value is
    below 1000, and so is the amount the total locator returns. *)
Theorem money_without_comma_below_1000 (text : string) :
  JS.includes text "," = false ->
  Forall (fun v => v < 1000)%Q (extractMoneyValues text) /\
  exists total confidence,
    findTotalAmount text = Ok (total, confidence) /\
    match total with
    | Some a => (a < 1000)%Q
    | None => True
    end.
Proof.
  intros Hno. apply includes_comma in Hno.
  assert (Hall : forall t, (forall a, In a (chars t) -> In a (chars text)) ->
                           Forall (fun v => v < 1000)%Q (extractMoneyValues t)).
  { intros t Hsub. eapply Forall_impl; [|apply extractMoneyValues_cents].
    simpl. intros v [_ Hv]. apply Hv.
    apply Forall_forall. intros a Ha. rewrite Forall_forall in Hno. auto. }
  split; [apply Hall; auto|].
  rewrite findTotalAmount_locate.
  pose proof (locateTotal_from (fun v => v < 1000)%Q text) as H.
  destruct (locateTotal extractMoneyValues text) as [total confidence].
  exists total, confidence. split; [reflexivity|]. apply H.
  - intros line Hline. apply Hall. intros a. now apply linesOf_chars.
  - apply Hall. auto.
Qed.

Lemma money_without_comma_below_1000_witness :
  extractMoneyValues "TOTAL 1234.56" = [123; Qred 4.56]%Q /\
  findTotalAmount "TOTAL 1234.56" = Ok (Some (Qred 4.56), 0.85%float) /\
  Forall (fun v => v < 1000)%Q (extractMoneyValues "TOTAL 1234.56") /\
  exists total confidence,
    findTotalAmount "TOTAL 1234.56" = Ok (total, confidence) /\
    match total with
    | Some a => (a < 1000)%Q
    | None => True
    end.
Proof.
  split; [vm_compute; reflexivity|]. split; [vm_compute; reflexivity|].
  apply (money_without_comma_below_1000 "TOTAL 1234.56"). reflexivity.
Defined.

(** X15.  For every text [findMerchant] returns without throwing, and a
    name it returns contains a letter, is made of letters, white space and
    the characters [&], [.] and [-] only (so it has no digit), and has no
    white space at either end. *)
Theorem findMerchant_name_shape (text : string) :
  exists r,
    findMerchant text = Ok r /\
    forall name, r = Some name ->
      (exists a, In a (chars name) /\ isLetter a = true) /\
      Forall (fun a => nameChar a = true /\ JS.isDigit a = false) (chars name) /\
      JS.trim name = name.
Proof.
  destruct (findMerchant_name text) as (r & Hr & Hname).
  exists r. split; [exact Hr|]. intros name Hn.
  destruct (Hname name Hn) as (Hletter & Hall & Htrim).
  split; [exact Hletter|]. split; [|exact Htrim].
  eapply Forall_impl; [|exact Hall]. clear. intros a Ha. split; [exact Ha|].
  destruct a as [[] [] [] [] [] [] [] []];
    try reflexivity; vm_compute in Ha; discriminate.
Qed.


(** *** No dollar amount is missed *)

(** X17.  Every dollar amount of a text is found: when a dollar sign
    followed by digits, with their fraction if any, starts at an offset and
    its value is above 0 and below 100000, [extractAmounts] returns the
    candidate of that offset, text and value; and [parseExpenses], on any
    input that trims to the text, succeeds with an expense of that
    amount. *)
Theorem dollar_amounts_found (text : string) (j n : nat) (v : Q) :
  dollarLen (JS.drop j text) = Some n ->
  Num.parseFloat (JS.substring (S j) (j + n) text) = Some v ->
  sane (Some v) = true ->
  (exists cs,
     extractAmounts text = Ok cs /\
     In {| Candidate.amount := v; Candidate.index := j;
           Candidate.matchText := JS.substring j (j + n) text |} cs) /\
  (forall input w, JS.trim input = text ->
     exists r w',
       parseExpenses input w = Ok (r, w') /\
       ParsingResult.success r = true /\
       exists e, In e (ParsingResult.expenses r) /\ ParsedExpense.amount e = v).
Proof.
  intros Hlen Hv Hsane.
  destruct (extractAmounts_dollar text j n v Hlen Hv Hsane) as (cs & Hcs & Hin).
  split; [exists cs; auto|].
  intros input w Ht.
  destruct (parseExpenses_run input w) as (r & w' & cs' & Hr & Hcs' & _ & Hcases).
  rewrite Ht, Hcs in Hcs'. injection Hcs' as <-.
  exists r, w'. split; [exact Hr|].
  destruct Hcases as [([He|He] & _)|(_ & Hs & Hbuilt)].
  - rewrite Ht in He. rewrite He in Hlen. destruct j; simpl in Hlen; discriminate.
  - subst cs. contradiction.
  - split; [exact Hs|]. clear -Hbuilt Hin.
    induction Hbuilt as [|c e cs es Hce _ IH]; [contradiction|].
    destruct Hin as [Heq|Hin].
    + exists e. split; [now left|]. destruct Hce as (Hamt & _).
      rewrite Hamt, Heq. reflexivity.
    + destruct (IH Hin) as (e' & He' & Ha). exists e'. split; [now right|exact Ha].
Qed.

Lemma dollar_amounts_found_witness :
  (exists cs,
     extractAmounts "Paid $15.50 for lunch" = Ok cs /\
     In {| Candidate.amount := 31 # 2; Candidate.index := 5;
           Candidate.matchText := "$15.50" |} cs) /\
  (forall input w, JS.trim input = "Paid $15.50 for lunch" ->
     exists r w',
       parseExpenses input w = Ok (r, w') /\
       ParsingResult.success r = true /\
       exists e, In e (ParsingResult.expenses r) /\ ParsedExpense.amount e = 31 # 2).
Proof.
  apply (dollar_amounts_found "Paid $15.50 for lunch" 5 6 (31 # 2));
    vm_compute; reflexivity.
Defined.

End Extras.
